(** * Pronunciation assessment service: the continuous-recognition scoring core

    A shallow embedding of the continuous path of the service
    (the [/pronunciationAssessment] handler, [continueRecognize],
    its [recognized] and [sessionStopped] callbacks and
    [calculateOverallPronunciationScore]) and the properties of its
    reconciliation and scoring that the specification states.

    Modelling conventions.
    - A JavaScript number is a [number]: a rational, [Infinity],
      [-Infinity] or [NaN]; the sign of zero is not modelled.  The scores
      are given twice.  [calculateOverallPronunciationScore] computes them
      in exact arithmetic: division by zero, [NaN] propagation and the
      comparisons are those of the code, the rounding of each operation to
      a double is left out.  [calculateOverallPronunciationScore64]
      computes them as the code does, every operation rounded to the
      nearest IEEE-754 double ([Double.round]).  The two differ where an
      exact result sits on a rounding boundary of [toFixed(0)]; the
      properties of the completeness score, of the overall score and of the
      accuracy mean that depend on it are stated on the second.
    - A JavaScript string is a [string] whose characters are read as code
      points U+0000 .. U+00FF.
    - The word objects that [JSON.parse] creates live in a [heap]; the arrays
      [recognizedWords], [allWords] and [lastWords] hold addresses, so that the
      in-place update of [ErrorType] is seen through every alias.
    - A [TypeError] raised by the code is the [None] of an [option].
    - [difflib.SequenceMatcher] is an external library: its [getOpcodes] is a
      parameter of the development. *)

From Stdlib Require Import ZArith QArith Qpower Qround Qabs Lia Lqa Bool.
From Stdlib Require Import String Ascii List Permutation Sorted.
From Stdlib Require PrimFloat FloatOps SpecFloat Uint63.
From stdpp Require Import base option list.
Import ListNotations.

Local Open Scope string_scope.
Local Open Scope list_scope.
Local Open Scope nat_scope.

(* ===================================================================== *)
(** ** JavaScript numbers *)
(* ===================================================================== *)

Inductive number : Type :=
| Num (q : Q)
| PosInfinity
| NegInfinity
| NaN.

Module Number.

Definition zero : number := Num 0.

Definition isNaN (x : number) : bool :=
  match x with NaN => true | _ => false end.


(** Unary minus. *)
Definition neg (x : number) : number :=
  match x with
  | Num q => Num (- q)
  | PosInfinity => NegInfinity
  | NegInfinity => PosInfinity
  | NaN => NaN
  end.

(** [x + y]. *)
Definition add (x y : number) : number :=
  match x, y with
  | NaN, _ | _, NaN => NaN
  | Num a, Num b => Num (a + b)
  | PosInfinity, NegInfinity | NegInfinity, PosInfinity => NaN
  | PosInfinity, _ | _, PosInfinity => PosInfinity
  | NegInfinity, _ | _, NegInfinity => NegInfinity
  end.

(** [x - y]. *)
Definition sub (x y : number) : number := add x (neg y).

(** The sign of a rational: [Lt], [Eq] or [Gt] as it is below, at or above 0. *)
Definition sgn (q : Q) : comparison := (q ?= 0)%Q.

Definition scaleInf (positive : bool) (s : comparison) : number :=
  match s with
  | Eq => NaN
  | Gt => if positive then PosInfinity else NegInfinity
  | Lt => if positive then NegInfinity else PosInfinity
  end.

(** [x * y]. *)
Definition mul (x y : number) : number :=
  match x, y with
  | NaN, _ | _, NaN => NaN
  | Num a, Num b => Num (a * b)
  | Num a, PosInfinity | PosInfinity, Num a => scaleInf true (sgn a)
  | Num a, NegInfinity | NegInfinity, Num a => scaleInf false (sgn a)
  | PosInfinity, PosInfinity | NegInfinity, NegInfinity => PosInfinity
  | PosInfinity, NegInfinity | NegInfinity, PosInfinity => NegInfinity
  end.

(** [x / y]: a finite number over zero is an infinity of its sign, and
    [0 / 0] is [NaN]. *)
Definition div (x y : number) : number :=
  match x, y with
  | NaN, _ | _, NaN => NaN
  | Num a, Num b =>
      match sgn b with
      | Eq => scaleInf true (sgn a)
      | _ => Num (a / b)
      end
  | Num _, _ => Num 0
  | PosInfinity, Num b =>
      match sgn b with Lt => NegInfinity | _ => PosInfinity end
  | NegInfinity, Num b =>
      match sgn b with Lt => PosInfinity | _ => NegInfinity end
  | _, _ => NaN
  end.

(** [x > y]; false as soon as one side is [NaN]. *)
Definition gt (x y : number) : bool :=
  match x, y with
  | NaN, _ | _, NaN => false
  | Num a, Num b => match (a ?= b)%Q with Gt => true | _ => false end
  | PosInfinity, PosInfinity => false
  | PosInfinity, _ => true
  | Num _, NegInfinity => true
  | _, _ => false
  end.

(** [x < y]. *)
Definition lt (x y : number) : bool := gt y x.

(** [x <= y]; false as soon as one side is [NaN]. *)
Definition le (x y : number) : bool :=
  match x, y with
  | NaN, _ | _, NaN => false
  | _, _ => negb (gt x y)
  end.

(** [ToBoolean]: [0] and [NaN] are falsy. *)
Definition truthy (x : number) : bool :=
  match x with
  | Num q => match sgn q with Eq => false | _ => true end
  | NaN => false
  | _ => true
  end.

(** The integer nearest to a rational, a tie going away from zero: the
    integer [n] that [Number.prototype.toFixed] picks for zero fraction
    digits ("let n be an integer for which n - x is as close to zero as
    possible; if there are two such n, pick the larger n", applied to the
    absolute value, the sign being put back afterwards). *)
Definition roundHalfAway (q : Q) : Z :=
  match sgn q with
  | Lt => (- Qfloor (- q + (1 # 2)))%Z
  | _ => Qfloor (q + (1 # 2))
  end.

(** [Number(x.toFixed(0))].  [NaN] and the infinities print as their names,
    which [Number] reads back.  (From 10^21 on [toFixed]
    prints the number itself; a double that large is an integer.) *)
Definition toFixed0 (x : number) : number :=
  match x with
  | Num q => Num (inject_Z (roundHalfAway q))
  | _ => x
  end.

(** [x || 0] on a number. *)
Definition orZero (x : number) : number :=
  if truthy x then x else Num 0.

(** lodash [_.sum]: [0] for an empty array, otherwise the elements added
    from the left, starting from the first one. *)
Definition sum (l : list number) : number :=
  match l with
  | [] => Num 0
  | x :: r => fold_left add r x
  end.

End Number.

Declare Scope js_scope.
Delimit Scope js_scope with js.
Infix "+" := Number.add : js_scope.
Infix "-" := Number.sub : js_scope.
Infix "*" := Number.mul : js_scope.
Infix "/" := Number.div : js_scope.

(* ===================================================================== *)
(** ** JavaScript strings *)
(* ===================================================================== *)

Module Str.

Definition code (c : ascii) : nat := nat_of_ascii c.

Definition inRange (lo hi n : nat) : bool := (lo <=? n) && (n <=? hi).

(** [toLowerCase] on U+0000 .. U+00FF: A-Z and the capital letters
    U+00C0 .. U+00DE (U+00D7, the multiplication sign, apart) move 32 up. *)
Definition lowerChar (c : ascii) : ascii :=
  let n := code c in
  if inRange 65 90 n || (inRange 192 222 n && negb (n =? 215))
  then ascii_of_nat (n + 32) else c.

Fixpoint map (f : ascii -> ascii) (s : string) : string :=
  match s with
  | EmptyString => EmptyString
  | String c r => String (f c) (map f r)
  end.

Definition toLowerCase (s : string) : string := map lowerChar s.

(** [toLocaleLowerCase] in a host locale without special casing rules. *)
Definition toLocaleLowerCase (s : string) : string := toLowerCase s.

Fixpoint filter (p : ascii -> bool) (s : string) : string :=
  match s with
  | EmptyString => EmptyString
  | String c r => if p c then String c (filter p r) else filter p r
  end.

(** The character class of the first regular expression.  Inside it the
    comma, hyphen and full stop form the range U+002C .. U+002E; the
    apostrophe, the backslash and the closing bracket are not in it. *)
Definition inPunctuationClass (c : ascii) : bool :=
  let n := code c in
  inRange 33 38 n      (* exclamation mark .. ampersand *)
  || inRange 40 43 n   (* parentheses, asterisk, plus *)
  || inRange 44 46 n   (* comma, hyphen, full stop *)
  || (n =? 47)         (* slash *)
  || inRange 58 64 n   (* colon .. at sign *)
  || (n =? 91)         (* opening bracket *)
  || inRange 94 96 n   (* caret, underscore, backquote *)
  || inRange 123 126 n (* braces, bar, tilde *).

Definition isCloseBracket (c : ascii) : bool := code c =? 93.

(** The two global [replace] calls: every maximal run of class characters
    is replaced by the empty string, that is every class character is
    deleted; then every closing bracket is. *)
Definition stripPunctuation (s : string) : string :=
  filter (fun c => negb (isCloseBracket c))
         (filter (fun c => negb (inPunctuationClass c)) s).

Definition isSpace (c : ascii) : bool := code c =? 32.

(** [split] on one space: the pieces between the spaces, one more than there are
    spaces; the empty string gives one empty piece. *)
Fixpoint split (s : string) : list string :=
  match s with
  | EmptyString => [EmptyString]
  | String c r =>
      if isSpace c then EmptyString :: split r
      else match split r with
           | [] => [String c EmptyString]
           | p :: ps => String c p :: ps
           end
  end.

(** [join] with one space. *)
Fixpoint join (l : list string) : string :=
  match l with
  | [] => EmptyString
  | [s] => s
  | s :: r => (s ++ String " " (join r))%string
  end.

(** White space and line terminators of [String.prototype.trim] below
    U+0100: TAB, LF, VT, FF, CR, SPACE and NO-BREAK SPACE. *)
Definition isWhiteSpace (c : ascii) : bool :=
  let n := code c in inRange 9 13 n || (n =? 32) || (n =? 160).

Definition isEmpty (s : string) : bool :=
  match s with EmptyString => true | _ => false end.

Fixpoint trimStart (s : string) : string :=
  match s with
  | EmptyString => EmptyString
  | String c r => if isWhiteSpace c then trimStart r else s
  end.

Fixpoint trimEnd (s : string) : string :=
  match s with
  | EmptyString => EmptyString
  | String c r =>
      let r' := trimEnd r in
      if isWhiteSpace c && isEmpty r' then EmptyString else String c r'
  end.

Definition trim (s : string) : string := trimStart (trimEnd s).

Fixpoint contains (c : ascii) (s : string) : bool :=
  match s with
  | EmptyString => false
  | String c' r => (code c' =? code c) || contains c r
  end.

End Str.

(* ===================================================================== *)
(** ** Data model *)
(* ===================================================================== *)

(** A word object of the engine's JSON result: [Word], [Offset], [Duration]
    and, under [PronunciationAssessment], [AccuracyScore] and [ErrorType]. *)
Record WordObj : Type := mkWord {
  Word : string;
  Offset : number;
  Duration : number;
  AccuracyScore : number;
  ErrorType : string
}.

Definition setErrorType (e : string) (w : WordObj) : WordObj :=
  {| Word := Word w; Offset := Offset w; Duration := Duration w;
     AccuracyScore := AccuracyScore w; ErrorType := e |}.

(** The parsed [SpeechServiceResponse_JsonResult] of one [recognized] event:
    [RecognitionStatus], and of [NBest[0]] the [Words] and the
    [PronunciationAssessment] scores. *)
Record Json : Type := mkJson {
  RecognitionStatus : string;
  Words : list WordObj;
  FluencyScore : number;
  ProsodyScore : number
}.

Inductive ResultReason : Type :=
| NoMatch
| Canceled
| RecognizingSpeech
| RecognizedSpeech.

Definition ResultReason_eqb (a b : ResultReason) : bool :=
  match a, b with
  | NoMatch, NoMatch | Canceled, Canceled
  | RecognizingSpeech, RecognizingSpeech
  | RecognizedSpeech, RecognizedSpeech => true
  | _, _ => false
  end.

(** The argument [e] of the [recognized] callback: [e.result.reason] and the
    JSON property of [e.result]. *)
Record RecognitionEvent : Type := mkEvent {
  reason : ResultReason;
  json : Json
}.

(** The literal [scoreNumber]; its keys in creation order are the
    constructors of [ScoreKey]. *)
Record ScoreNumber : Type := mkScoreNumber {
  accuracyScore : number;
  fluencyScore : number;
  compScore : number;
  prosodyScore : number
}.

Inductive ScoreKey : Type :=
| kAccuracyScore
| kFluencyScore
| kCompScore
| kProsodyScore.

Definition getScore (s : ScoreNumber) (k : ScoreKey) : number :=
  match k with
  | kAccuracyScore => accuracyScore s
  | kFluencyScore => fluencyScore s
  | kCompScore => compScore s
  | kProsodyScore => prosodyScore s
  end.

(** [Object.keys(scoreNumber)] before [pronScore] is added. *)
Definition scoreKeys : list ScoreKey :=
  [kAccuracyScore; kFluencyScore; kCompScore; kProsodyScore].

(** The variables that [continueRecognize] closes over.  [heap] holds the
    word objects; [allWords] and [recognizedWords] hold addresses into it. *)
Record State : Type := mkState {
  heap : list WordObj;
  scoreNumber : ScoreNumber;
  allWords : list nat;
  currentText : list string;
  startOffset : number;
  recognizedWords : list nat;
  fluencyScores : list number;
  prosodyScores : list number;
  durations : list number;
  jo : option Json;
  recoginzedError : option ResultReason
}.

Definition initialState : State :=
  {| heap := [];
     scoreNumber := {| accuracyScore := Num 0; fluencyScore := Num 0;
                       compScore := Num 0; prosodyScore := Num 0 |};
     allWords := [];
     currentText := [];
     startOffset := Num 0;
     recognizedWords := [];
     fluencyScores := [];
     prosodyScores := [];
     durations := [];
     jo := None;
     recoginzedError := None |}.

(** [jo.RecognitionStatus == "Success" || jo.RecognitionStatus == "Failed"];
    [jo] is the empty object until the first event. *)
Definition statusIsTerminal (j : option Json) : bool :=
  match j with
  | Some r => (RecognitionStatus r =? "Success")%string
              || (RecognitionStatus r =? "Failed")%string
  | None => false
  end.

(* ===================================================================== *)
(** ** The [recognized] callback *)
(* ===================================================================== *)

(** One [recognized] event.  The assignments to [recoginzedError] and [jo]
    come first; [nb.Words[0].Offset] then raises a [TypeError] when the word
    list is empty, which ends the callback with nothing else changed.
    Otherwise the words are allocated at the end of the heap, every one is
    pushed to [recognizedWords], and the same objects are pushed to
    [allWords] when [RecognitionStatus] is [Success]. *)
Definition recognized (st : State) (e : RecognitionEvent) : State :=
  let recoginzedError' :=
    if negb (ResultReason_eqb (reason e) RecognizedSpeech)
    then Some RecognizedSpeech else recoginzedError st in
  let jo' := json e in
  match Words jo' with
  | [] =>
      {| heap := heap st; scoreNumber := scoreNumber st;
         allWords := allWords st; currentText := currentText st;
         startOffset := startOffset st;
         recognizedWords := recognizedWords st;
         fluencyScores := fluencyScores st;
         prosodyScores := prosodyScores st;
         durations := durations st;
         jo := Some jo'; recoginzedError := recoginzedError' |}
  | w0 :: _ =>
      let nBestWords := seq (length (heap st)) (length (Words jo')) in
      let localtext := List.map (fun item => Str.toLowerCase (Word item)) (Words jo') in
      let isSucceeded := (RecognitionStatus jo' =? "Success")%string in
      let durationList := List.map Duration (Words jo') in
      {| heap := heap st ++ Words jo';
         scoreNumber := scoreNumber st;
         allWords := allWords st ++ (if isSucceeded then nBestWords else []);
         currentText := currentText st ++ localtext;
         startOffset := Offset w0;
         recognizedWords := recognizedWords st ++ nBestWords;
         fluencyScores := fluencyScores st ++ [FluencyScore jo'];
         prosodyScores := prosodyScores st ++ [ProsodyScore jo'];
         durations := durations st ++ [Number.sum durationList];
         jo := Some jo'; recoginzedError := recoginzedError' |}
  end.

(** The state after a sequence of [recognized] events, in arrival order. *)
Definition run (events : list RecognitionEvent) : State :=
  fold_left recognized events initialState.

(** The word objects behind a list of addresses. *)
Definition deref (h : list WordObj) (addrs : list nat) : list WordObj :=
  omap (fun a => h !! a) addrs.

(* ===================================================================== *)
(** ** Text normalisation *)
(* ===================================================================== *)

(** [resTextArray]: the recognised text, joined, lowercased, stripped and
    split on single spaces.  Nothing is dropped or trimmed: index [j] of this
    array is also used as an index into [allWords]. *)
Definition resTextArray (currentText : list string) : list string :=
  let resText := Str.join currentText in
  let resTextProcessed := Str.stripPunctuation (Str.toLocaleLowerCase resText) in
  Str.split resTextProcessed.

(** [wholelyricsArry]: the reference text lowercased, stripped and split. *)
Definition wholelyricsArry (referenceText : string) : list string :=
  let wholelyrics := Str.stripPunctuation (Str.toLocaleLowerCase referenceText) in
  Str.split wholelyrics.

(** [wholelyricsArryRes]: the empty pieces are dropped first, then each
    remaining piece is trimmed. *)
Definition wholelyricsArryRes (referenceText : string) : list string :=
  List.map Str.trim
    (List.filter (fun item => negb (Str.isEmpty item)) (wholelyricsArry referenceText)).

(* ===================================================================== *)
(** ** Alignment blocks and the reconciled word list *)
(* ===================================================================== *)

Inductive Tag : Type := equal | replace | delete | insert.

(** An opcode [d] of [getOpcodes]: [d[0]] the tag, [d[1], d[2]] the range in
    the reference, [d[3], d[4]] the range in the recognised text. *)
Record Opcode : Type := mkOpcode {
  d0 : Tag;
  d1 : nat;
  d2 : nat;
  d3 : nat;
  d4 : nat
}.

Definition isInsertOrReplace (t : Tag) : bool :=
  match t with insert | replace => true | _ => false end.

Definition isDeleteOrReplace (t : Tag) : bool :=
  match t with delete | replace => true | _ => false end.

Definition isEqual (t : Tag) : bool :=
  match t with equal => true | _ => false end.

(** An element of [lastWords]: [undefined], a word object of the heap, or a
    fresh placeholder [{ Word, PronunciationAssessment: { ErrorType:
    Omission } }] whose [Word] is [wholelyricsArryRes[i]] ([undefined] out of
    range). *)
Inductive LastWord : Type :=
| Undefined
| Ref (a : nat)
| Placeholder (w : option string).

(** [allWords[j]] as pushed to [lastWords]. *)
Definition wordAt (allWords : list nat) (j : nat) : LastWord :=
  match allWords !! j with
  | Some a => Ref a
  | None => Undefined
  end.

(** The indices [lo, lo+1, .., hi-1] of a [for] loop. *)
Definition range (lo hi : nat) : list nat := seq lo (hi - lo).

(** A loop whose body may throw. *)
Fixpoint forEach {A S : Type} (body : S -> A -> option S) (l : list A) (s : S)
  : option S :=
  match l with
  | [] => Some s
  | x :: r => match body s x with
              | Some s' => forEach body r s'
              | None => None
              end
  end.

Section Classifier.

Variable reference : list string.   (* wholelyricsArryRes *)
Variable allWords_ : list nat.      (* allWords *)
Variable terminal : bool.           (* the RecognitionStatus test *)

(** The body of the loop over [j] of an [insert] or [replace] block.  With
    a non-empty [allWords], reading [allWords[j].PronunciationAssessment]
    throws when [allWords[j]] is [undefined]. *)
Definition markInsertion (s : list WordObj * list LastWord) (j : nat)
  : option (list WordObj * list LastWord) :=
  let '(h, lastWords) := s in
  if 0 <? length allWords_ then
    match allWords_ !! j with
    | None => None
    | Some a =>
        match h !! a with
        | None => None
        | Some w =>
            let h' :=
              if negb (ErrorType w =? "Insertion")%string
              then <[a := setErrorType "Insertion" w]> h else h in
            Some (h', lastWords ++ [Ref a])
        end
    end
  else Some (h, lastWords ++ [wordAt allWords_ j]).

(** The placeholder pushed for index [i] of the reference. *)
Definition omission (i : nat) : LastWord := Placeholder (reference !! i).

(** The test before [continue]. *)
Definition skipsOmissions (d : Opcode) : bool :=
  (d2 d =? length reference) && negb terminal.

(** One iteration of the loop over the opcodes. *)
Definition classifyBlock (s : list WordObj * list LastWord) (d : Opcode)
  : option (list WordObj * list LastWord) :=
  match
    (if isInsertOrReplace (d0 d)
     then forEach markInsertion (range (d3 d) (d4 d)) s
     else Some s)
  with
  | None => None
  | Some s1 =>
      if isDeleteOrReplace (d0 d) && skipsOmissions d then Some s1
      else
        let s2 :=
          if isDeleteOrReplace (d0 d)
          then (fst s1, snd s1 ++ List.map omission (range (d1 d) (d2 d)))
          else s1 in
        let s3 :=
          if isEqual (d0 d)
          then (fst s2, snd s2 ++ List.map (wordAt allWords_) (range (d3 d) (d4 d)))
          else s2 in
        Some s3
  end.

(** The whole loop, from an empty [lastWords]. *)
Definition classify (ops : list Opcode) (h : list WordObj)
  : option (list WordObj * list LastWord) :=
  forEach classifyBlock ops (h, []).

End Classifier.

(* ===================================================================== *)
(** ** The scores *)
(* ===================================================================== *)

(** The contribution of an element of [lastWords] to [accuracyScores]:
    nothing for [undefined] and for a word tagged [Insertion], [0] for a
    placeholder (it has no [AccuracyScore]). *)
Definition accuracyOf (h : list WordObj) (w : LastWord) : option number :=
  match w with
  | Undefined => None
  | Placeholder _ => Some (Num 0)
  | Ref a =>
      match h !! a with
      | Some o => if negb (ErrorType o =? "Insertion")%string
                  then Some (AccuracyScore o) else None
      | None => None
      end
  end.

Definition accuracyScoresOf (h : list WordObj) (lastWords : list LastWord)
  : list number :=
  omap (accuracyOf h) lastWords.

(** [recognizedWordsRes]: the recognised words whose tag is [None]. *)
Definition recognizedWordsRes (h : list WordObj) (recognizedWords : list nat)
  : list WordObj :=
  List.filter (fun word => (ErrorType word =? "None")%string)
              (deref h recognizedWords).

Definition ofNat (n : nat) : number := Num (inject_Z (Z.of_nat n)).

(** The completeness score in exact arithmetic; [computeCompScore64] is
    the computation in doubles. *)
Definition computeCompScore (nNone nReference : nat) : number :=
  let compScore :=
    Number.toFixed0 ((ofNat nNone / ofNat nReference) * Num 100)%js in
  if Number.gt compScore (Num 100) then Num 100 else compScore.

(** [sumRes]: [x * durations[index]] for each fluency score; a missing
    duration is [undefined] and the product [NaN]. *)
Definition sumRes (fluencyScores durations : list number) : list number :=
  imap (fun index x =>
          match durations !! index with
          | Some d => (x * d)%js
          | None => NaN
          end) fluencyScores.

(** [Array.prototype.sort] with a comparator, as a stable insertion sort:
    an element goes after every earlier element that does not compare
    greater.  A comparator result of [NaN] counts as [0]. *)
Fixpoint insertBy {A : Type} (cmp : A -> A -> number) (x : A) (l : list A)
  : list A :=
  match l with
  | [] => [x]
  | y :: r => if Number.gt (cmp y x) (Num 0) then x :: l
              else y :: insertBy cmp x r
  end.

Definition sortBy {A : Type} (cmp : A -> A -> number) (l : list A) : list A :=
  fold_left (fun acc x => insertBy cmp x acc) l [].

(** [scoreNumber[sortScore[i]]]; a missing key reads [undefined], which the
    arithmetic turns into [NaN]. *)
Definition scoreAt (s : ScoreNumber) (sortScore : list ScoreKey) (i : nat)
  : number :=
  match sortScore !! i with
  | Some k => getScore s k
  | None => NaN
  end.

(** The overall score in exact arithmetic, the weights being the
    rationals 4/10, 2/10 and 6/10; [computePronScore64] is the computation
    in doubles. *)
Definition computePronScore (terminal : bool) (s : ScoreNumber) : number :=
  let sortScore :=
    sortBy (fun a b => (getScore s a - getScore s b)%js) scoreKeys in
  if terminal then
    Number.toFixed0
      (scoreAt s sortScore 0 * Num (4 # 10)
       + scoreAt s sortScore 1 * Num (2 # 10)
       + scoreAt s sortScore 2 * Num (2 # 10)
       + scoreAt s sortScore 3 * Num (2 # 10))%js
  else
    Number.toFixed0
      (accuracyScore s * Num (6 # 10)
       + fluencyScore s * Num (2 # 10)
       + prosodyScore s * Num (2 # 10))%js.

(* ===================================================================== *)
(** ** Finalisation and the HTTP response *)
(* ===================================================================== *)

(** The [Scores] object of the resolved value. *)
Record Scores : Type := mkScores {
  AccuracyScore_ : number;
  CompletenessScore : number;
  FluencyScore_ : number;
  PronScore : number;
  ProsodyScore_ : number
}.

(** The value that [sessionStopped] resolves the promise with. *)
Record Assessment : Type := mkAssessment {
  scores : Scores;
  Words_ : list WordObj;
  Error : option ResultReason
}.

(** What the awaited promise holds: the SDK's result of [recognizeOnceAsync]
    (of which the handler reads [reason]) or the continuous path's object. *)
Inductive PromiseValue : Type :=
| RecognitionResult (r : ResultReason)
| ContinuousResult (a : Assessment).

Inductive Settled : Type :=
| Resolved (v : PromiseValue)
| Rejected
| NeverSettled.

(** An answer of the handler: the HTTP status, and of the JSON body the
    [code] and [data] fields.  The body of the 400 answer is an error
    message alone: it has no [code] field. *)
Record Response : Type := mkResponse {
  status : nat;
  code : option nat;
  data : option PromiseValue
}.

(** [isShortAudio], from [Number(rawAudioDuration)]. *)
Definition isShortAudio (rawAudioDuration : number) : bool :=
  let audioDuration := Number.orZero rawAudioDuration in
  Number.le audioDuration (Num 30).

Section Service.

(** [new difflib.SequenceMatcher(null, a, b).getOpcodes()]. *)
Variable getOpcodes : list string -> list string -> list Opcode.

Definition calculateOverallPronunciationScore
  (referenceText : string) (st : State) : option (State * number) :=
  let reference := wholelyricsArryRes referenceText in
  let terminal := statusIsTerminal (jo st) in
  let diff := getOpcodes reference (resTextArray (currentText st)) in
  match classify reference (allWords st) terminal diff (heap st) with
  | None => None
  | Some (h, lastWords) =>
      let reference_words := reference in
      let compScore :=
        computeCompScore
          (length (recognizedWordsRes h (recognizedWords st)))
          (length reference_words) in
      let accuracyScores := accuracyScoresOf h lastWords in
      let accuracy :=
        Number.toFixed0
          (Number.sum accuracyScores / ofNat (length accuracyScores))%js in
      let fluency :=
        if Number.truthy (startOffset st)
        then (Number.sum (sumRes (fluencyScores st) (durations st))
              / Number.sum (durations st))%js
        else fluencyScore (scoreNumber st) in
      let prosody :=
        (Number.sum (prosodyScores st)
         / ofNat (length (prosodyScores st)))%js in
      let sn :=
        {| accuracyScore := accuracy; fluencyScore := fluency;
           compScore := compScore; prosodyScore := prosody |} in
      Some ({| heap := h; scoreNumber := sn;
               allWords := allWords st; currentText := currentText st;
               startOffset := startOffset st;
               recognizedWords := recognizedWords st;
               fluencyScores := fluencyScores st;
               prosodyScores := prosodyScores st;
               durations := durations st;
               jo := jo st; recoginzedError := recoginzedError st |},
            computePronScore terminal sn)
  end.

(** The [sessionStopped] callback.  When the computation throws, [resolve]
    is never reached. *)
Definition sessionStopped (referenceText : string) (st : State) : Settled :=
  match calculateOverallPronunciationScore referenceText st with
  | None => NeverSettled
  | Some (st', pronScore) =>
      Resolved (ContinuousResult
        {| scores :=
             {| AccuracyScore_ := accuracyScore (scoreNumber st');
                CompletenessScore := compScore (scoreNumber st');
                FluencyScore_ := fluencyScore (scoreNumber st');
                PronScore := pronScore;
                ProsodyScore_ := prosodyScore (scoreNumber st') |};
           Words_ := deref (heap st') (allWords st');
           Error := recoginzedError st' |})
  end.

(** A whole continuous session that ends with a normal stop. *)
Definition continueRecognize
  (referenceText : string) (events : list RecognitionEvent) : Settled :=
  sessionStopped referenceText (run events).

End Service.

(** The response of the handler once the promise is settled; a rejection is
    caught and answered with 500, and a promise that never settles is never
    answered. *)
Definition respond (rawAudioDuration : number) (p : Settled) : option Response :=
  match p with
  | NeverSettled => None
  | Rejected => Some {| status := 500; code := Some 500; data := None |}
  | Resolved result =>
      if isShortAudio rawAudioDuration then
        match result with
        | RecognitionResult RecognizedSpeech =>
            Some {| status := 200; code := Some 200; data := Some result |}
        | _ => Some {| status := 500; code := Some 500; data := None |}
        end
      else
        match result with
        | ContinuousResult a =>
            if 1 <? length (Words_ a)
            then Some {| status := 200; code := Some 200; data := Some result |}
            else Some {| status := 500; code := Some 500; data := None |}
        | RecognitionResult _ =>
            Some {| status := 500; code := Some 500; data := None |}
        end
  end.

(** The handler: a missing or empty [X-Reference-Text] header is answered
    with status 400 and a body that holds an error message only; otherwise the promise comes from [recognizeOnceAsync] (the
    engine, a parameter here) for short audio and from [continueRecognize]
    for the rest. *)
Definition pronunciationAssessment
  (getOpcodes : list string -> list string -> list Opcode)
  (recognizeOnceAsync : Settled)
  (referenceText : string) (rawAudioDuration : number)
  (events : list RecognitionEvent) : option Response :=
  if Str.isEmpty referenceText
  then Some {| status := 400; code := None; data := None |}
  else
    let recognitionPromise :=
      if isShortAudio rawAudioDuration then recognizeOnceAsync
      else continueRecognize getOpcodes referenceText events in
    respond rawAudioDuration recognitionPromise.

(* ===================================================================== *)
(** ** What a block contributes, in the words of the specification *)
(* ===================================================================== *)

(** The words that one alignment block appends to the reconciled list, as
    the specification lists them: the recognised words of an [insert] or
    [replace] block, then an omission placeholder for each reference token of
    a [delete] or [replace] block unless the block ends the reference while
    the status is not terminal, and the recognised words of an [equal]
    block.  It is compared with the loop of the code in the properties. *)
Definition blockWords
  (reference : list string) (allWords_ : list nat) (terminal : bool)
  (d : Opcode) : list LastWord :=
  (if isInsertOrReplace (d0 d)
   then List.map (wordAt allWords_) (range (d3 d) (d4 d)) else [])
  ++ (if isDeleteOrReplace (d0 d)
      then if (d2 d =? length reference) && negb terminal then []
           else List.map (fun i => Placeholder (reference !! i))
                         (range (d1 d) (d2 d))
      else [])
  ++ (if isEqual (d0 d)
      then List.map (wordAt allWords_) (range (d3 d) (d4 d)) else []).

(** [h'] is [h] with the tag of some words overwritten by [Insertion]. *)
Definition retagged (h h' : list WordObj) : Prop :=
  length h = length h'
  /\ forall a w, h !! a = Some w ->
       exists w', h' !! a = Some w'
                  /\ (w' = w \/ w' = setErrorType "Insertion" w).


(* ===================================================================== *)
(** ** The scores in the words of the specification *)
(* ===================================================================== *)

(** A number stands for a rational. *)
Definition represents (x : number) (q : Q) : Prop :=
  exists p, x = Num p /\ (p == q)%Q.

Definition toQ (x : number) : Q :=
  match x with Num q => q | _ => 0%Q end.







(** The events whose callback ran to its end: those with at least one
    word. *)
Definition accumulated (events : list RecognitionEvent) : list RecognitionEvent :=
  List.filter (fun e => match Words (json e) with [] => false | _ => true end)
              events.

(** [durations] receives, for such an event, [_.sum(durationList)]. *)
Definition durationOf (e : RecognitionEvent) : number :=
  Number.sum (List.map Duration (Words (json e))).

(** C8 as the specification states it, for one reference text and one
    recognised text: neither output has an empty token, and every token is
    its own trimmed form. *)
Definition cleanToken (t : string) : Prop :=
  t <> EmptyString /\ Str.trim t = t.

Definition normaliser_as_stated
  (referenceText : string) (currentText : list string) : Prop :=
  Forall cleanToken (wholelyricsArryRes referenceText)
  /\ Forall cleanToken (resTextArray currentText).

(** A score of the engine: finite and between 0 and 100. *)
Definition inUnit (x : number) : bool :=
  match x with
  | Num q => Qle_bool 0 q && Qle_bool q 100
  | _ => false
  end.




(** A number between 0 and 100. *)
Definition scoreInRange (x : number) : Prop :=
  exists q, x = Num q /\ (0 <= q <= 100)%Q.



(** C9 as the specification states it, for one session: the accumulated
    sequence of recognised words, [allWords], is the concatenation of the
    word lists of all the segments received, whatever their status. *)
Definition accumulation_as_stated (events : list RecognitionEvent) : Prop :=
  deref (heap (run events)) (allWords (run events))
  = concat (List.map (fun e => Words (json e)) events).

(** Every word ever allocated is in [recognizedWords], in allocation order. *)
Definition allocatedInOrder (st : State) : Prop :=
  recognizedWords st = seq 0 (length (heap st)).

(* ===================================================================== *)
(** ** The whole session: cancellation and the promise *)
(* ===================================================================== *)

(** What the recogniser fires before the session stops: a [recognized]
    event, or a [canceled] event whose reason is [Error] or not. *)
Inductive SdkEvent : Type :=
| Recognized (e : RecognitionEvent)
| CanceledEvent (isError : bool).

(** A promise settles once: [resolve] and [reject] do nothing on a promise
    that is already settled, and a computation that threw settles nothing. *)
Definition settle (p v : Settled) : Settled :=
  match p with
  | NeverSettled => v
  | _ => p
  end.

(** The closure of [continueRecognize] together with the promise of the
    handler. *)
Record Session : Type := mkSession {
  vars : State;
  promise : Settled
}.

(** The [canceled] callback: [reject] when the reason is [Error]. *)
Definition canceled (s : Session) (isError : bool) : Session :=
  if isError
  then {| vars := vars s; promise := settle (promise s) Rejected |}
  else s.

Definition onEvent (s : Session) (ev : SdkEvent) : Session :=
  match ev with
  | Recognized e => {| vars := recognized (vars s) e; promise := promise s |}
  | CanceledEvent isError => canceled s isError
  end.

(** The [recognized] events of a session, in order. *)
Definition recognizedEvents (evs : list SdkEvent) : list RecognitionEvent :=
  omap (fun ev => match ev with
                  | Recognized e => Some e
                  | CanceledEvent _ => None
                  end) evs.

Definition isErrorCancel (ev : SdkEvent) : bool :=
  match ev with
  | CanceledEvent true => true
  | _ => false
  end.

(** A session: the events in arrival order, then [sessionStopped] once. *)
Definition session
  (getOpcodes : list string -> list string -> list Opcode)
  (referenceText : string) (evs : list SdkEvent) : Settled :=
  let s := fold_left onEvent evs
             {| vars := initialState; promise := NeverSettled |} in
  settle (promise s) (sessionStopped getOpcodes referenceText (vars s)).

(* ===================================================================== *)
(** ** Predicates on strings and on the classifier's input *)
(* ===================================================================== *)

(** Every character of a string passes a test. *)
Fixpoint allChars (p : ascii -> bool) (s : string) : bool :=
  match s with
  | EmptyString => true
  | String c r => p c && allChars p r
  end.

(** A character that the normaliser leaves in place and in one piece: not
    in the punctuation class, not a closing bracket, not a capital letter. *)
Definition isPlain (c : ascii) : bool :=
  negb (Str.inPunctuationClass c) && negb (Str.isCloseBracket c)
  && (Str.code (Str.lowerChar c) =? Str.code c).

(** A character that the normaliser deletes or splits on. *)
Definition isDropped (c : ascii) : bool :=
  Str.inPunctuationClass c || Str.isCloseBracket c || Str.isSpace c.

(** The recognised-text range of every [insert] or [replace] block lies
    inside an array of [n] words. *)
Definition insertionsInRange (n : nat) (ops : list Opcode) : bool :=
  forallb (fun d => negb (isInsertOrReplace (d0 d)) || (d4 d <=? n)
                    || (d4 d <=? d3 d)) ops.

(** Every address is an address of the heap. *)
Definition validAddresses (h : list WordObj) (addrs : list nat) : Prop :=
  Forall (fun a => a < length h) addrs.

(** The reason of an event is not [RecognizedSpeech]. *)
Definition isNotRecognizedSpeech (e : RecognitionEvent) : bool :=
  negb (ResultReason_eqb (reason e) RecognizedSpeech).

(** The words of the events whose [RecognitionStatus] is [Success]. *)
Definition successWords (events : list RecognitionEvent) : list WordObj :=
  concat (List.map
            (fun e => if (RecognitionStatus (json e) =? "Success")%string
                      then Words (json e) else []) events).

(** All the words of the events. *)
Definition allEventWords (events : list RecognitionEvent) : list WordObj :=
  concat (List.map (fun e => Words (json e)) events).

(** [st] with [jo] and [recoginzedError] replaced. *)
Definition withStatus (st : State) (j : option Json)
  (err : option ResultReason) : State :=
  {| heap := heap st; scoreNumber := scoreNumber st;
     allWords := allWords st; currentText := currentText st;
     startOffset := startOffset st;
     recognizedWords := recognizedWords st;
     fluencyScores := fluencyScores st;
     prosodyScores := prosodyScores st;
     durations := durations st;
     jo := j; recoginzedError := err |}.

(** Lowercasing and stripping, as the normaliser chains them. *)
Definition clean (s : string) : string :=
  Str.stripPunctuation (Str.toLocaleLowerCase s).

(** A proof about every character, by cases on its eight bits. *)
Ltac each_ascii c :=
  destruct c as [[|] [|] [|] [|] [|] [|] [|] [|]]; reflexivity.

(** A word and what the classifier may leave in its place: the same word,
    or the same word tagged [Insertion]. *)
Definition sameOrRetagged (w' w : WordObj) : Prop :=
  w' = w \/ w' = setErrorType "Insertion" w.

Definition isSuccess (e : RecognitionEvent) : bool :=
  (RecognitionStatus (json e) =? "Success")%string.
(* ===================================================================== *)
(** ** Double precision *)
(* ===================================================================== *)

(** The arithmetic of the code is that of IEEE-754 binary64 numbers: every
    [+], [-], [*] and [/] yields the double nearest to the exact result, a
    tie going to the double whose significand is even.  [Double.round] is
    that rounding on the rationals: 53 significant bits, the exponent of
    the last bit never below -1074 (gradual underflow), and an infinity
    from 2^1024 on.  The finite values of [number] that the operations of
    this module return are doubles; their arguments are meant to be. *)
Module Double.

Definition pow2 (e : Z) : Q := Qpower 2 e.

(** The integer nearest to a rational that is not negative, a tie going to
    the even one. *)
Definition roundHalfEven (q : Q) : Z :=
  let f := Qfloor q in
  match (q - inject_Z f ?= 1 # 2)%Q with
  | Lt => f
  | Gt => (f + 1)%Z
  | Eq => if Z.even f then f else (f + 1)%Z
  end.

(** The exponent [b] with [2^b <= q < 2^(b+1)], for a positive [q]. *)
Definition binade (q : Q) : Z :=
  let guess := (Z.log2 (Qnum q) - Z.log2 (Zpos (Qden q)))%Z in
  if Qle_bool (pow2 guess) q then guess else (guess - 1)%Z.

(** The weight of the last bit of the doubles around a positive [q]. *)
Definition ulp (q : Q) : Q := pow2 (Z.max (binade q - 52) (-1074)).

Definition roundPos (q : Q) : number :=
  let r := (inject_Z (roundHalfEven (q / ulp q)) * ulp q)%Q in
  if Qle_bool (pow2 1024) r then PosInfinity else Num (Qred r).

Definition round (q : Q) : number :=
  match (q ?= 0)%Q with
  | Eq => Num 0
  | Gt => roundPos q
  | Lt => Number.neg (roundPos (- q))
  end.

(** The result of an operation: its exact value, rounded. *)
Definition rounded (x : number) : number :=
  match x with
  | Num q => round q
  | _ => x
  end.

(** A decimal literal of the source text denotes the nearest double. *)
Definition literal (q : Q) : number := round q.

Definition add (x y : number) : number := rounded (Number.add x y).
Definition sub (x y : number) : number := rounded (Number.sub x y).
Definition mul (x y : number) : number := rounded (Number.mul x y).
Definition div (x y : number) : number := rounded (Number.div x y).

(** lodash [_.sum] in doubles. *)
Definition sum (l : list number) : number :=
  match l with
  | [] => Num 0
  | x :: r => fold_left add r x
  end.

End Double.

Declare Scope double_scope.
Delimit Scope double_scope with dbl.
Infix "+" := Double.add : double_scope.
Infix "-" := Double.sub : double_scope.
Infix "*" := Double.mul : double_scope.
Infix "/" := Double.div : double_scope.

(** The scores of [calculateOverallPronunciationScore] with the arithmetic
    of doubles.  An array length is an integer below 2^32 and [100] is an
    integer: both are doubles as they stand.  [toFixed] reads the exact
    value of the double. *)
Definition computeCompScore64 (nNone nReference : nat) : number :=
  let compScore :=
    Number.toFixed0 ((ofNat nNone / ofNat nReference) * Num 100)%dbl in
  if Number.gt compScore (Num 100) then Num 100 else compScore.

Definition sumRes64 (fluencyScores durations : list number) : list number :=
  imap (fun index x =>
          match durations !! index with
          | Some d => (x * d)%dbl
          | None => NaN
          end) fluencyScores.

Definition computePronScore64 (terminal : bool) (s : ScoreNumber) : number :=
  let sortScore :=
    sortBy (fun a b => (getScore s a - getScore s b)%dbl) scoreKeys in
  if terminal then
    Number.toFixed0
      (scoreAt s sortScore 0 * Double.literal (4 # 10)
       + scoreAt s sortScore 1 * Double.literal (2 # 10)
       + scoreAt s sortScore 2 * Double.literal (2 # 10)
       + scoreAt s sortScore 3 * Double.literal (2 # 10))%dbl
  else
    Number.toFixed0
      (accuracyScore s * Double.literal (6 # 10)
       + fluencyScore s * Double.literal (2 # 10)
       + prosodyScore s * Double.literal (2 # 10))%dbl.

Section Service64.

Variable getOpcodes : list string -> list string -> list Opcode.

(** [calculateOverallPronunciationScore] with the arithmetic of doubles:
    the classification is that of the exact reading, the five scores are
    computed operation by operation as the code writes them. *)
Definition calculateOverallPronunciationScore64
  (referenceText : string) (st : State) : option (State * number) :=
  let reference := wholelyricsArryRes referenceText in
  let terminal := statusIsTerminal (jo st) in
  let diff := getOpcodes reference (resTextArray (currentText st)) in
  match classify reference (allWords st) terminal diff (heap st) with
  | None => None
  | Some (h, lastWords) =>
      let reference_words := reference in
      let compScore :=
        computeCompScore64
          (length (recognizedWordsRes h (recognizedWords st)))
          (length reference_words) in
      let accuracyScores := accuracyScoresOf h lastWords in
      let accuracy :=
        Number.toFixed0
          (Double.sum accuracyScores / ofNat (length accuracyScores))%dbl in
      let fluency :=
        if Number.truthy (startOffset st)
        then (Double.sum (sumRes64 (fluencyScores st) (durations st))
              / Double.sum (durations st))%dbl
        else fluencyScore (scoreNumber st) in
      let prosody :=
        (Double.sum (prosodyScores st)
         / ofNat (length (prosodyScores st)))%dbl in
      let sn :=
        {| accuracyScore := accuracy; fluencyScore := fluency;
           compScore := compScore; prosodyScore := prosody |} in
      Some ({| heap := h; scoreNumber := sn;
               allWords := allWords st; currentText := currentText st;
               startOffset := startOffset st;
               recognizedWords := recognizedWords st;
               fluencyScores := fluencyScores st;
               prosodyScores := prosodyScores st;
               durations := durations st;
               jo := jo st; recoginzedError := recoginzedError st |},
            computePronScore64 terminal sn)
  end.

End Service64.

(** The relative error of one rounding, 2^-53, and the absolute error of a
    rounding in the subnormal range, 2^-1075. *)
Definition unitRoundoff : Q := 1 # 9007199254740992.
Definition eta : Q := Double.pow2 (-1075).

(** A number that is a double, as a test: rounding leaves it alone. *)
Definition isDouble (x : number) : bool :=
  match x with
  | Num q =>
      match Double.round q with
      | Num r => Qeq_bool r q
      | _ => false
      end
  | _ => true
  end.

(** The four scores are doubles between 0 and 100. *)
Definition doubleScores (s : ScoreNumber) : bool :=
  forallb (fun k => inUnit (getScore s k) && isDouble (getScore s k)) scoreKeys.

(** The distance, 2^-43, within which the double-precision value of the
    weighted sum of four such scores stays of its exact value. *)
Definition weightingError : Q := 1 # 8796093022208.

(** C4 as the specification states it, for one session: with a reference
    of at least one token the completeness score is 100 times the number of
    recognised words tagged [None] over the number of reference tokens,
    rounded to the nearest integer, and 100 at most. *)
Definition completeness_as_stated
  (getOpcodes : list string -> list string -> list Opcode)
  (referenceText : string) (events : list RecognitionEvent) : Prop :=
  forall st' pronScore,
    calculateOverallPronunciationScore64 getOpcodes referenceText (run events)
    = Some (st', pronScore) ->
    length (wholelyricsArryRes referenceText) <> 0 ->
    compScore (scoreNumber st')
    = Num (inject_Z
             (Z.min 100
                (Number.roundHalfAway
                   (100
                    * inject_Z (Z.of_nat
                        (length (recognizedWordsRes (heap st')
                                   (recognizedWords st'))))
                    / inject_Z (Z.of_nat
                        (length (wholelyricsArryRes referenceText))))))).

(** Rationals in ascending order. *)
Fixpoint insertQ (x : Q) (l : list Q) : list Q :=
  match l with
  | [] => [x]
  | y :: r => if Qle_bool x y then x :: l else y :: insertQ x r
  end.

Definition ascending (l : list Q) : list Q := fold_right insertQ [] l.

(** C1 as the specification states it, for one session: the overall score
    is the rounding of 0.4 times the lowest of the four scores plus 0.2
    times each of the other three when the status is [Success] or
    [Failed], and the rounding of 0.6 accuracy + 0.2 fluency + 0.2 prosody
    otherwise. *)
Definition weighting_as_stated
  (getOpcodes : list string -> list string -> list Opcode)
  (referenceText : string) (events : list RecognitionEvent) : Prop :=
  forall st' pronScore,
    calculateOverallPronunciationScore64 getOpcodes referenceText (run events)
    = Some (st', pronScore) ->
    let s := scoreNumber st' in
    if statusIsTerminal (jo (run events)) then
      match ascending (List.map (fun k => toQ (getScore s k)) scoreKeys) with
      | [lowest; second; third; highest] =>
          pronScore
          = Num (inject_Z
                   (Number.roundHalfAway
                      ((4 # 10) * lowest + (2 # 10) * second
                       + (2 # 10) * third + (2 # 10) * highest)))
      | _ => False
      end
    else
      pronScore
      = Num (inject_Z
               (Number.roundHalfAway
                  ((6 # 10) * toQ (accuracyScore s)
                   + (2 # 10) * toQ (fluencyScore s)
                   + (2 # 10) * toQ (prosodyScore s)))).


(** The binary64 numbers of the kernel, against which [Double.round] is
    checked on the computations of the scores. *)
Module Binary64.

Import PrimFloat.

Local Set Warnings "-inexact-float".

(** The value of a float. *)
Definition value (f : float) : number :=
  match FloatOps.Prim2SF f with
  | SpecFloat.S754_zero _ => Num 0
  | SpecFloat.S754_infinity false => PosInfinity
  | SpecFloat.S754_infinity true => NegInfinity
  | SpecFloat.S754_nan => NaN
  | SpecFloat.S754_finite s m e =>
      Num (Qred ((if s then -1 else 1) * inject_Z (Z.pos m) * Double.pow2 e))
  end.

Definition ofZ (z : Z) : float := of_uint63 (Uint63.of_Z z).

(** [(n / len) * 100]. *)
Definition ratioTimes100 (n len : nat) : float :=
  (ofZ (Z.of_nat n) / ofZ (Z.of_nat len) * 100)%float.

(** A score given in halves. *)
Definition halves (h : Z) : float := (ofZ h / 2)%float.

(** [a * 0.4 + b * 0.2 + c * 0.2 + d * 0.2] and
    [a * 0.6 + b * 0.2 + c * 0.2]. *)
Definition weighted4 (a b c d : float) : float :=
  (a * 0.4 + b * 0.2 + c * 0.2 + d * 0.2)%float.
Definition weighted3 (a b c : float) : float :=
  (a * 0.6 + b * 0.2 + c * 0.2)%float.

(** The smallest positive double, its half, which rounds to zero, one and
    a half times it, which rounds to twice it, and the largest double plus
    half the weight of its last bit, which rounds to infinity. *)
Definition smallest : float := 0x1p-1074%float.
Definition halfSmallest : float := (0x1p-1074 / 2)%float.
Definition aboveSmallest : float := (0x1p-1074 * 1.5)%float.
Definition overflow : float := (0x1.fffffffffffffp1023 + 0x1p970)%float.

End Binary64.

Definition sameNumber (x y : number) : bool :=
  match x, y with
  | Num a, Num b => Qeq_bool a b
  | PosInfinity, PosInfinity | NegInfinity, NegInfinity | NaN, NaN => true
  | _, _ => false
  end.

(** The pairs [(n, len)] with [n <= len] and [1 <= len <= 64]. *)
Definition ratios : list (nat * nat) :=
  concat (List.map (fun len => List.map (fun n => (n, len)) (seq 0 (S len)))
            (seq 1 64)).

(** Scores in halves, among which the ones of the sessions above. *)
Definition sampleScores : list Z := [0; 1; 114; 130; 133; 134; 150; 200]%Z.

Definition quadruples : list (Z * Z * Z * Z) :=
  concat (List.map (fun a =>
    concat (List.map (fun b =>
      concat (List.map (fun c =>
        List.map (fun d => (a, b, c, d)) sampleScores) sampleScores))
      sampleScores)) sampleScores).

Definition half (h : Z) : number := Num (Qred (inject_Z h / 2)).

(* ===================================================================== *)
(** ** Concrete sessions *)
(* ===================================================================== *)

Module Scenario.

Definition int (z : Z) : number := Num (inject_Z z).

(** A word as the engine sends it: tagged [None]. *)
Definition word (text : string) (offset duration accuracy : Z) : WordObj :=
  {| Word := text; Offset := int offset; Duration := int duration;
     AccuracyScore := int accuracy; ErrorType := "None" |}.

Definition segment (status : string) (ws : list WordObj) (fluency prosody : Z)
  : RecognitionEvent :=
  {| reason := RecognizedSpeech;
     json := {| RecognitionStatus := status; Words := ws;
                FluencyScore := int fluency; ProsodyScore := int prosody |} |}.

(** A matcher that answers with a fixed list of opcodes.  Each list below is
    what [SequenceMatcher.getOpcodes] answers for the reference tokens and
    the recognised tokens of the session it goes with. *)
Definition opcodes (l : list Opcode)
  : list string -> list string -> list Opcode := fun _ _ => l.

(** The reference is spoken in full. *)
Definition eventsA : list RecognitionEvent :=
  [segment "Success"
     [word "The" 5 10 100; word "quick" 15 10 100;
      word "brown" 25 10 100; word "fox" 35 10 100] 100 100].
Definition opcodesA : list Opcode := [mkOpcode equal 0 4 0 4].

(** The second word of the reference is left out. *)
Definition eventsB : list RecognitionEvent :=
  [segment "Success"
     [word "The" 5 10 100; word "brown" 25 10 100; word "fox" 35 10 100]
     100 100].
Definition opcodesB : list Opcode :=
  [mkOpcode equal 0 1 0 1; mkOpcode delete 1 2 1 1; mkOpcode equal 2 4 1 3].

(** A word that the reference does not have is spoken. *)
Definition eventsC : list RecognitionEvent :=
  [segment "Success"
     [word "The" 5 10 100; word "quick" 15 10 100; word "very" 25 10 100;
      word "brown" 35 10 100; word "fox" 45 10 100] 100 100].
Definition opcodesC : list Opcode :=
  [mkOpcode equal 0 2 0 2; mkOpcode insert 2 2 2 3; mkOpcode equal 2 4 3 5].


(** One segment with a single word, recognised with full marks. *)
Definition eventsOne : list RecognitionEvent :=
  [segment "Success" [word "hello" 5 10 100] 100 100].
Definition opcodesOne : list Opcode := [mkOpcode equal 0 1 0 1].

(** A reference made of punctuation only, and two recognised words: the
    matcher sees an empty reference and inserts both words. *)
Definition eventsE : list RecognitionEvent :=
  [segment "Success" [word "hello" 5 10 90; word "world" 15 10 90] 80 70].
Definition opcodesE : list Opcode := [mkOpcode insert 0 0 0 2].

(** Two segments of one word each, with prosody 80 and 85. *)
Definition eventsP : list RecognitionEvent :=
  [segment "Success" [word "hello" 5 10 100] 100 80;
   segment "Success" [word "world" 15 10 100] 100 85].
Definition opcodesP : list Opcode := [mkOpcode equal 0 2 0 2].

(** The second word of the reference is replaced by another word. *)
Definition eventsR : list RecognitionEvent :=
  [segment "Success"
     [word "The" 5 10 100; word "very" 15 10 100;
      word "brown" 25 10 100; word "fox" 35 10 100] 100 100].
Definition opcodesR : list Opcode :=
  [mkOpcode equal 0 1 0 1; mkOpcode replace 1 2 1 2; mkOpcode equal 2 4 2 4].

(** What the finalisation computes for a session: the final state and the
    overall score. *)
Definition finalOf (l : list Opcode) (referenceText : string)
  (events : list RecognitionEvent) : State * number :=
  match calculateOverallPronunciationScore (opcodes l) referenceText (run events) with
  | Some r => r
  | None => (initialState, NaN)
  end.

Definition finalA : State * number :=
  Eval vm_compute in finalOf opcodesA "The quick brown fox" eventsA.
Definition finalB : State * number :=
  Eval vm_compute in finalOf opcodesB "The quick brown fox" eventsB.
Definition finalC : State * number :=
  Eval vm_compute in finalOf opcodesC "The quick brown fox" eventsC.
Definition finalR : State * number :=
  Eval vm_compute in finalOf opcodesR "The quick brown fox" eventsR.

(** The assessment that the one-word session resolves with. *)
Definition assessmentOne : Assessment :=
  Eval vm_compute in
    match continueRecognize (opcodes opcodesOne) "hello" eventsOne with
    | Resolved (ContinuousResult a) => a
    | _ => {| scores := mkScores NaN NaN NaN NaN NaN; Words_ := []; Error := None |}
    end.

End Scenario.

(* ===================================================================== *)
(** ** More concrete sessions *)
(* ===================================================================== *)

Module ScenarioX.

(** The answer to a long request whose session is the two segments of
    [Scenario.eventsP]. *)
Definition responseP : Response :=
  Eval vm_compute in
    match pronunciationAssessment (Scenario.opcodes Scenario.opcodesP) Rejected
            "hello world" (Num 31) Scenario.eventsP with
    | Some r => r
    | None => {| status := 0; code := None; data := None |}
    end.

(** A session in which the engine reports a cancellation with an error
    between two segments. *)
Definition sessionCanceled : list SdkEvent :=
  [Recognized (Scenario.segment "Success" [Scenario.word "hello" 5 10 100] 100 80);
   CanceledEvent true;
   Recognized (Scenario.segment "Success" [Scenario.word "world" 15 10 100] 100 85)].

(** The same session with a cancellation that is not an error (the end of
    the stream). *)
Definition sessionEndOfStream : list SdkEvent :=
  [Recognized (Scenario.segment "Success" [Scenario.word "hello" 5 10 100] 100 80);
   Recognized (Scenario.segment "Success" [Scenario.word "world" 15 10 100] 100 85);
   CanceledEvent false].

(** An event without words, such as the engine sends for silence, with a
    status and a reason of its own. *)
Definition silence : RecognitionEvent :=
  {| reason := NoMatch;
     json := {| RecognitionStatus := "InitialSilenceTimeout"; Words := [];
                FluencyScore := NaN; ProsodyScore := NaN |} |}.

Definition noAssessment : Assessment :=
  {| scores := mkScores NaN NaN NaN NaN NaN; Words_ := []; Error := None |}.

(** What the two segments of [Scenario.eventsP] followed by the silence
    resolve with. *)
Definition assessmentSilence : Assessment :=
  Eval vm_compute in
    match continueRecognize (Scenario.opcodes Scenario.opcodesP) "hello world"
            (Scenario.eventsP ++ [silence]) with
    | Resolved (ContinuousResult a) => a
    | _ => noAssessment
    end.

(** Two words recognised, the second in an event whose status is not
    [Success]. *)
Definition eventsMixed : list RecognitionEvent :=
  [Scenario.segment "Success" [Scenario.word "hello" 5 10 100] 100 80;
   Scenario.segment "Failed" [Scenario.word "world" 15 10 100] 100 85].

Definition assessmentMixed : Assessment :=
  Eval vm_compute in
    match continueRecognize (Scenario.opcodes Scenario.opcodesP) "hello world"
            eventsMixed with
    | Resolved (ContinuousResult a) => a
    | _ => noAssessment
    end.

(** What the finalisation computes for the punctuation-only reference of
    [Scenario.eventsE]. *)
Definition finalE : State * number :=
  Eval vm_compute in Scenario.finalOf Scenario.opcodesE "!" Scenario.eventsE.

(** A matcher that keeps to the two texts it is given: one block that
    replaces the whole reference by the whole recognised text. *)
Definition replaceAll (a b : list string) : list Opcode :=
  [mkOpcode replace 0 (length a) 0 (length b)].

End ScenarioX.
(* ===================================================================== *)
(** ** Concrete sessions, finalised in doubles *)
(* ===================================================================== *)

Module Scenario64.

(** What the finalisation in doubles computes for a session. *)
Definition finalOf (l : list Opcode) (referenceText : string)
  (events : list RecognitionEvent) : State * number :=
  match calculateOverallPronunciationScore64 (Scenario.opcodes l)
          referenceText (run events) with
  | Some r => r
  | None => (initialState, NaN)
  end.

Definition finalB : State * number :=
  Eval vm_compute in
    finalOf Scenario.opcodesB "The quick brown fox" Scenario.eventsB.

(** A reference of forty tokens of which the first twenty-three are
    spoken, with full marks. *)
Definition referenceH : string :=
  Eval vm_compute in Str.join (List.repeat "la" 40).
Definition eventsH : list RecognitionEvent :=
  [Scenario.segment "Success"
     (List.repeat (Scenario.word "la" 5 10 100) 23) 100 100].
Definition opcodesH : list Opcode :=
  [mkOpcode equal 0 23 0 23; mkOpcode delete 23 40 23 23].
Definition finalH : State * number :=
  Eval vm_compute in finalOf opcodesH referenceH eventsH.

(** A reference of twenty tokens of which the first thirteen are spoken:
    twelve words with accuracy 88 and one with 84, a fluency of 66.5 and a
    prosody of 67.  The accuracy is 1140 / 20, the completeness
    (13 / 20) * 100. *)
Definition referenceV : string :=
  Eval vm_compute in Str.join (List.repeat "la" 20).
Definition eventsV : list RecognitionEvent :=
  [{| reason := RecognizedSpeech;
      json := {| RecognitionStatus := "Success";
                 Words := List.repeat (Scenario.word "la" 5 10 88) 12
                          ++ [Scenario.word "la" 125 10 84];
                 FluencyScore := Num (133 # 2);
                 ProsodyScore := Num 67 |} |}].
Definition opcodesV : list Opcode :=
  [mkOpcode equal 0 13 0 13; mkOpcode delete 13 20 13 13].
Definition finalV : State * number :=
  Eval vm_compute in finalOf opcodesV referenceV eventsV.


Definition finalC : State * number :=
  Eval vm_compute in
    finalOf Scenario.opcodesC "The quick brown fox" Scenario.eventsC.

End Scenario64.

(* ===================================================================== *)
(** * Properties *)
(* ===================================================================== *)

(** ** The accumulator *)

(** Reading a block of addresses that was just allocated gives the block. *)
Lemma deref_seq_app (p h : list WordObj) :
  deref (p ++ h) (seq (length p) (length h)) = h.
Proof.
  revert p. induction h as [|w h IH]; intros p; [reflexivity|].
  cbn [length seq]. unfold deref. cbn [omap list_omap].
  rewrite list_lookup_middle by reflexivity.
  f_equal.
  specialize (IH (p ++ [w])). rewrite <- app_assoc in IH. cbn in IH.
  rewrite length_app in IH. cbn in IH. rewrite Nat.add_1_r in IH. exact IH.
Qed.

Lemma deref_seq (h : list WordObj) : deref h (seq 0 (length h)) = h.
Proof. exact (deref_seq_app [] h). Qed.

Lemma recognized_heap st e :
  heap (recognized st e) = heap st ++ Words (json e).
Proof.
  unfold recognized. destruct (Words (json e)); cbn; [|reflexivity].
  now rewrite app_nil_r.
Qed.

Lemma recognized_recognizedWords st e :
  recognizedWords (recognized st e)
  = recognizedWords st ++ seq (length (heap st)) (length (Words (json e))).
Proof.
  unfold recognized. destruct (Words (json e)); cbn; [|reflexivity].
  now rewrite app_nil_r.
Qed.

Lemma recognized_currentText st e :
  currentText (recognized st e)
  = currentText st
    ++ List.map (fun item => Str.toLowerCase (Word item)) (Words (json e)).
Proof.
  unfold recognized. destruct (Words (json e)); cbn; [|reflexivity].
  now rewrite app_nil_r.
Qed.

Lemma recognized_allWords st e :
  allWords (recognized st e)
  = allWords st
    ++ (if (RecognitionStatus (json e) =? "Success")%string
        then seq (length (heap st)) (length (Words (json e))) else []).
Proof.
  unfold recognized. destruct (Words (json e)); cbn; [|reflexivity].
  destruct (_ =? _)%string; now rewrite app_nil_r.
Qed.

Lemma recognized_allocatedInOrder st e :
  allocatedInOrder st -> allocatedInOrder (recognized st e).
Proof.
  unfold allocatedInOrder. intros H.
  rewrite recognized_recognizedWords, recognized_heap, H, length_app.
  now rewrite seq_app.
Qed.

Lemma fold_recognized_spec events : forall st,
  allocatedInOrder st ->
  let st' := fold_left recognized events st in
  allocatedInOrder st'
  /\ heap st' = heap st ++ concat (List.map (fun e => Words (json e)) events)
  /\ currentText st'
     = currentText st
       ++ List.map (fun item => Str.toLowerCase (Word item))
            (concat (List.map (fun e => Words (json e)) events)).
Proof.
  induction events as [|e events IH]; intros st Hst; cbn.
  - now rewrite !app_nil_r.
  - destruct (IH (recognized st e) (recognized_allocatedInOrder st e Hst))
      as (Ha & Hh & Ht).
    split; [exact Ha|]. split.
    + rewrite Hh, recognized_heap. now rewrite <- app_assoc.
    + rewrite Ht, recognized_currentText, List.map_app.
      now rewrite <- app_assoc.
Qed.

(** ** The error classifier *)

Lemma retagged_refl h : retagged h h.
Proof. split; [reflexivity|]. intros a w H. exists w. auto. Qed.

Lemma retagged_trans h1 h2 h3 :
  retagged h1 h2 -> retagged h2 h3 -> retagged h1 h3.
Proof.
  intros [L12 H12] [L23 H23]. split; [congruence|].
  intros a w Hw.
  destruct (H12 a w Hw) as (w2 & Hw2 & E2).
  destruct (H23 a w2 Hw2) as (w3 & Hw3 & E3).
  exists w3. split; [exact Hw3|].
  destruct E2 as [->| ->], E3 as [->| ->]; auto.
Qed.

Lemma retagged_insert h a w :
  h !! a = Some w -> retagged h (<[a := setErrorType "Insertion" w]> h).
Proof.
  intros Hw. split; [now rewrite length_insert|].
  intros b v Hv. destruct (Nat.eq_dec a b) as [->|Hne].
  - exists (setErrorType "Insertion" w). split.
    + apply list_lookup_insert_eq. now apply lookup_lt_Some in Hv.
    + right. congruence.
  - exists v. split; [|auto]. now rewrite list_lookup_insert_ne.
Qed.

(** A word tagged [Insertion] keeps the tag. *)
Lemma retagged_keeps_insertion h h' a w :
  retagged h h' -> h !! a = Some w -> ErrorType w = "Insertion" ->
  exists w', h' !! a = Some w' /\ ErrorType w' = "Insertion".
Proof.
  intros [_ H] Hw He. destruct (H a w Hw) as (w' & Hw' & [->| ->]).
  - eauto.
  - exists (setErrorType "Insertion" w). auto.
Qed.

Lemma forEach_app {A S : Type} (body : S -> A -> option S) l1 l2 s :
  forEach body (l1 ++ l2) s
  = match forEach body l1 s with
    | Some s' => forEach body l2 s'
    | None => None
    end.
Proof.
  revert s. induction l1 as [|x l1 IH]; intros s; cbn; [reflexivity|].
  destruct (body s x); [apply IH | reflexivity].
Qed.

Section ClassifierFacts.

Variable reference : list string.
Variable allWords_ : list nat.
Variable terminal : bool.

Lemma markInsertion_spec h lw j h' lw' :
  markInsertion allWords_ (h, lw) j = Some (h', lw') ->
  lw' = lw ++ [wordAt allWords_ j]
  /\ retagged h h'
  /\ forall a, allWords_ !! j = Some a ->
       exists w, h' !! a = Some w /\ ErrorType w = "Insertion".
Proof.
  unfold markInsertion, wordAt.
  destruct (0 <? length allWords_) eqn:Hne.
  - destruct (allWords_ !! j) as [a|] eqn:Ha; [|discriminate].
    destruct (h !! a) as [w|] eqn:Hw; [|discriminate].
    intros [= <- <-]. split; [reflexivity|].
    destruct (ErrorType w =? "Insertion")%string eqn:He; cbn.
    + apply String.eqb_eq in He. split; [apply retagged_refl|].
      intros b [= <-]. eauto.
    + split; [now apply retagged_insert|].
      intros b [= <-]. exists (setErrorType "Insertion" w). split; [|reflexivity].
      apply list_lookup_insert_eq. now apply lookup_lt_Some in Hw.
  - intros [= <- <-]. split; [reflexivity|]. split; [apply retagged_refl|].
    intros a Ha. apply Nat.ltb_ge in Hne.
    apply lookup_lt_Some in Ha. lia.
Qed.

Lemma markInsertion_loop js : forall h lw h' lw',
  forEach (markInsertion allWords_) js (h, lw) = Some (h', lw') ->
  lw' = lw ++ List.map (wordAt allWords_) js
  /\ retagged h h'
  /\ forall j a, In j js -> allWords_ !! j = Some a ->
       exists w, h' !! a = Some w /\ ErrorType w = "Insertion".
Proof.
  induction js as [|j js IH]; intros h lw h' lw'; cbn [forEach List.map].
  - intros [= <- <-]. rewrite app_nil_r.
    split; [reflexivity|]. split; [apply retagged_refl|]. intros ? ? [].
  - destruct (markInsertion allWords_ (h, lw) j) as [[h1 lw1]|] eqn:H1; [|discriminate].
    intros H2. apply markInsertion_spec in H1 as (-> & R1 & I1).
    apply IH in H2 as (-> & R2 & I2).
    split; [now rewrite <- app_assoc|].
    split; [eapply retagged_trans; eassumption|].
    intros i a [<-|Hin] Ha; [|eauto].
    destruct (I1 a Ha) as (w & Hw & He).
    eapply retagged_keeps_insertion; eassumption.
Qed.

Lemma classifyBlock_spec h lw d h' lw' :
  classifyBlock reference allWords_ terminal (h, lw) d = Some (h', lw') ->
  lw' = lw ++ blockWords reference allWords_ terminal d
  /\ retagged h h'
  /\ (isInsertOrReplace (d0 d) = true ->
      forall j a, d3 d <= j < d4 d -> allWords_ !! j = Some a ->
        exists w, h' !! a = Some w /\ ErrorType w = "Insertion").
Proof.
  unfold classifyBlock, blockWords, skipsOmissions, omission.
  destruct (isInsertOrReplace (d0 d)) eqn:Hins.
  - destruct (forEach _ _ _) as [[h1 lw1]|] eqn:Hloop; [|discriminate].
    apply markInsertion_loop in Hloop as (-> & R & I).
    assert (Heq : isEqual (d0 d) = false) by (destruct (d0 d); easy).
    rewrite Heq.
    assert (Hfinal : forall j a, d3 d <= j < d4 d -> allWords_ !! j = Some a ->
              exists w, h1 !! a = Some w /\ ErrorType w = "Insertion").
    { intros j a Hj Ha. apply (I j a); [|exact Ha].
      unfold range. apply in_seq. lia. }
    destruct (isDeleteOrReplace (d0 d)); cbn [andb fst snd].
    + destruct ((d2 d =? length reference) && negb terminal);
        intros [= <- <-]; rewrite ?app_nil_r, <- ?app_assoc; auto.
    + intros [= <- <-]. rewrite ?app_nil_r. auto.
  - destruct (isDeleteOrReplace (d0 d)) eqn:Hdel; cbn [andb fst snd app].
    + assert (Heq : isEqual (d0 d) = false) by (destruct (d0 d); easy).
      rewrite Heq.
      destruct ((d2 d =? length reference) && negb terminal);
        intros [= <- <-]; rewrite ?app_nil_r;
        (split; [reflexivity|]); (split; [apply retagged_refl|]); discriminate.
    + destruct (isEqual (d0 d)); intros [= <- <-]; rewrite ?app_nil_r;
        (split; [reflexivity|]); (split; [apply retagged_refl|]); discriminate.
Qed.

Lemma classifyBlock_loop ops : forall h lw h' lw',
  forEach (classifyBlock reference allWords_ terminal) ops (h, lw) = Some (h', lw') ->
  lw' = lw ++ concat (List.map (blockWords reference allWords_ terminal) ops) /\ retagged h h'.
Proof.
  induction ops as [|d ops IH]; intros h lw h' lw'; cbn [forEach List.map concat].
  - intros [= <- <-]. rewrite app_nil_r. split; [reflexivity|apply retagged_refl].
  - destruct (classifyBlock reference allWords_ terminal (h, lw) d) as [[h1 lw1]|] eqn:H1; [|discriminate].
    intros H2. apply classifyBlock_spec in H1 as (-> & R1 & _).
    apply IH in H2 as (-> & R2).
    split; [now rewrite <- app_assoc|eapply retagged_trans; eassumption].
Qed.

End ClassifierFacts.

Lemma classify_decompose reference allWords_ terminal pre d post h h' lastWords :
  classify reference allWords_ terminal (pre ++ d :: post) h = Some (h', lastWords) ->
  let before := concat (List.map (blockWords reference allWords_ terminal) pre) in
  let after := concat (List.map (blockWords reference allWords_ terminal) post) in
  exists h1 h2,
    classify reference allWords_ terminal pre h = Some (h1, before)
    /\ classifyBlock reference allWords_ terminal (h1, before) d
       = Some (h2, before ++ blockWords reference allWords_ terminal d)
    /\ lastWords = before ++ blockWords reference allWords_ terminal d ++ after
    /\ retagged h2 h'.
Proof.
  unfold classify. rewrite forEach_app. cbn [forEach].
  destruct (forEach _ pre _) as [[h1 lw1]|] eqn:Hpre; [|discriminate].
  destruct (classifyBlock _ _ _ (h1, lw1) d) as [[h2 lw2]|] eqn:Hd; [|discriminate].
  intros Hpost.
  apply classifyBlock_loop in Hpre as (E1 & _). cbn [app] in E1. subst lw1.
  pose proof Hd as Hd'.
  apply classifyBlock_spec in Hd' as (E2 & _ & _). subst lw2.
  apply classifyBlock_loop in Hpost as (E3 & R3). subst lastWords.
  exists h1, h2. rewrite <- app_assoc. auto.
Qed.

Lemma statusIsTerminal_iff (j : option Json) :
  statusIsTerminal j = true
  <-> exists r, j = Some r
        /\ (RecognitionStatus r = "Success" \/ RecognitionStatus r = "Failed").
Proof.
  unfold statusIsTerminal. destruct j as [r|].
  - rewrite orb_true_iff, !String.eqb_eq. split.
    + intros H. exists r. auto.
    + intros (r' & [= <-] & H). exact H.
  - split; [discriminate|]. intros (r & [=] & _).
Qed.

(** C2.  For a block [d] with op [delete] or [replace], the classifier
    appends, after whatever the earlier blocks appended and after the
    recognised words of the block itself when it is a [replace], one omission
    placeholder per reference token of [d[1] .. d[2]-1], in order, each with
    the token as its text; but it appends no placeholder for the block when
    [d[2]] is the length of the reference and the RecognitionStatus of the
    session is neither [Success] nor [Failed]. *)
Theorem omissions_appended_unless_trailing_and_unfinished
  (reference : list string) (allWords_ : list nat) (j : option Json)
  (pre : list Opcode) (d : Opcode) (post : list Opcode)
  (h h' : list WordObj) (lastWords : list LastWord) :
  classify reference allWords_ (statusIsTerminal j) (pre ++ d :: post) h
  = Some (h', lastWords) ->
  isDeleteOrReplace (d0 d) = true ->
  let recognised :=
    if isInsertOrReplace (d0 d)
    then List.map (wordAt allWords_) (range (d3 d) (d4 d)) else [] in
  let placeholders :=
    if (d2 d =? length reference) && negb (statusIsTerminal j) then []
    else List.map (fun i => Placeholder (reference !! i)) (range (d1 d) (d2 d)) in
  exists h1 before h2 after,
    classify reference allWords_ (statusIsTerminal j) pre h = Some (h1, before)
    /\ classifyBlock reference allWords_ (statusIsTerminal j) (h1, before) d
       = Some (h2, before ++ recognised ++ placeholders)
    /\ lastWords = before ++ recognised ++ placeholders ++ after.
Proof.
  intros Hc Hdel recognised placeholders.
  apply classify_decompose in Hc as (h1 & h2 & Hpre & Hd & Hl & _).
  assert (Hbw : blockWords reference allWords_ (statusIsTerminal j) d
                = recognised ++ placeholders).
  { unfold blockWords, recognised, placeholders. rewrite Hdel.
    assert (Heq : isEqual (d0 d) = false) by (destruct (d0 d); easy).
    rewrite Heq. now rewrite app_nil_r. }
  rewrite Hbw in Hd, Hl. rewrite <- app_assoc in Hl.
  eauto 10.
Qed.

(** Scenario B: the block [delete 1 2 1 1] appends the placeholder for
    the second reference token between the words of its neighbours. *)
Lemma omissions_appended_witness :
  exists h1 h2 after,
    classifyBlock (wholelyricsArryRes "the quick brown fox")
      (allWords (run Scenario.eventsB)) true (h1, [Ref 0])
      (mkOpcode delete 1 2 1 1)
    = Some (h2, [Ref 0; Placeholder (Some "quick")])
    /\ after = [Ref 1; Ref 2].
Proof.
  destruct (omissions_appended_unless_trailing_and_unfinished
              (wholelyricsArryRes "the quick brown fox")
              (allWords (run Scenario.eventsB))
              (jo (run Scenario.eventsB))
              [mkOpcode equal 0 1 0 1] (mkOpcode delete 1 2 1 1)
              [mkOpcode equal 2 4 1 3]
              (heap (run Scenario.eventsB)) (heap (run Scenario.eventsB))
              [Ref 0; Placeholder (Some "quick"); Ref 1; Ref 2]
              eq_refl eq_refl)
    as (h1 & before & h2 & after & Hpre & Hd & Hl).
  vm_compute in Hpre. injection Hpre as <- <-.
  vm_compute in Hl. injection Hl as <-.
  exists (heap (run Scenario.eventsB)), h2, [Ref 1; Ref 2].
  split; [exact Hd | reflexivity].
Defined.

(** ** Finalisation *)

Section Finalisation.

Variable getOpcodes : list string -> list string -> list Opcode.

(** What a finalisation that does not throw has computed. *)
Lemma calculate_inv referenceText st st' pronScore :
  calculateOverallPronunciationScore getOpcodes referenceText st
  = Some (st', pronScore) ->
  let reference := wholelyricsArryRes referenceText in
  let terminal := statusIsTerminal (jo st) in
  exists lastWords,
    classify reference (allWords st) terminal
      (getOpcodes reference (resTextArray (currentText st))) (heap st)
    = Some (heap st', lastWords)
    /\ accuracyScore (scoreNumber st')
       = Number.toFixed0
           (Number.sum (accuracyScoresOf (heap st') lastWords)
            / ofNat (length (accuracyScoresOf (heap st') lastWords)))%js
    /\ compScore (scoreNumber st')
       = computeCompScore
           (length (recognizedWordsRes (heap st') (recognizedWords st)))
           (length reference)
    /\ fluencyScore (scoreNumber st')
       = (if Number.truthy (startOffset st)
          then (Number.sum (sumRes (fluencyScores st) (durations st))
                / Number.sum (durations st))%js
          else fluencyScore (scoreNumber st))
    /\ prosodyScore (scoreNumber st')
       = (Number.sum (prosodyScores st)
          / ofNat (length (prosodyScores st)))%js
    /\ pronScore = computePronScore terminal (scoreNumber st')
    /\ allWords st' = allWords st
    /\ recognizedWords st' = recognizedWords st
    /\ recoginzedError st' = recoginzedError st.
Proof.
  unfold calculateOverallPronunciationScore.
  destruct (classify _ _ _ _ _) as [[h lastWords]|]; [|discriminate].
  intros [= <- <-]. cbn. exists lastWords. repeat split; reflexivity.
Qed.

End Finalisation.

(** ** Sorting the scores *)

Lemma insertBy_perm {A : Type} (cmp : A -> A -> number) x l :
  Permutation (insertBy cmp x l) (x :: l).
Proof.
  induction l as [|y r IH]; cbn; [reflexivity|].
  destruct (Number.gt (cmp y x) (Num 0)); [reflexivity|].
  rewrite IH. apply perm_swap.
Qed.

Lemma sortBy_perm {A : Type} (cmp : A -> A -> number) l :
  Permutation (sortBy cmp l) l.
Proof.
  unfold sortBy.
  assert (H : forall acc, Permutation (fold_left (fun acc x => insertBy cmp x acc) l acc)
                                      (acc ++ l)).
  { induction l as [|x r IH]; intros acc; cbn.
    - now rewrite app_nil_r.
    - rewrite IH, insertBy_perm. cbn. apply Permutation_middle. }
  exact (H []).
Qed.

Section SortedBy.

Context {A : Type}.
Variable cmp : A -> A -> number.
Variable R : A -> A -> Prop.

(** The comparator decides the order [R] on the elements at hand. *)
Hypothesis cmp_gt : forall y x, Number.gt (cmp y x) (Num 0) = true -> R x y.
Hypothesis cmp_le : forall y x, Number.gt (cmp y x) (Num 0) = false -> R y x.

Lemma insertBy_HdRel y x r :
  R y x -> HdRel R y r -> HdRel R y (insertBy cmp x r).
Proof.
  intros Hyx Hr. destruct r as [|z r]; cbn.
  - now constructor.
  - destruct (Number.gt (cmp z x) (Num 0)); constructor; [exact Hyx|].
    now inversion Hr.
Qed.

Lemma insertBy_sorted x l : Sorted R l -> Sorted R (insertBy cmp x l).
Proof.
  induction 1 as [|y r Hs IH Hd]; cbn.
  - repeat constructor.
  - destruct (Number.gt (cmp y x) (Num 0)) eqn:E.
    + constructor; [now constructor|]. constructor. now apply cmp_gt.
    + constructor; [exact IH|]. apply insertBy_HdRel; [|exact Hd].
      now apply cmp_le.
Qed.

Lemma sortBy_sorted l : Sorted R (sortBy cmp l).
Proof.
  unfold sortBy.
  assert (H : forall acc, Sorted R acc ->
                Sorted R (fold_left (fun acc x => insertBy cmp x acc) l acc)).
  { induction l as [|x r IH]; intros acc Hacc; cbn; [exact Hacc|].
    apply IH, insertBy_sorted, Hacc. }
  apply H. constructor.
Qed.

End SortedBy.

(** On numbers that are not [NaN], [a - b > 0] is [a > b]. *)
Lemma gt_sub_zero a b :
  Number.isNaN a = false -> Number.isNaN b = false ->
  Number.gt (a - b)%js (Num 0) = Number.gt a b.
Proof.
  destruct a as [p| | |], b as [q| | |];
    cbn [Number.gt Number.sub Number.add Number.neg Number.isNaN];
    try discriminate; try reflexivity.
  intros _ _.
  destruct (p ?= q)%Q eqn:E.
  - apply Qeq_alt in E. 
    assert (H : (p + - q == 0)%Q) by (rewrite E; ring).
    now rewrite (proj1 (Qeq_alt _ _) H).
  - apply Qlt_alt in E.
    assert (H : (p + - q < 0)%Q).
    { apply Qplus_lt_l with (z := q). ring_simplify. exact E. }
    now rewrite (proj1 (Qlt_alt _ _) H).
  - apply Qgt_alt in E.
    assert (H : (0 < p + - q)%Q).
    { apply Qplus_lt_l with (z := q). ring_simplify. exact E. }
    now rewrite (proj1 (Qgt_alt _ _) H).
Qed.

Lemma gt_true_le a b : Number.gt a b = true -> Number.le b a = true.
Proof.
  destruct a as [p| | |], b as [q| | |];
    cbn [Number.gt Number.le negb]; try discriminate; try reflexivity.
  destruct (p ?= q)%Q eqn:E; try discriminate. intros _.
  rewrite <- (Qcompare_antisym p q), E. reflexivity.
Qed.

Lemma gt_false_le a b :
  Number.isNaN a = false -> Number.isNaN b = false ->
  Number.gt a b = false -> Number.le a b = true.
Proof.
  destruct a as [p| | |], b as [q| | |];
    cbn [Number.gt Number.le Number.isNaN negb];
    try discriminate; try reflexivity;
    intros _ _ H; now rewrite H.
Qed.

Lemma sorted_scoreKeys (s : ScoreNumber) :
  let sortScore :=
    sortBy (fun a b => (getScore s a - getScore s b)%js) scoreKeys in
  exists k0 k1 k2 k3,
    sortScore = [k0; k1; k2; k3]
    /\ Permutation [k0; k1; k2; k3] scoreKeys
    /\ ((forall k, Number.isNaN (getScore s k) = false) ->
        Number.le (getScore s k0) (getScore s k1) = true
        /\ Number.le (getScore s k1) (getScore s k2) = true
        /\ Number.le (getScore s k2) (getScore s k3) = true).
Proof.
  intros sortScore.
  pose proof (sortBy_perm (fun a b => (getScore s a - getScore s b)%js) scoreKeys)
    as Hp.
  fold sortScore in Hp.
  pose proof (Permutation_length Hp) as Hlen.
  destruct sortScore as [|k0 [|k1 [|k2 [|k3 [|? ?]]]]] eqn:E; try discriminate Hlen.
  exists k0, k1, k2, k3. split; [reflexivity|]. split; [exact Hp|].
  intros Hnan.
  assert (Hs : Sorted (fun a b => Number.le (getScore s a) (getScore s b) = true)
                      [k0; k1; k2; k3]).
  { rewrite <- E. apply sortBy_sorted.
    - intros y x H. rewrite gt_sub_zero in H by apply Hnan.
      now apply gt_true_le.
    - intros y x H. rewrite gt_sub_zero in H by apply Hnan.
      apply gt_false_le; [apply Hnan | apply Hnan | exact H]. }
  inversion Hs as [|? ? Hs1 Hd0]; subst. inversion Hd0; subst.
  inversion Hs1 as [|? ? Hs2 Hd1]; subst. inversion Hd1; subst.
  inversion Hs2 as [|? ? Hs3 Hd2]; subst. inversion Hd2; subst.
  auto.
Qed.

(** ** Rounding *)


(** [roundHalfAway] is a nearest integer. *)
Lemma roundHalfAway_nearest (q : Q) :
  (Qabs (inject_Z (Number.roundHalfAway q) - q) <= 1 # 2)%Q.
Proof.
  unfold Number.roundHalfAway, Number.sgn.
  apply Qabs_Qle_condition.
  destruct (q ?= 0)%Q.
  1,3: pose proof (Qfloor_le (q + (1 # 2))) as Hlo;
       pose proof (Qlt_floor (q + (1 # 2))) as Hhi;
       rewrite inject_Z_plus in Hhi;
       change (inject_Z 1) with 1%Q in Hhi;
       set (f := inject_Z (Qfloor (q + (1 # 2)))) in *; lra.
  pose proof (Qfloor_le (- q + (1 # 2))) as Hlo.
  pose proof (Qlt_floor (- q + (1 # 2))) as Hhi.
  rewrite inject_Z_plus in Hhi. change (inject_Z 1) with 1%Q in Hhi.
  rewrite inject_Z_opp.
  set (f := inject_Z (Qfloor (- q + (1 # 2)))) in *. lra.
Qed.


(** ** Completeness *)

Lemma sgn_ofNat_pos (n : nat) :
  n <> 0 -> Number.sgn (inject_Z (Z.of_nat n)) = Gt.
Proof.
  intros Hn. unfold Number.sgn. apply Qgt_alt.
  change 0%Q with (inject_Z 0). rewrite <- Zlt_Qlt. lia.
Qed.

Lemma Qcompare_inject_Z (a b : Z) :
  (inject_Z a ?= inject_Z b)%Q = (a ?= b)%Z.
Proof. unfold Qcompare. cbn. now rewrite !Z.mul_1_r. Qed.


(** ** Numbers that stand for rationals *)









(** ** The per-segment lists *)

Lemma fold_recognized_scores events : forall st,
  let st' := fold_left recognized events st in
  fluencyScores st'
  = fluencyScores st ++ List.map (fun e => FluencyScore (json e)) (accumulated events)
  /\ prosodyScores st'
     = prosodyScores st ++ List.map (fun e => ProsodyScore (json e)) (accumulated events)
  /\ durations st' = durations st ++ List.map durationOf (accumulated events)
  /\ scoreNumber st' = scoreNumber st.
Proof.
  induction events as [|e events IH]; intros st; cbn [fold_left accumulated List.filter].
  - cbn. now rewrite !app_nil_r.
  - destruct (IH (recognized st e)) as (Hf & Hp & Hd & Hs).
    cbn zeta. rewrite Hf, Hp, Hd, Hs. clear.
    unfold recognized. fold (accumulated events).
    destruct (Words (json e)) as [|w0 ws] eqn:E; cbn;
      unfold durationOf; rewrite ?E, <- ?app_assoc; repeat split; reflexivity.
Qed.

Lemma run_scores events :
  fluencyScores (run events)
  = List.map (fun e => FluencyScore (json e)) (accumulated events)
  /\ prosodyScores (run events)
     = List.map (fun e => ProsodyScore (json e)) (accumulated events)
  /\ durations (run events) = List.map durationOf (accumulated events)
  /\ scoreNumber (run events) = scoreNumber initialState.
Proof. exact (fold_recognized_scores events initialState). Qed.

Lemma sumRes_map {E : Type} (F D : E -> number) (es : list E) :
  sumRes (List.map F es) (List.map D es)
  = List.map (fun e => (F e * D e)%js) es.
Proof.
  unfold sumRes. apply list_eq. intros i.
  rewrite list_lookup_imap.
  change (List.map F es) with (F <$> es).
  change (List.map D es) with (D <$> es).
  change (List.map (fun e => (F e * D e)%js) es) with ((fun e => (F e * D e)%js) <$> es).
  rewrite !list_lookup_fmap.
  destruct (es !! i); reflexivity.
Qed.






(** ** Fluency *)

(** [startOffset] is the offset of the first word of the latest event that
    has words. *)
Lemma startOffset_run_snoc events e :
  startOffset (run (events ++ [e]))
  = match Words (json e) with
    | w0 :: _ => Offset w0
    | [] => startOffset (run events)
    end.
Proof.
  unfold run. rewrite fold_left_app. cbn [fold_left]. unfold recognized.
  now destruct (Words (json e)).
Qed.




(** ** The response of the continuous path *)

Lemma isShortAudio_false_iff (rawAudioDuration : number) :
  isShortAudio rawAudioDuration = false
  <-> Number.gt rawAudioDuration (Num 30) = true.
Proof.
  destruct rawAudioDuration as [q| | |];
    try (cbv; split; congruence).
  unfold isShortAudio, Number.orZero, Number.truthy, Number.sgn.
  destruct (q ?= 0)%Q eqn:E0.
  - apply Qeq_alt in E0.
    assert (H30 : (q ?= 30)%Q = Lt) by (apply Qlt_alt; rewrite E0; reflexivity).
    unfold Number.gt. rewrite H30. split; [|discriminate].
    vm_compute. discriminate.
  - unfold Number.le. now rewrite negb_false_iff.
  - unfold Number.le. now rewrite negb_false_iff.
Qed.

(** C10.  On the continuous path (an audio duration above 30 seconds, a
    reference text in the header), once the session has resolved with an
    assessment, the response is the 500 failure exactly when the [Words] of
    the assessment are fewer than two, whatever the scores; it is the 200
    success, carrying the assessment, exactly when there are at least two. *)
Theorem continuous_path_needs_two_words
  (getOpcodes : list string -> list string -> list Opcode)
  (recognizeOnceAsync : Settled)
  (referenceText : string) (rawAudioDuration : number)
  (events : list RecognitionEvent) (a : Assessment) :
  Number.gt rawAudioDuration (Num 30) = true ->
  Str.isEmpty referenceText = false ->
  continueRecognize getOpcodes referenceText events
  = Resolved (ContinuousResult a) ->
  (length (Words_ a) <= 1 ->
   pronunciationAssessment getOpcodes recognizeOnceAsync referenceText
     rawAudioDuration events
   = Some {| status := 500; code := Some 500; data := None |})
  /\ (2 <= length (Words_ a) ->
      pronunciationAssessment getOpcodes recognizeOnceAsync referenceText
        rawAudioDuration events
      = Some {| status := 200; code := Some 200;
                data := Some (ContinuousResult a) |}).
Proof.
  intros Hlong Href Hres.
  apply isShortAudio_false_iff in Hlong.
  unfold pronunciationAssessment. rewrite Href, Hlong, Hres.
  unfold respond. rewrite Hlong.
  split; intros Hlen.
  - assert (E : (1 <? length (Words_ a)) = false) by (apply Nat.ltb_ge; lia).
    now rewrite E.
  - assert (E : (1 <? length (Words_ a)) = true) by (apply Nat.ltb_lt; lia).
    now rewrite E.
Qed.

(** One word recognised with full marks, every score 100: the response is
    the 500 failure all the same. *)
Lemma continuous_path_one_word_witness :
  PronScore (scores Scenario.assessmentOne) = Num 100
  /\ length (Words_ Scenario.assessmentOne) = 1
  /\ pronunciationAssessment (Scenario.opcodes Scenario.opcodesOne) Rejected
       "hello" (Num 31) Scenario.eventsOne
     = Some {| status := 500; code := Some 500; data := None |}.
Proof.
  split; [reflexivity|]. split; [reflexivity|].
  apply (continuous_path_needs_two_words
           (Scenario.opcodes Scenario.opcodesOne) Rejected "hello" (Num 31)
           Scenario.eventsOne Scenario.assessmentOne
           eq_refl eq_refl ltac:(vm_compute; reflexivity)).
  cbn. lia.
Defined.

(** ** A reference without tokens *)

(** C6 at an input the service accepts: the header holds one exclamation
    mark, which the normaliser strips, and two words are recognised.  No
    error is raised: the completeness score is 0/0, the accuracy mean is
    taken over no word, and the handler answers 200 with [NaN] as
    completeness, accuracy and overall score.  With no segment at all the
    finalisation resolves as well, with [NaN] as accuracy and prosody. *)
Theorem empty_reference_resolves_with_NaN :
  wholelyricsArryRes "!" = []
  /\ (exists a,
        pronunciationAssessment (Scenario.opcodes Scenario.opcodesE) Rejected
          "!" (Num 31) Scenario.eventsE
        = Some {| status := 200; code := Some 200;
                  data := Some (ContinuousResult a) |}
        /\ CompletenessScore (scores a) = NaN
        /\ AccuracyScore_ (scores a) = NaN
        /\ PronScore (scores a) = NaN)
  /\ (exists a,
        continueRecognize (Scenario.opcodes [mkOpcode replace 0 1 0 1])
          "hello" [] = Resolved (ContinuousResult a)
        /\ AccuracyScore_ (scores a) = NaN
        /\ ProsodyScore_ (scores a) = NaN
        /\ PronScore (scores a) = NaN).
Proof.
  split; [reflexivity|]. split.
  - eexists. split; [vm_compute; reflexivity|]. cbn. auto.
  - eexists. split; [vm_compute; reflexivity|]. cbn. auto.
Qed.

(** ** The text normaliser *)

Lemma trimEnd_idem s : Str.trimEnd (Str.trimEnd s) = Str.trimEnd s.
Proof.
  induction s as [|c r IH]; [reflexivity|]. cbn [Str.trimEnd].
  destruct (Str.isWhiteSpace c && Str.isEmpty (Str.trimEnd r)) eqn:E;
    [reflexivity|].
  cbn [Str.trimEnd]. now rewrite IH, E.
Qed.

Lemma trimStart_idem s : Str.trimStart (Str.trimStart s) = Str.trimStart s.
Proof.
  induction s as [|c r IH]; [reflexivity|]. cbn [Str.trimStart].
  destruct (Str.isWhiteSpace c) eqn:E; [exact IH|].
  cbn [Str.trimStart]. now rewrite E.
Qed.

(** Trimming the start of a string whose end is trimmed leaves the end
    trimmed. *)
Lemma trimEnd_trimStart s :
  Str.trimEnd s = s -> Str.trimEnd (Str.trimStart s) = Str.trimStart s.
Proof.
  induction s as [|c r IH]; [reflexivity|]. cbn [Str.trimEnd Str.trimStart].
  destruct (Str.isWhiteSpace c) eqn:Ec; cbn [andb].
  - destruct (Str.isEmpty (Str.trimEnd r)) eqn:Ee; [discriminate|].
    intros [= Hr]. now apply IH.
  - intros [= Hr]. cbn [Str.trimEnd]. now rewrite Ec, Hr.
Qed.

Lemma trim_idem s : Str.trim (Str.trim s) = Str.trim s.
Proof.
  unfold Str.trim.
  rewrite (trimEnd_trimStart (Str.trimEnd s) (trimEnd_idem s)).
  apply trimStart_idem.
Qed.

Lemma contains_trimStart c s :
  Str.contains c s = false -> Str.contains c (Str.trimStart s) = false.
Proof.
  induction s as [|c' r IH]; [reflexivity|]. cbn [Str.trimStart].
  destruct (Str.isWhiteSpace c'); [|auto].
  cbn [Str.contains]. intros H. apply orb_false_iff in H as [_ H]. auto.
Qed.

Lemma contains_trimEnd c s :
  Str.contains c s = false -> Str.contains c (Str.trimEnd s) = false.
Proof.
  induction s as [|c' r IH]; [reflexivity|]. cbn [Str.trimEnd Str.contains].
  intros H. apply orb_false_iff in H as [Hc Hr].
  destruct (Str.isWhiteSpace c' && Str.isEmpty (Str.trimEnd r)); [reflexivity|].
  cbn [Str.contains]. rewrite Hc. cbn. auto.
Qed.

Lemma contains_trim c s :
  Str.contains c s = false -> Str.contains c (Str.trim s) = false.
Proof. intros H. now apply contains_trimStart, contains_trimEnd. Qed.

Lemma split_not_nil s : Str.split s <> [].
Proof.
  destruct s as [|c r]; cbn; [discriminate|].
  destruct (Str.isSpace c); [discriminate|].
  destruct (Str.split r); discriminate.
Qed.

(** No piece of a split holds a space. *)
Lemma split_no_space s :
  Forall (fun t => Str.contains " " t = false) (Str.split s).
Proof.
  induction s as [|c r IH]; cbn [Str.split].
  - repeat constructor.
  - destruct (Str.isSpace c) eqn:E.
    + constructor; [reflexivity | exact IH].
    + destruct (Str.split r) as [|p ps].
      * repeat constructor. cbn. unfold Str.isSpace in E.
        change (Str.code " ") with 32. now rewrite E.
      * inversion IH as [|? ? Hp Hps]; subst. constructor; [|exact Hps].
        cbn. unfold Str.isSpace in E. change (Str.code " ") with 32.
        now rewrite E, Hp.
Qed.

(** Joining the pieces of a split gives the string back: the split drops
    nothing. *)
Lemma join_split s : Str.join (Str.split s) = s.
Proof.
  induction s as [|c r IH]; [reflexivity|]. cbn [Str.split].
  destruct (Str.isSpace c) eqn:E.
  - pose proof (split_not_nil r) as Hne.
    destruct (Str.split r) as [|p ps] eqn:Er; [contradiction|].
    cbn [Str.join String.append]. cbn [Str.join] in IH. rewrite IH.
    unfold Str.isSpace, Str.code in E. apply Nat.eqb_eq in E.
    f_equal. rewrite <- (ascii_nat_embedding c), E. reflexivity.
  - pose proof (split_not_nil r) as Hne.
    destruct (Str.split r) as [|p ps] eqn:Er; [contradiction|].
    destruct ps as [|p' ps']; cbn [Str.join String.append] in *; now rewrite IH.
Qed.

(** C8, amended.  Every token of the normalised reference is its own trimmed
    form, holds no space, and is the trimmed form of a non-empty piece of the
    split (empty pieces are dropped before the trimming).  The recognised
    text is only split on single spaces: no token holds a space, and nothing
    is dropped or trimmed, so that joining the tokens gives the stripped text
    back. *)
Theorem normaliser_tokens (referenceText : string) (currentText : list string) :
  Forall (fun t => Str.trim t = t /\ Str.contains " " t = false)
         (wholelyricsArryRes referenceText)
  /\ (forall t, In t (wholelyricsArryRes referenceText) ->
        exists piece, In piece (wholelyricsArry referenceText)
                      /\ piece <> EmptyString /\ t = Str.trim piece)
  /\ Forall (fun t => Str.contains " " t = false) (resTextArray currentText)
  /\ Str.join (resTextArray currentText)
     = Str.stripPunctuation (Str.toLocaleLowerCase (Str.join currentText)).
Proof.
  split; [|split; [|split]].
  - unfold wholelyricsArryRes, wholelyricsArry.
    apply List.Forall_forall. intros t Ht.
    apply in_map_iff in Ht as (p & <- & Hp).
    apply filter_In in Hp as [Hp _].
    split; [apply trim_idem|]. apply contains_trim.
    pose proof (split_no_space
                  (Str.stripPunctuation (Str.toLocaleLowerCase referenceText))) as H.
    rewrite List.Forall_forall in H. now apply H.
  - unfold wholelyricsArryRes. intros t Ht.
    apply in_map_iff in Ht as (p & <- & Hp).
    apply filter_In in Hp as [Hp He].
    exists p. split; [exact Hp|]. split; [|reflexivity].
    intros ->. discriminate He.
  - apply split_no_space.
  - apply join_split.
Qed.

(** C8 fails as stated: a session in which no word was recognised has the
    empty string as recognised text, whose split is one empty token. *)
Lemma normaliser_as_stated_fails :
  ~ normaliser_as_stated "the quick brown fox" [].
Proof.
  intros [_ H]. vm_compute in H.
  inversion H as [|? ? [Hne _] _]. now apply Hne.
Qed.

(** A piece made of a tab passes the test for emptiness and is trimmed to
    the empty token. *)
Example reference_with_tab :
  wholelyricsArryRes ("a " ++ String (ascii_of_nat 9) " b")%string
  = ["a"; EmptyString; "b"]%string.
Proof. reflexivity. Qed.

(** ** The range of the scores *)

Lemma inUnit_range x : inUnit x = true -> scoreInRange x.
Proof.
  destruct x as [q| | |]; try discriminate. cbn.
  rewrite andb_true_iff, !Qle_bool_iff. intros H. exists q. auto.
Qed.
























(** ** The two word arrays *)

Lemma deref_app_valid (h x : list WordObj) (addrs : list nat) :
  Forall (fun a => a < length h) addrs -> deref (h ++ x) addrs = deref h addrs.
Proof.
  unfold deref. induction 1 as [|a addrs Ha _ IH]; [reflexivity|].
  cbn [omap list_omap]. fold (omap (fun a => (h ++ x) !! a) addrs).
  fold (omap (fun a => h !! a) addrs).
  now rewrite IH, (lookup_app_l h x a Ha).
Qed.

Lemma fold_recognized_allWords events : forall st,
  Forall (fun a => a < length (heap st)) (allWords st) ->
  let st' := fold_left recognized events st in
  Forall (fun a => a < length (heap st')) (allWords st')
  /\ deref (heap st') (allWords st')
     = deref (heap st) (allWords st)
       ++ concat (List.map
                    (fun e => if (RecognitionStatus (json e) =? "Success")%string
                              then Words (json e) else []) events).
Proof.
  induction events as [|e events IH]; intros st Hst; cbn [fold_left List.map concat].
  - cbn zeta. now rewrite app_nil_r.
  - assert (Hst' : Forall (fun a => a < length (heap (recognized st e)))
                          (allWords (recognized st e))).
    { rewrite recognized_allWords, recognized_heap, length_app.
      apply Forall_app. split.
      - eapply List.Forall_impl; [|exact Hst]. cbn. intros a Ha. lia.
      - destruct (_ =? _)%string; [|constructor].
        apply List.Forall_forall. intros a Ha. apply in_seq in Ha. lia. }
    destruct (IH (recognized st e) Hst') as [Hv Hd].
    cbn zeta in *. split; [exact Hv|]. rewrite Hd, app_assoc. f_equal.
    rewrite recognized_allWords, recognized_heap.
    unfold deref at 1. rewrite omap_app.
    fold (deref (heap st ++ Words (json e)) (allWords st)).
    rewrite (deref_app_valid _ _ _ Hst). f_equal.
    destruct (_ =? _)%string; [|reflexivity].
    apply deref_seq_app.
Qed.

(** C9, amended.  After any sequence of [recognized] events,
    [recognizedWords], the array that the completeness count reads, is the
    concatenation in arrival order of the word lists of all the events,
    whatever their status or reason, and [currentText], the recognised text
    that is aligned with the reference, is the same sequence, each word
    lowercased: nothing is reordered, dropped or merged.  [allWords], the
    array that the classifier indexes and that the response returns as
    [Words], is the concatenation in arrival order of the word lists of the
    events whose [RecognitionStatus] is [Success] only; every array holds
    the word objects of the heap, which is the concatenation of all. *)
Theorem accumulated_words_by_status (events : list RecognitionEvent) :
  heap (run events) = concat (List.map (fun e => Words (json e)) events)
  /\ deref (heap (run events)) (recognizedWords (run events))
     = concat (List.map (fun e => Words (json e)) events)
  /\ currentText (run events)
     = List.map (fun item => Str.toLowerCase (Word item))
         (concat (List.map (fun e => Words (json e)) events))
  /\ deref (heap (run events)) (allWords (run events))
     = concat (List.map
                 (fun e => if (RecognitionStatus (json e) =? "Success")%string
                           then Words (json e) else []) events).
Proof.
  destruct (fold_recognized_spec events initialState eq_refl) as (Ha & Hh & Ht).
  fold (run events) in Ha, Hh, Ht. cbn in Hh, Ht.
  destruct (fold_recognized_allWords events initialState) as [_ Hw];
    [constructor|].
  split; [exact Hh|]. split; [|split; [exact Ht | exact Hw]].
  rewrite Ha, deref_seq. exact Hh.
Qed.

(** C9 fails as stated: of two segments of one word each, the second with
    the status [Failed], [allWords] holds the first word only. *)
Lemma accumulation_as_stated_fails :
  ~ accumulation_as_stated ScenarioX.eventsMixed.
Proof. unfold accumulation_as_stated. vm_compute. discriminate. Qed.

(** When one of the four scores is [NaN] the weighted sum is [NaN] in
    whatever order the scores are taken: the order that [sort] leaves the
    keys in when its comparator answers [NaN] does not matter. *)
Lemma weighted_sum_NaN (a b c d : number) :
  a = NaN \/ b = NaN \/ c = NaN \/ d = NaN ->
  Number.toFixed0
    (a * Num (4 # 10) + b * Num (2 # 10) + c * Num (2 # 10) + d * Num (2 # 10))%js
  = NaN.
Proof.
  intros H.
  destruct a, b, c, d; destruct H as [H|[H|[H|H]]];
    try discriminate H; reflexivity.
Qed.

(** Scenario A of the specification: the reference spoken in full, with
    full marks, gives 100 for each of the five scores. *)
Example scenario_A_all_100 :
  accuracyScore (scoreNumber (fst Scenario.finalA)) = Num 100
  /\ compScore (scoreNumber (fst Scenario.finalA)) = Num 100
  /\ represents (fluencyScore (scoreNumber (fst Scenario.finalA))) 100
  /\ prosodyScore (scoreNumber (fst Scenario.finalA)) = Num 100
  /\ snd Scenario.finalA = Num 100.
Proof.
  repeat split; try reflexivity.
  eexists. split; reflexivity.
Qed.

(** The word objects are shared between [recognizedWords] and [allWords]:
    the replacing word arrives tagged [None], the classifier retags it
    [Insertion] through [allWords], and the completeness count, which reads
    [recognizedWords] afterwards, finds three words tagged [None] out of the
    four recognised. *)
Example retagged_word_is_not_counted :
  length (List.filter (fun word => (ErrorType word =? "None")%string)
            (deref (heap (run Scenario.eventsR))
                   (recognizedWords (run Scenario.eventsR)))) = 4
  /\ length (List.filter (fun word => (ErrorType word =? "None")%string)
               (deref (heap (fst Scenario.finalR))
                      (recognizedWords (fst Scenario.finalR)))) = 3
  /\ compScore (scoreNumber (fst Scenario.finalR)) = Num 75.
Proof. repeat split; reflexivity. Qed.

(* ===================================================================== *)
(** * Further properties of the code *)
(* ===================================================================== *)

(** ** The handler *)

(** X1.  What the handler answers, for any settled promise: the status is
    400, 200 or 500; it is 400 exactly when the reference header is missing
    or empty, and the body then has no code; otherwise the body has a code,
    which is the status; the status is 200 exactly when the header is there
    and either the audio is short and the engine recognised speech, or the
    audio is long and the session resolved with at least two words; and the
    body carries data exactly when the status is 200. *)
Theorem response_characterisation
  (getOpcodes : list string -> list string -> list Opcode)
  (recognizeOnceAsync : Settled) (referenceText : string)
  (rawAudioDuration : number) (events : list RecognitionEvent) (r : Response) :
  pronunciationAssessment getOpcodes recognizeOnceAsync referenceText
    rawAudioDuration events = Some r ->
  (status r = 400 \/ status r = 200 \/ status r = 500)
  /\ (status r = 400 <-> Str.isEmpty referenceText = true)
  /\ (status r = 400 -> code r = None)
  /\ (status r <> 400 -> code r = Some (status r))
  /\ (status r = 200 <->
      Str.isEmpty referenceText = false
      /\ ((isShortAudio rawAudioDuration = true
           /\ recognizeOnceAsync = Resolved (RecognitionResult RecognizedSpeech))
          \/ (isShortAudio rawAudioDuration = false
              /\ exists a,
                   continueRecognize getOpcodes referenceText events
                   = Resolved (ContinuousResult a)
                   /\ 2 <= length (Words_ a))))
  /\ (data r <> None <-> status r = 200).
Proof.
  unfold pronunciationAssessment, respond.
  destruct (Str.isEmpty referenceText) eqn:Href;
    [|destruct (isShortAudio rawAudioDuration) eqn:Hshort;
      [destruct recognizeOnceAsync as [[[| | |]|a]| |]
      |destruct (continueRecognize getOpcodes referenceText events)
         as [[reason|a]| |] eqn:Hres;
       [| destruct (1 <? length (Words_ a)) eqn:Hlen;
          [apply Nat.ltb_lt in Hlen | apply Nat.ltb_ge in Hlen] | |]]];
    try discriminate; intros [= <-]; cbn [status code data];
    (split; [auto|]);
    (split; [split; intros; congruence|]);
    (split; [intros; congruence|]);
    (split; [intros; congruence|]);
    (split; [|split; intros H; try congruence; try discriminate;
              try (exfalso; now apply H)]);
    (split; [try discriminate; intros _|]);
    try (intros (Hne & [(Hs & H)|(Hs & a' & H & Hl)]);
         try discriminate; try congruence).
  all: try (split; [reflexivity|]).
  all: try (left; split; reflexivity).
  all: try (right; split; [reflexivity|]; exists a; split; [reflexivity | lia]).
  all: try (injection H as <-; lia).
Qed.

(** The long request of two recognised words is answered with 200, the
    code 200 and its data. *)
Lemma response_characterisation_witness :
  status ScenarioX.responseP = 200
  /\ code ScenarioX.responseP = Some 200
  /\ data ScenarioX.responseP <> None.
Proof.
  destruct (response_characterisation
              (Scenario.opcodes Scenario.opcodesP) Rejected "hello world"
              (Num 31) Scenario.eventsP ScenarioX.responseP
              ltac:(vm_compute; reflexivity))
    as (_ & _ & _ & Hcode & _ & Hdata).
  split; [reflexivity|]. split; [now apply Hcode|]. now apply Hdata.
Defined.

(** X2.  The choice of the path from [Number(rawAudioDuration) || 0]: a
    finite duration takes the short path exactly when it is at most 30; a
    header that is missing or not a number ([NaN]) takes the short path, as
    does [-Infinity]; [Infinity] takes the continuous path. *)
Theorem short_path_selection :
  (forall q : Q, isShortAudio (Num q) = true <-> (q <= 30)%Q)
  /\ isShortAudio NaN = true
  /\ isShortAudio NegInfinity = true
  /\ isShortAudio PosInfinity = false.
Proof.
  split; [|repeat split; reflexivity].
  intros q. unfold isShortAudio, Number.orZero, Number.truthy, Number.sgn.
  destruct (q ?= 0)%Q eqn:E0.
  - apply Qeq_alt in E0. split; [|reflexivity]. intros _. rewrite E0. discriminate.
  - unfold Number.le, Number.gt. rewrite negb_true_iff.
    destruct (q ?= 30)%Q eqn:E; split; intros H; try discriminate; try reflexivity.
    + apply Qeq_alt in E. rewrite E. apply Qle_refl.
    + apply Qlt_alt in E. now apply Qlt_le_weak.
    + apply Qgt_alt in E. lra.
  - unfold Number.le, Number.gt. rewrite negb_true_iff.
    destruct (q ?= 30)%Q eqn:E; split; intros H; try discriminate; try reflexivity.
    + apply Qeq_alt in E. rewrite E. apply Qle_refl.
    + apply Qlt_alt in E. now apply Qlt_le_weak.
    + apply Qgt_alt in E. lra.
Qed.

(** ** Cancellation *)

Lemma settle_settled (p v : Settled) :
  p <> NeverSettled -> settle p v = p.
Proof. destruct p; [reflexivity | reflexivity | contradiction]. Qed.

Lemma fold_onEvent_vars evs : forall s,
  vars (fold_left onEvent evs s)
  = fold_left recognized (recognizedEvents evs) (vars s).
Proof.
  induction evs as [|ev evs IH]; intros s; [reflexivity|].
  cbn [fold_left]. rewrite IH. unfold recognizedEvents.
  destruct ev as [e|[|]]; reflexivity.
Qed.

Lemma fold_onEvent_promise evs : forall s,
  promise (fold_left onEvent evs s)
  = if existsb isErrorCancel evs then settle (promise s) Rejected
    else promise s.
Proof.
  induction evs as [|ev evs IH]; intros s; [reflexivity|].
  cbn [fold_left existsb]. rewrite IH.
  destruct ev as [e|[|]]; cbn [onEvent canceled isErrorCancel orb promise];
    try reflexivity.
  destruct (existsb isErrorCancel evs); [|reflexivity].
  now destruct (promise s).
Qed.

(** X3.  A cancellation with an error, wherever it comes in the session,
    rejects the promise for good: what [sessionStopped] computes afterwards
    is not delivered, and the handler answers 500 without data on either
    path. *)
Theorem error_cancellation_rejects
  (getOpcodes : list string -> list string -> list Opcode)
  (referenceText : string) (evs : list SdkEvent) (rawAudioDuration : number) :
  existsb isErrorCancel evs = true ->
  session getOpcodes referenceText evs = Rejected
  /\ respond rawAudioDuration (session getOpcodes referenceText evs)
     = Some {| status := 500; code := Some 500; data := None |}.
Proof.
  intros H. unfold session. rewrite fold_onEvent_promise, H. cbn.
  split; reflexivity.
Qed.

Lemma error_cancellation_witness :
  session (Scenario.opcodes Scenario.opcodesP) "hello world"
    ScenarioX.sessionCanceled = Rejected.
Proof.
  apply (error_cancellation_rejects
           (Scenario.opcodes Scenario.opcodesP) "hello world"
           ScenarioX.sessionCanceled (Num 31) eq_refl).
Defined.

(** X4.  Without a cancellation with an error, the session settles as the
    finalisation of its [recognized] events alone: cancellations that are not
    errors change nothing. *)
Theorem other_cancellations_are_ignored
  (getOpcodes : list string -> list string -> list Opcode)
  (referenceText : string) (evs : list SdkEvent) :
  existsb isErrorCancel evs = false ->
  session getOpcodes referenceText evs
  = continueRecognize getOpcodes referenceText (recognizedEvents evs).
Proof.
  intros H. unfold session, continueRecognize, run.
  now rewrite fold_onEvent_promise, H, fold_onEvent_vars.
Qed.

Lemma other_cancellations_witness :
  session (Scenario.opcodes Scenario.opcodesP) "hello world"
    ScenarioX.sessionEndOfStream
  = continueRecognize (Scenario.opcodes Scenario.opcodesP) "hello world"
      Scenario.eventsP.
Proof.
  apply (other_cancellations_are_ignored
           (Scenario.opcodes Scenario.opcodesP) "hello world"
           ScenarioX.sessionEndOfStream eq_refl).
Defined.

(** ** The accumulator *)

(** X5.  The three per-segment arrays grow together: after any sequence of
    events, [fluencyScores], [prosodyScores] and [durations] have one entry
    per event that had words, in arrival order, the duration being the sum
    of the durations of the words of that event.  So the products of
    [sumRes] never meet a missing duration. *)
Theorem segment_arrays_are_aligned (events : list RecognitionEvent) :
  let st := run events in
  fluencyScores st = List.map (fun e => FluencyScore (json e)) (accumulated events)
  /\ prosodyScores st = List.map (fun e => ProsodyScore (json e)) (accumulated events)
  /\ durations st
     = List.map (fun e => Number.sum (List.map Duration (Words (json e))))
         (accumulated events)
  /\ length (fluencyScores st) = length (durations st)
  /\ length (prosodyScores st) = length (durations st)
  /\ sumRes (fluencyScores st) (durations st)
     = List.map (fun e => (FluencyScore (json e)
                           * Number.sum (List.map Duration (Words (json e))))%js)
         (accumulated events).
Proof.
  cbn zeta. destruct (run_scores events) as (Hf & Hp & Hd & _).
  rewrite Hf, Hp, Hd. unfold durationOf.
  repeat split; try reflexivity.
  - now rewrite !length_map.
  - now rewrite !length_map.
  - apply (sumRes_map (fun e => FluencyScore (json e))
             (fun e => Number.sum (List.map Duration (Words (json e))))).
Qed.

Lemma fold_recognized_sublist events : forall st,
  sublist (allWords st) (recognizedWords st) ->
  sublist (allWords (fold_left recognized events st))
          (recognizedWords (fold_left recognized events st)).
Proof.
  induction events as [|e events IH]; intros st Hst; [exact Hst|].
  cbn [fold_left]. apply IH.
  rewrite recognized_allWords, recognized_recognizedWords.
  apply sublist_app; [exact Hst|].
  destruct (_ =? _)%string; [reflexivity | apply sublist_nil_l].
Qed.

(** X6.  The word arrays: after any sequence of events every word ever
    received has one address, [recognizedWords] lists all the addresses once
    each in the order of arrival, and [allWords] is a subsequence of it whose
    addresses are all allocated; read through the heap it is the words of
    the events with status [Success]. *)
Theorem word_arrays_invariant (events : list RecognitionEvent) :
  let st := run events in
  heap st = allEventWords events
  /\ recognizedWords st = seq 0 (length (heap st))
  /\ NoDup (recognizedWords st)
  /\ sublist (allWords st) (recognizedWords st)
  /\ validAddresses (heap st) (allWords st)
  /\ length (deref (heap st) (allWords st)) = length (allWords st)
  /\ deref (heap st) (allWords st) = successWords events.
Proof.
  cbn zeta.
  destruct (fold_recognized_spec events initialState eq_refl) as (Ha & Hh & _).
  fold (run events) in Ha, Hh. cbn in Hh. unfold allocatedInOrder in Ha.
  destruct (fold_recognized_allWords events initialState) as [Hv Hd];
    [constructor|].
  cbn zeta in Hv, Hd. fold (run events) in Hv, Hd. cbn in Hd.
  pose proof (fold_recognized_sublist events initialState (sublist_nil_l _)) as Hs.
  fold (run events) in Hs.
  split; [exact Hh|]. split; [exact Ha|].
  split; [rewrite Ha; apply NoDup_seq|].
  split; [exact Hs|]. split; [exact Hv|]. split; [|exact Hd].
  clear -Hv. unfold deref.
  induction Hv as [|a l Ha _ IH]; [reflexivity|].
  cbn [omap list_omap]. fold (omap (fun a => heap (run events) !! a) l).
  apply lookup_lt_is_Some in Ha as [w Hw]. rewrite Hw. cbn. now rewrite IH.
Qed.

Lemma fold_recognized_error events : forall st,
  recoginzedError (fold_left recognized events st)
  = if existsb isNotRecognizedSpeech events then Some RecognizedSpeech
    else recoginzedError st.
Proof.
  induction events as [|e events IH]; intros st; [reflexivity|].
  cbn [fold_left existsb]. rewrite IH.
  assert (He : recoginzedError (recognized st e)
               = if isNotRecognizedSpeech e then Some RecognizedSpeech
                 else recoginzedError st).
  { unfold recognized, isNotRecognizedSpeech. now destruct (Words (json e)). }
  rewrite He.
  destruct (isNotRecognizedSpeech e), (existsb isNotRecognizedSpeech events);
    reflexivity.
Qed.

(** X7.  The [Error] of the resolved value is set exactly when some event of
    the session, with or without words, had a reason other than
    [RecognizedSpeech]; it is then the constant [RecognizedSpeech], never the
    reason that was received; and it does not stop the session from
    resolving. *)
Theorem error_flag_is_sticky
  (getOpcodes : list string -> list string -> list Opcode)
  (referenceText : string) (events : list RecognitionEvent) (a : Assessment) :
  continueRecognize getOpcodes referenceText events
  = Resolved (ContinuousResult a) ->
  Error a = (if existsb isNotRecognizedSpeech events
             then Some RecognizedSpeech else None).
Proof.
  unfold continueRecognize, sessionStopped.
  destruct (calculateOverallPronunciationScore _ _ _) as [[st' p]|] eqn:Hc;
    [|discriminate].
  intros [= <-]. cbn [Error].
  apply calculate_inv in Hc as (_ & _ & _ & _ & _ & _ & _ & _ & _ & He).
  rewrite He. unfold run. now rewrite fold_recognized_error.
Qed.

(** Two segments recognised, then silence with reason [NoMatch]: the session
    resolves with its scores and with the flag. *)
Lemma error_flag_witness :
  Error ScenarioX.assessmentSilence = Some RecognizedSpeech.
Proof.
  apply (error_flag_is_sticky
           (Scenario.opcodes Scenario.opcodesP) "hello world"
           (Scenario.eventsP ++ [ScenarioX.silence]) ScenarioX.assessmentSilence
           ltac:(vm_compute; reflexivity)).
Defined.

Lemma recognized_wordless st e :
  Words (json e) = [] ->
  recognized st e
  = withStatus st (Some (json e))
      (if isNotRecognizedSpeech e then Some RecognizedSpeech
       else recoginzedError st).
Proof. intros H. unfold recognized, withStatus, isNotRecognizedSpeech. now rewrite H. Qed.

(** ** The text normaliser, character by character *)

Lemma lowerChar_class c :
  Str.inPunctuationClass (Str.lowerChar c) = Str.inPunctuationClass c.
Proof. each_ascii c. Qed.

Lemma lowerChar_bracket c :
  Str.isCloseBracket (Str.lowerChar c) = Str.isCloseBracket c.
Proof. each_ascii c. Qed.

Lemma lowerChar_space c : Str.isSpace (Str.lowerChar c) = Str.isSpace c.
Proof. each_ascii c. Qed.

Lemma lowerChar_idem c : Str.lowerChar (Str.lowerChar c) = Str.lowerChar c.
Proof. each_ascii c. Qed.

Lemma space_is_kept c :
  Str.isSpace c = true ->
  Str.inPunctuationClass c = false /\ Str.isCloseBracket c = false.
Proof. destruct c as [[|] [|] [|] [|] [|] [|] [|] [|]]; try discriminate; auto. Qed.

Lemma isPlain_fixed c :
  isPlain c = true ->
  Str.lowerChar c = c /\ Str.inPunctuationClass c = false
  /\ Str.isCloseBracket c = false.
Proof.
  unfold isPlain. rewrite !andb_true_iff, !negb_true_iff, Nat.eqb_eq.
  intros [[Hc Hb] He]. split; [|auto].
  unfold Str.code in He.
  rewrite <- (ascii_nat_embedding (Str.lowerChar c)), He.
  apply ascii_nat_embedding.
Qed.

Lemma map_app f s t : Str.map f (s ++ t)%string = (Str.map f s ++ Str.map f t)%string.
Proof. induction s as [|c s IH]; cbn; [reflexivity | now rewrite IH]. Qed.

Lemma filter_app p s t :
  Str.filter p (s ++ t)%string = (Str.filter p s ++ Str.filter p t)%string.
Proof.
  induction s as [|c s IH]; cbn; [reflexivity|].
  destruct (p c); cbn; now rewrite IH.
Qed.

Lemma clean_app s t : clean (s ++ t)%string = (clean s ++ clean t)%string.
Proof.
  unfold clean, Str.stripPunctuation, Str.toLocaleLowerCase, Str.toLowerCase.
  now rewrite map_app, !filter_app.
Qed.

Lemma clean_space r : clean (String " " r) = String " " (clean r).
Proof. reflexivity. Qed.

Lemma contains_space_cons c r :
  Str.contains " " (String c r) = Str.isSpace c || Str.contains " " r.
Proof. reflexivity. Qed.

Lemma contains_space_clean s :
  Str.contains " " s = false -> Str.contains " " (clean s) = false.
Proof.
  unfold clean, Str.stripPunctuation, Str.toLocaleLowerCase, Str.toLowerCase.
  induction s as [|c r IH]; [reflexivity|].
  rewrite contains_space_cons, orb_false_iff. intros [Hc Hr].
  specialize (IH Hr). cbn [Str.map Str.filter].
  destruct (negb (Str.inPunctuationClass (Str.lowerChar c))); [|exact IH].
  cbn [Str.filter].
  destruct (negb (Str.isCloseBracket (Str.lowerChar c))); [|exact IH].
  now rewrite contains_space_cons, lowerChar_space, Hc, IH.
Qed.

Lemma split_no_space_one s :
  Str.contains " " s = false -> Str.split s = [s].
Proof.
  induction s as [|c r IH]; [reflexivity|].
  rewrite contains_space_cons, orb_false_iff. intros [Hc Hr].
  cbn [Str.split]. now rewrite Hc, (IH Hr).
Qed.

Lemma split_app_space s r :
  Str.contains " " s = false ->
  Str.split (s ++ String " " r)%string = s :: Str.split r.
Proof.
  induction s as [|c s IH]; [reflexivity|].
  rewrite contains_space_cons, orb_false_iff. intros [Hc Hs].
  cbn [String.append Str.split]. now rewrite Hc, (IH Hs).
Qed.

(** Splitting the cleaned join of words without spaces gives the cleaned
    words back, one piece per word. *)
Lemma split_clean_join (l : list string) :
  l <> [] ->
  Forall (fun w => Str.contains " " w = false) l ->
  Str.split (clean (Str.join l)) = List.map clean l.
Proof.
  intros Hne Hl. induction Hl as [|w l Hw Hl IH]; [contradiction|].
  destruct l as [|w' l].
  - cbn [Str.join List.map]. now apply split_no_space_one, contains_space_clean.
  - change (Str.join (w :: w' :: l))
      with (w ++ String " " (Str.join (w' :: l)))%string.
    rewrite clean_app, clean_space, split_app_space
      by now apply contains_space_clean.
    cbn [List.map]. f_equal. apply IH. discriminate.
Qed.

Lemma allChars_filter p q s :
  allChars p s = true -> allChars p (Str.filter q s) = true.
Proof.
  induction s as [|c r IH]; [reflexivity|]. cbn [allChars Str.filter].
  rewrite andb_true_iff. intros [Hc Hr].
  destruct (q c); cbn [allChars]; [rewrite Hc|]; auto.
Qed.

Lemma allChars_split p s :
  allChars p s = true -> Forall (fun t => allChars p t = true) (Str.split s).
Proof.
  induction s as [|c r IH]; cbn [allChars Str.split].
  - repeat constructor.
  - rewrite andb_true_iff. intros [Hc Hr]. specialize (IH Hr).
    destruct (Str.isSpace c); [constructor; [reflexivity | exact IH]|].
    destruct (Str.split r) as [|t ts].
    + repeat constructor. cbn. now rewrite Hc.
    + inversion IH as [|? ? Ht Hts]; subst. constructor; [|exact Hts].
      cbn. now rewrite Hc, Ht.
Qed.

Lemma allChars_trimStart p s :
  allChars p s = true -> allChars p (Str.trimStart s) = true.
Proof.
  induction s as [|c r IH]; [reflexivity|]. cbn [allChars Str.trimStart].
  rewrite andb_true_iff. intros [Hc Hr].
  destruct (Str.isWhiteSpace c); [auto|]. cbn. now rewrite Hc, Hr.
Qed.

Lemma allChars_trimEnd p s :
  allChars p s = true -> allChars p (Str.trimEnd s) = true.
Proof.
  induction s as [|c r IH]; [reflexivity|]. cbn [allChars Str.trimEnd].
  rewrite andb_true_iff. intros [Hc Hr].
  destruct (Str.isWhiteSpace c && Str.isEmpty (Str.trimEnd r)); [reflexivity|].
  cbn. now rewrite Hc, IH.
Qed.

Lemma allChars_trim p s : allChars p s = true -> allChars p (Str.trim s) = true.
Proof. intros H. now apply allChars_trimStart, allChars_trimEnd. Qed.

(** What is left after cleaning is plain. *)
Lemma clean_is_plain s : allChars isPlain (clean s) = true.
Proof.
  unfold clean, Str.stripPunctuation, Str.toLocaleLowerCase, Str.toLowerCase.
  induction s as [|c r IH]; [reflexivity|]. cbn [Str.map Str.filter].
  destruct (negb (Str.inPunctuationClass (Str.lowerChar c))) eqn:Hc; [|exact IH].
  cbn [Str.filter].
  destruct (negb (Str.isCloseBracket (Str.lowerChar c))) eqn:Hb; [|exact IH].
  cbn [allChars]. rewrite IH, andb_true_r.
  unfold isPlain. now rewrite Hc, Hb, lowerChar_idem, Nat.eqb_refl.
Qed.

(** Cleaning leaves a plain string as it is. *)
Lemma clean_plain s : allChars isPlain s = true -> clean s = s.
Proof.
  unfold clean, Str.stripPunctuation, Str.toLocaleLowerCase, Str.toLowerCase.
  induction s as [|c r IH]; [reflexivity|]. cbn [allChars].
  rewrite andb_true_iff. intros [Hc Hr].
  apply isPlain_fixed in Hc as (Hl & Hp & Hb).
  cbn [Str.map Str.filter]. rewrite Hl, Hp. cbn [negb Str.filter].
  rewrite Hb. cbn [negb]. now rewrite (IH Hr).
Qed.

Lemma split_all_empty s :
  forallb Str.isEmpty (Str.split s) = allChars Str.isSpace s.
Proof.
  induction s as [|c r IH]; [reflexivity|]. cbn [Str.split allChars].
  destruct (Str.isSpace c); [exact IH|].
  now destruct (Str.split r).
Qed.

Lemma clean_all_space s :
  allChars Str.isSpace (clean s) = allChars isDropped s.
Proof.
  unfold clean, Str.stripPunctuation, Str.toLocaleLowerCase, Str.toLowerCase.
  induction s as [|c r IH]; [reflexivity|].
  cbn [Str.map Str.filter allChars]. unfold isDropped at 1.
  rewrite lowerChar_class.
  destruct (Str.inPunctuationClass c) eqn:Hc; cbn [negb orb andb]; [exact IH|].
  cbn [Str.filter]. rewrite lowerChar_bracket.
  destruct (Str.isCloseBracket c) eqn:Hb; cbn [negb orb andb]; [exact IH|].
  cbn [allChars]. now rewrite lowerChar_space, IH.
Qed.

Lemma filter_nil_forallb {A : Type} (p : A -> bool) (l : list A) :
  List.filter (fun x => negb (p x)) l = [] <-> forallb p l = true.
Proof.
  induction l as [|x l IH]; cbn; [tauto|].
  destruct (p x); cbn; [exact IH|]. split; discriminate.
Qed.

Lemma toLowerCase_idem s : Str.toLowerCase (Str.toLowerCase s) = Str.toLowerCase s.
Proof.
  unfold Str.toLowerCase. induction s as [|c r IH]; [reflexivity|].
  cbn. now rewrite lowerChar_idem, IH.
Qed.

Lemma contains_space_toLowerCase s :
  Str.contains " " (Str.toLowerCase s) = Str.contains " " s.
Proof.
  unfold Str.toLowerCase. induction s as [|c r IH]; [reflexivity|].
  cbn [Str.map]. now rewrite !contains_space_cons, lowerChar_space, IH.
Qed.

Lemma resTextArray_run (events : list RecognitionEvent) :
  allEventWords events <> [] ->
  Forall (fun w => Str.contains " " (Word w) = false) (allEventWords events) ->
  resTextArray (currentText (run events))
  = List.map (fun w => Str.stripPunctuation (Str.toLocaleLowerCase (Word w)))
      (allEventWords events).
Proof.
  intros Hne Hsp.
  destruct (fold_recognized_spec events initialState eq_refl) as (_ & _ & Ht).
  fold (run events) in Ht. cbn in Ht. fold (allEventWords events) in Ht.
  unfold resTextArray. rewrite Ht.
  fold (clean (Str.join (List.map (fun item => Str.toLowerCase (Word item))
                           (allEventWords events)))).
  rewrite split_clean_join.
  - rewrite List.map_map. apply List.map_ext. intros w.
    unfold clean, Str.toLocaleLowerCase. now rewrite toLowerCase_idem.
  - destruct (allEventWords events); [contradiction | discriminate].
  - apply List.Forall_forall. intros t Hin.
    apply in_map_iff in Hin as (w & <- & Hin).
    rewrite contains_space_toLowerCase.
    rewrite List.Forall_forall in Hsp. now apply Hsp.
Qed.

(** X9.  When at least one word was received and no word holds a space, the
    recognised text splits into exactly one token per word received, in
    order: token [j] is word [j], lowercased and stripped of punctuation
    (possibly down to the empty token).  This is what lets the classifier use
    an index of the recognised text as an index into the word arrays. *)
Theorem one_token_per_recognised_word (events : list RecognitionEvent) :
  allEventWords events <> [] ->
  Forall (fun w => Str.contains " " (Word w) = false) (allEventWords events) ->
  resTextArray (currentText (run events))
  = List.map (fun w => Str.stripPunctuation (Str.toLocaleLowerCase (Word w)))
      (allEventWords events)
  /\ length (resTextArray (currentText (run events)))
     = length (recognizedWords (run events)).
Proof.
  intros Hne Hsp.
  pose proof (resTextArray_run events Hne Hsp) as E.
  destruct (fold_recognized_spec events initialState eq_refl) as (Ha & Hh & _).
  fold (run events) in Ha, Hh. cbn in Hh. fold (allEventWords events) in Hh.
  split; [exact E|].
  rewrite E, length_map. unfold allocatedInOrder in Ha.
  now rewrite Ha, length_seq, Hh.
Qed.

Lemma one_token_per_word_witness :
  resTextArray (currentText (run Scenario.eventsC))
  = ["the"; "quick"; "very"; "brown"; "fox"]
  /\ length (recognizedWords (run Scenario.eventsC)) = 5.
Proof.
  destruct (one_token_per_recognised_word Scenario.eventsC
              ltac:(vm_compute; discriminate)
              ltac:(vm_compute; repeat constructor)) as [H1 H2].
  split; [rewrite H1; reflexivity | rewrite <- H2, H1; reflexivity].
Defined.

(** X10.  The normalised reference has no token at all exactly when every
    character of the reference text is a character of the punctuation class,
    a closing bracket or a space: these are the references for which the
    completeness score divides by zero. *)
Theorem reference_without_tokens (referenceText : string) :
  wholelyricsArryRes referenceText = []
  <-> allChars isDropped referenceText = true.
Proof.
  unfold wholelyricsArryRes, wholelyricsArry. fold (clean referenceText).
  rewrite <- clean_all_space, <- split_all_empty, <- filter_nil_forallb.
  destruct (List.filter _ _); cbn; split; intros H; try reflexivity;
    discriminate.
Qed.


Lemma tokens_plain_reference (referenceText : string) :
  Forall (fun t => allChars isPlain t = true) (wholelyricsArryRes referenceText).
Proof.
  unfold wholelyricsArryRes, wholelyricsArry. fold (clean referenceText).
  apply List.Forall_forall. intros t Ht.
  apply in_map_iff in Ht as (p & <- & Hp).
  apply filter_In in Hp as [Hp _].
  apply allChars_trim.
  pose proof (allChars_split isPlain _ (clean_is_plain referenceText)) as H.
  rewrite List.Forall_forall in H. now apply H.
Qed.

Lemma normaliser_tokens_facts (referenceText : string) :
  Forall (fun t => Str.trim t = t) (wholelyricsArryRes referenceText)
  /\ Forall (fun t => Str.contains " " t = false) (wholelyricsArryRes referenceText).
Proof.
  unfold wholelyricsArryRes, wholelyricsArry.
  split; apply List.Forall_forall; intros t Ht;
    apply in_map_iff in Ht as (p & <- & Hp);
    apply filter_In in Hp as [Hp _].
  - apply trim_idem.
  - apply contains_trim.
    pose proof (split_no_space
                  (Str.stripPunctuation (Str.toLocaleLowerCase referenceText))) as H.
    rewrite List.Forall_forall in H. now apply H.
Qed.

(** X11.  Every token of the normalised reference and every token of the
    recognised text is plain: it holds no character of the punctuation
    class, no closing bracket and no letter that lowercasing would change.
    The comparison of the two texts is therefore blind to case and to this
    punctuation. *)
Theorem tokens_are_plain (referenceText : string) (currentText : list string) :
  Forall (fun t => allChars isPlain t = true) (wholelyricsArryRes referenceText)
  /\ Forall (fun t => allChars isPlain t = true) (resTextArray currentText).
Proof.
  split; [apply tokens_plain_reference|].
  unfold resTextArray. fold (clean (Str.join currentText)).
  apply allChars_split, clean_is_plain.
Qed.

(** X12.  Normalising is idempotent on a reference whose tokens are all
    non-empty: joining the tokens with single spaces and normalising again
    gives the same tokens. *)
Theorem normalising_twice (referenceText : string) :
  Forall (fun t => t <> EmptyString) (wholelyricsArryRes referenceText) ->
  wholelyricsArryRes (Str.join (wholelyricsArryRes referenceText))
  = wholelyricsArryRes referenceText.
Proof.
  intros Hne.
  destruct (normaliser_tokens_facts referenceText) as (Htrim & Hsp).
  pose proof (tokens_plain_reference referenceText) as Hplain.
  remember (wholelyricsArryRes referenceText) as l eqn:El. clear El.
  assert (Hclean : List.map clean l = l).
  { clear -Hplain. induction Hplain as [|x l Hx _ IH]; [reflexivity|].
    cbn. now rewrite (clean_plain x Hx), IH. }
  assert (Hfilter : List.filter (fun item => negb (Str.isEmpty item)) l = l).
  { clear -Hne. induction Hne as [|x l Hx _ IH]; [reflexivity|].
    cbn. destruct x; [contradiction|]. cbn. now rewrite IH. }
  assert (Htrimmed : List.map Str.trim l = l).
  { clear -Htrim. induction Htrim as [|x l Hx _ IH]; [reflexivity|].
    cbn. now rewrite Hx, IH. }
  destruct (list_eq_nil_dec l) as [->|Hnil]; [reflexivity|].
  unfold wholelyricsArryRes, wholelyricsArry. fold (clean (Str.join l)).
  rewrite (split_clean_join l Hnil Hsp), Hclean, Hfilter. exact Htrimmed.
Qed.

Lemma normalising_twice_witness :
  wholelyricsArryRes (Str.join (wholelyricsArryRes "The quick, brown fox!"))
  = ["the"; "quick"; "brown"; "fox"].
Proof.
  rewrite (normalising_twice "The quick, brown fox!"
             ltac:(vm_compute; repeat constructor; discriminate)).
  reflexivity.
Defined.

(** ** When the classifier throws *)

Lemma forEach_None {A S : Type} (body : S -> A -> option S) (l : list A) (x : A) :
  In x l -> (forall s, body s x = None) -> forall s, forEach body l s = None.
Proof.
  intros Hin Hx. induction l as [|y l IH]; [contradiction|].
  intros s. cbn [forEach]. destruct Hin as [->|Hin].
  - now rewrite Hx.
  - destruct (body s y); [now apply IH | reflexivity].
Qed.

Lemma forEach_Some {A S : Type} (P : S -> Prop) (body : S -> A -> option S)
  (l : list A) :
  (forall s x, In x l -> P s -> exists s', body s x = Some s' /\ P s') ->
  forall s, P s -> exists s', forEach body l s = Some s' /\ P s'.
Proof.
  induction l as [|y l IH]; intros Hbody s Hs; cbn [forEach]; [eauto|].
  destruct (Hbody s y (or_introl eq_refl) Hs) as (s1 & -> & Hs1).
  apply IH; [|exact Hs1]. intros s0 x Hx. apply Hbody. now right.
Qed.

Lemma deref_length_valid h addrs :
  validAddresses h addrs -> length (deref h addrs) = length addrs.
Proof.
  unfold deref. induction 1 as [|a l Ha _ IH]; [reflexivity|].
  cbn [omap list_omap]. fold (omap (fun a => h !! a) l).
  apply lookup_lt_is_Some in Ha as [w Hw]. rewrite Hw. cbn. now rewrite IH.
Qed.

Section Throwing.

Variable reference : list string.
Variable allWords_ : list nat.
Variable terminal : bool.

Lemma markInsertion_out_of_range j :
  allWords_ <> [] -> length allWords_ <= j ->
  forall s, markInsertion allWords_ s j = None.
Proof.
  intros Hne Hj [h lw]. unfold markInsertion.
  assert (Hpos : (0 <? length allWords_) = true).
  { apply Nat.ltb_lt. destruct allWords_; [contradiction | cbn; lia]. }
  rewrite Hpos. now rewrite (lookup_ge_None_2 allWords_ j Hj).
Qed.

Lemma markInsertion_in_range j h lw :
  allWords_ = [] \/ j < length allWords_ ->
  validAddresses h allWords_ ->
  exists h' lw', markInsertion allWords_ (h, lw) j = Some (h', lw')
                 /\ length h' = length h.
Proof.
  intros Hj Hv. unfold markInsertion.
  destruct (0 <? length allWords_) eqn:Hpos; [|eauto].
  destruct Hj as [->|Hj]; [discriminate|].
  apply lookup_lt_is_Some in Hj as [a Ha]. rewrite Ha.
  assert (Hlt : a < length h).
  { unfold validAddresses in Hv. rewrite List.Forall_forall in Hv. apply Hv.
    apply list_elem_of_In. eapply list_elem_of_lookup_2. exact Ha. }
  apply lookup_lt_is_Some in Hlt as [w Hw]. rewrite Hw.
  do 2 eexists. split; [reflexivity|].
  destruct (negb _); [apply length_insert | reflexivity].
Qed.

Lemma validAddresses_length (h h' : list WordObj) :
  length h' = length h -> validAddresses h allWords_ -> validAddresses h' allWords_.
Proof. unfold validAddresses. intros ->. auto. Qed.

Lemma classifyBlock_in_range d h lw :
  allWords_ = []
  \/ (negb (isInsertOrReplace (d0 d)) || (d4 d <=? length allWords_)
      || (d4 d <=? d3 d)) = true ->
  validAddresses h allWords_ ->
  exists s', classifyBlock reference allWords_ terminal (h, lw) d = Some s'
             /\ validAddresses (fst s') allWords_.
Proof.
  intros Hd Hv. unfold classifyBlock.
  assert (Hloop : exists s1,
            (if isInsertOrReplace (d0 d)
             then forEach (markInsertion allWords_) (range (d3 d) (d4 d)) (h, lw)
             else Some (h, lw)) = Some s1
            /\ validAddresses (fst s1) allWords_).
  { destruct (isInsertOrReplace (d0 d)) eqn:Hins; [|eauto].
    apply (forEach_Some (fun s => validAddresses (fst s) allWords_));
      [|exact Hv].
    intros [h1 lw1] j Hj Hv1. cbn [fst] in Hv1.
    destruct (markInsertion_in_range j h1 lw1) as (h' & lw' & E & Hlen);
      [|exact Hv1|].
    - destruct Hd as [Hd|Hd]; [now left|]. right.
      unfold range in Hj. apply in_seq in Hj.
      cbn [negb orb] in Hd. apply orb_true_iff in Hd as [Hd|Hd].
      + apply Nat.leb_le in Hd. lia.
      + apply Nat.leb_le in Hd. lia.
    - exists (h', lw'). split; [exact E|]. cbn [fst].
      now apply (validAddresses_length h1). }
  destruct Hloop as ([h1 lw1] & -> & Hv1). cbn [fst snd] in *.
  destruct (isDeleteOrReplace (d0 d) && skipsOmissions reference terminal d);
    [eauto|].
  eexists. split; [reflexivity|].
  destruct (isDeleteOrReplace (d0 d)), (isEqual (d0 d)); exact Hv1.
Qed.

Lemma classifyBlock_out_of_range d :
  allWords_ <> [] ->
  (negb (isInsertOrReplace (d0 d)) || (d4 d <=? length allWords_)
   || (d4 d <=? d3 d)) = false ->
  forall s, classifyBlock reference allWords_ terminal s d = None.
Proof.
  intros Hne Hd s. rewrite !orb_false_iff, negb_false_iff in Hd.
  destruct Hd as [[Hins H4] H3].
  apply Nat.leb_gt in H4. apply Nat.leb_gt in H3.
  unfold classifyBlock. rewrite Hins.
  rewrite (forEach_None (markInsertion allWords_) (range (d3 d) (d4 d)) (d4 d - 1));
    [reflexivity| |].
  - unfold range. apply in_seq. lia.
  - apply markInsertion_out_of_range; [exact Hne | lia].
Qed.

(** The classifier throws exactly when, with a non-empty [allWords], some
    [insert] or [replace] block has a non-empty range that reaches beyond
    [allWords]. *)
Lemma classify_throws_iff ops h :
  validAddresses h allWords_ ->
  classify reference allWords_ terminal ops h = None
  <-> allWords_ <> [] /\ insertionsInRange (length allWords_) ops = false.
Proof.
  intros Hv. unfold classify. generalize (@nil LastWord) as lw.
  revert h Hv. induction ops as [|d ops IH]; intros h Hv lw.
  - cbn. split; [discriminate | intros [_ [=]]].
  - cbn [forEach insertionsInRange forallb].
    destruct (list_eq_nil_dec allWords_) as [Hnil|Hne].
    + destruct (classifyBlock_in_range d h lw (or_introl Hnil) Hv)
        as ([h1 lw1] & -> & Hv1).
      rewrite (IH h1 Hv1 lw1). unfold insertionsInRange. tauto.
    + destruct (negb (isInsertOrReplace (d0 d)) || (d4 d <=? length allWords_)
                || (d4 d <=? d3 d)) eqn:Hd.
      * destruct (classifyBlock_in_range d h lw (or_intror Hd) Hv)
          as ([h1 lw1] & -> & Hv1).
        rewrite (IH h1 Hv1 lw1). unfold insertionsInRange. cbn [andb]. tauto.
      * rewrite (classifyBlock_out_of_range d Hne Hd). cbn [andb]. tauto.
Qed.

End Throwing.

(** X13.  The finalisation of a session throws, so that the promise is
    never settled and the request never answered, exactly when [allWords] is
    not empty and some [insert] or [replace] block of the matcher has a
    non-empty range of the recognised text that reaches beyond [allWords].
    In every other session the promise is resolved with an assessment. *)
Theorem finalisation_throws_iff
  (getOpcodes : list string -> list string -> list Opcode)
  (referenceText : string) (events : list RecognitionEvent) :
  let st := run events in
  let ops := getOpcodes (wholelyricsArryRes referenceText)
               (resTextArray (currentText st)) in
  (continueRecognize getOpcodes referenceText events = NeverSettled
   <-> allWords st <> []
       /\ insertionsInRange (length (allWords st)) ops = false)
  /\ (continueRecognize getOpcodes referenceText events <> NeverSettled ->
      exists a, continueRecognize getOpcodes referenceText events
                = Resolved (ContinuousResult a)).
Proof.
  cbn zeta.
  destruct (fold_recognized_allWords events initialState) as [Hv _];
    [constructor|].
  cbn zeta in Hv. fold (run events) in Hv.
  pose proof (classify_throws_iff (wholelyricsArryRes referenceText)
                (allWords (run events)) (statusIsTerminal (jo (run events)))
                (getOpcodes (wholelyricsArryRes referenceText)
                   (resTextArray (currentText (run events))))
                (heap (run events)) Hv) as Hiff.
  unfold continueRecognize, sessionStopped, calculateOverallPronunciationScore.
  destruct (classify _ _ _ _ _) as [[h lw]|].
  - split.
    + split; [discriminate|]. intros H. apply Hiff in H. discriminate H.
    + intros _. eauto.
  - split.
    + split; [intros _; now apply Hiff | reflexivity].
    + intros H. now contradiction H.
Qed.

Lemma successWords_all events :
  forallb isSuccess events = true -> successWords events = allEventWords events.
Proof.
  unfold successWords, allEventWords, isSuccess.
  induction events as [|e events IH]; [reflexivity|].
  cbn [forallb List.map concat]. rewrite andb_true_iff. intros [He Hes].
  now rewrite He, (IH Hes).
Qed.

(** X14.  With a matcher whose blocks stay inside the recognised text it is
    given, a session whose events all have status [Success] and whose words
    hold no space never throws: its promise is resolved with an
    assessment. *)
Theorem success_sessions_resolve
  (getOpcodes : list string -> list string -> list Opcode)
  (referenceText : string) (events : list RecognitionEvent) :
  (forall a b d, In d (getOpcodes a b) -> d4 d <= length b) ->
  forallb isSuccess events = true ->
  Forall (fun w => Str.contains " " (Word w) = false) (allEventWords events) ->
  exists a, continueRecognize getOpcodes referenceText events
            = Resolved (ContinuousResult a).
Proof.
  intros Hg Hsucc Hsp.
  destruct (fold_recognized_allWords events initialState) as [Hv Hd];
    [constructor|].
  cbn zeta in Hv, Hd. fold (run events) in Hv, Hd. cbn in Hd.
  fold (successWords events) in Hd. rewrite (successWords_all events Hsucc) in Hd.
  pose proof (deref_length_valid _ _ Hv) as Hlen. rewrite Hd in Hlen.
  pose proof (classify_throws_iff (wholelyricsArryRes referenceText)
                (allWords (run events)) (statusIsTerminal (jo (run events)))
                (getOpcodes (wholelyricsArryRes referenceText)
                   (resTextArray (currentText (run events))))
                (heap (run events)) Hv) as Hiff.
  unfold continueRecognize, sessionStopped, calculateOverallPronunciationScore.
  destruct (classify _ _ _ _ _) as [[h lw]|]; [eauto|].
  exfalso. destruct (proj1 Hiff eq_refl) as [Hne Hrange].
  assert (Hwords : allEventWords events <> []).
  { intros E. rewrite E in Hlen. destruct (allWords (run events)); [now apply Hne | discriminate]. }
  pose proof (resTextArray_run events Hwords Hsp) as E.
  assert (Hin : insertionsInRange (length (allWords (run events)))
                  (getOpcodes (wholelyricsArryRes referenceText)
                     (resTextArray (currentText (run events)))) = true).
  { unfold insertionsInRange. apply forallb_forall. intros d Hdin.
    apply Hg in Hdin. rewrite E, length_map, Hlen in Hdin.
    apply orb_true_iff. left. apply orb_true_iff. right.
    now apply Nat.leb_le. }
  congruence.
Qed.

Lemma success_sessions_witness :
  exists a, continueRecognize ScenarioX.replaceAll "The quick brown fox"
              Scenario.eventsC = Resolved (ContinuousResult a).
Proof.
  apply (success_sessions_resolve ScenarioX.replaceAll "The quick brown fox"
           Scenario.eventsC).
  - intros a b d [<-|[]]. cbn. lia.
  - reflexivity.
  - vm_compute. repeat constructor.
Defined.

(** ** What the finalisation changes *)

Section Untouched.

Variable reference : list string.
Variable allWords_ : list nat.
Variable terminal : bool.

Lemma markInsertion_untouched h lw j h' lw' :
  markInsertion allWords_ (h, lw) j = Some (h', lw') ->
  forall b, ~ In b allWords_ -> h' !! b = h !! b.
Proof.
  unfold markInsertion.
  destruct (0 <? length allWords_); [|now intros [= <- <-]].
  destruct (allWords_ !! j) as [a|] eqn:Ha; [|discriminate].
  destruct (h !! a) as [w|]; [|discriminate].
  intros [= <- <-] b Hb.
  destruct (negb _); [|reflexivity].
  apply list_lookup_insert_ne. intros ->. apply Hb.
  apply list_elem_of_In. eapply list_elem_of_lookup_2. exact Ha.
Qed.

Lemma markInsertion_loop_untouched js : forall h lw h' lw',
  forEach (markInsertion allWords_) js (h, lw) = Some (h', lw') ->
  forall b, ~ In b allWords_ -> h' !! b = h !! b.
Proof.
  induction js as [|j js IH]; intros h lw h' lw'; cbn [forEach].
  - now intros [= <- <-].
  - destruct (markInsertion allWords_ (h, lw) j) as [[h1 lw1]|] eqn:H1;
      [|discriminate].
    intros H2 b Hb. rewrite (IH _ _ _ _ H2 b Hb).
    exact (markInsertion_untouched _ _ _ _ _ H1 b Hb).
Qed.

Lemma classifyBlock_untouched h lw d h' lw' :
  classifyBlock reference allWords_ terminal (h, lw) d = Some (h', lw') ->
  forall b, ~ In b allWords_ -> h' !! b = h !! b.
Proof.
  unfold classifyBlock.
  destruct (isInsertOrReplace (d0 d)).
  - destruct (forEach _ _ _) as [[h1 lw1]|] eqn:Hloop; [|discriminate].
    intros H b Hb. rewrite <- (markInsertion_loop_untouched _ _ _ _ _ Hloop b Hb).
    destruct (isDeleteOrReplace (d0 d) && skipsOmissions reference terminal d);
      [now injection H as <- <-|].
    destruct (isDeleteOrReplace (d0 d)), (isEqual (d0 d));
      now injection H as <- <-.
  - intros H b Hb.
    destruct (isDeleteOrReplace (d0 d) && skipsOmissions reference terminal d);
      [now injection H as <- <-|].
    destruct (isDeleteOrReplace (d0 d)), (isEqual (d0 d));
      now injection H as <- <-.
Qed.

Lemma classify_untouched ops : forall h lw h' lw',
  forEach (classifyBlock reference allWords_ terminal) ops (h, lw) = Some (h', lw') ->
  forall b, ~ In b allWords_ -> h' !! b = h !! b.
Proof.
  induction ops as [|d ops IH]; intros h lw h' lw'; cbn [forEach].
  - now intros [= <- <-].
  - destruct (classifyBlock reference allWords_ terminal (h, lw) d)
      as [[h1 lw1]|] eqn:H1; [|discriminate].
    intros H2 b Hb. rewrite (IH _ _ _ _ H2 b Hb).
    exact (classifyBlock_untouched _ _ _ _ _ H1 b Hb).
Qed.

End Untouched.

Lemma sameOrRetagged_fields w' w :
  sameOrRetagged w' w ->
  Word w' = Word w /\ Offset w' = Offset w /\ Duration w' = Duration w
  /\ AccuracyScore w' = AccuracyScore w
  /\ (ErrorType w' = ErrorType w \/ ErrorType w' = "Insertion").
Proof. intros [->| ->]; cbn; auto 10. Qed.

(** X15.  All that the finalisation changes in the accumulated state is the
    tag of words: the heap keeps its length; every word keeps its text,
    offset, duration and accuracy score, and its tag either stays or becomes
    [Insertion]; a word that is not in [allWords] (a word of an event whose
    status is not [Success]) is not changed at all; and the arrays of
    addresses, the text and the per-segment arrays are as before. *)
Theorem finalisation_only_retags
  (getOpcodes : list string -> list string -> list Opcode)
  (referenceText : string) (st st' : State) (pronScore : number) :
  calculateOverallPronunciationScore getOpcodes referenceText st
  = Some (st', pronScore) ->
  length (heap st') = length (heap st)
  /\ (forall a w, heap st !! a = Some w ->
        exists w', heap st' !! a = Some w'
          /\ Word w' = Word w /\ Offset w' = Offset w
          /\ Duration w' = Duration w /\ AccuracyScore w' = AccuracyScore w
          /\ (ErrorType w' = ErrorType w \/ ErrorType w' = "Insertion"))
  /\ (forall a, ~ In a (allWords st) -> heap st' !! a = heap st !! a)
  /\ allWords st' = allWords st
  /\ recognizedWords st' = recognizedWords st
  /\ currentText st' = currentText st
  /\ fluencyScores st' = fluencyScores st
  /\ prosodyScores st' = prosodyScores st
  /\ durations st' = durations st
  /\ startOffset st' = startOffset st
  /\ jo st' = jo st
  /\ recoginzedError st' = recoginzedError st.
Proof.
  unfold calculateOverallPronunciationScore.
  destruct (classify _ _ _ _ _) as [[h lw]|] eqn:Hcl; [|discriminate].
  intros [= <- <-]. cbn.
  pose proof (classifyBlock_loop _ _ _ _ _ _ _ _ Hcl) as [_ [Hlen Hre]].
  split; [now symmetry|]. split; [|split; [|repeat split]].
  - intros a w Hw. destruct (Hre a w Hw) as (w' & Hw' & Hs).
    exists w'. split; [exact Hw'|]. now apply sameOrRetagged_fields.
  - exact (classify_untouched _ _ _ _ _ _ _ _ Hcl).
Qed.

Lemma finalisation_only_retags_witness :
  length (heap (fst Scenario.finalR)) = 4
  /\ allWords (fst Scenario.finalR) = [0; 1; 2; 3].
Proof.
  destruct (finalisation_only_retags
              (Scenario.opcodes Scenario.opcodesR) "The quick brown fox"
              (run Scenario.eventsR) (fst Scenario.finalR) (snd Scenario.finalR)
              ltac:(vm_compute; reflexivity))
    as (Hlen & _ & _ & Haw & _).
  split; [rewrite Hlen; reflexivity | rewrite Haw; reflexivity].
Defined.

Lemma deref_retagged h h' addrs :
  retagged h h' -> validAddresses h addrs ->
  Forall2 sameOrRetagged (deref h' addrs) (deref h addrs).
Proof.
  intros [_ Hre] Hv. unfold deref.
  induction Hv as [|a l Ha _ IH]; [constructor|].
  cbn [omap list_omap].
  fold (omap (fun a => h !! a) l). fold (omap (fun a => h' !! a) l).
  apply lookup_lt_is_Some in Ha as [w Hw].
  destruct (Hre a w Hw) as (w' & Hw' & Hs).
  rewrite Hw, Hw'. cbn. constructor; [exact Hs | exact IH].
Qed.

(** X16.  The [Words] of the resolved value are the words of the events
    whose status is [Success], in arrival order, each as received or retagged
    [Insertion]; the words of the other events are not returned.  Their
    number is what the handler compares with 1. *)
Theorem returned_words
  (getOpcodes : list string -> list string -> list Opcode)
  (referenceText : string) (events : list RecognitionEvent) (a : Assessment) :
  continueRecognize getOpcodes referenceText events
  = Resolved (ContinuousResult a) ->
  Forall2 sameOrRetagged (Words_ a) (successWords events)
  /\ length (Words_ a) = length (successWords events)
  /\ List.map Word (Words_ a) = List.map Word (successWords events).
Proof.
  unfold continueRecognize, sessionStopped, calculateOverallPronunciationScore.
  destruct (classify _ _ _ _ _) as [[h lw]|] eqn:Hcl; [|discriminate].
  intros [= <-]. cbn [Words_ heap allWords].
  destruct (fold_recognized_allWords events initialState) as [Hv Hd];
    [constructor|].
  cbn zeta in Hv, Hd. fold (run events) in Hv, Hd. cbn in Hd.
  fold (successWords events) in Hd.
  pose proof (classifyBlock_loop _ _ _ _ _ _ _ _ Hcl) as [_ R].
  pose proof (deref_retagged _ _ _ R Hv) as HF. rewrite Hd in HF.
  split; [exact HF|]. split; [exact (Forall2_length _ _ _ HF)|].
  clear -HF. induction HF as [|w' w l' l Hs _ IH]; [reflexivity|].
  cbn. rewrite IH. f_equal. now apply sameOrRetagged_fields in Hs.
Qed.

Lemma returned_words_witness :
  List.map Word (Words_ ScenarioX.assessmentMixed) = ["hello"]
  /\ length (Words_ ScenarioX.assessmentMixed) = 1.
Proof.
  destruct (returned_words (Scenario.opcodes Scenario.opcodesP) "hello world"
              ScenarioX.eventsMixed ScenarioX.assessmentMixed
              ltac:(vm_compute; reflexivity)) as (_ & Hlen & Hw).
  split; [rewrite Hw; reflexivity | rewrite Hlen; reflexivity].
Defined.

(** ** The scores at the edges *)




Lemma computeCompScore_zero (n : nat) :
  computeCompScore n 0 = if n =? 0 then NaN else Num 100.
Proof.
  destruct n as [|n]; [reflexivity|].
  unfold computeCompScore, ofNat. cbn [Number.div].
  change (Number.sgn (inject_Z (Z.of_nat 0))) with Eq. cbn [Nat.eqb].
  rewrite (sgn_ofNat_pos (S n)) by discriminate. reflexivity.
Qed.

(** X18.  When the normalised reference has no token, the division by its
    length is not guarded: the completeness score is [NaN] when no
    accumulated word is tagged [None] after the classification, and 100 (the
    cap of [Infinity]) when at least one is. *)
Theorem completeness_without_reference
  (getOpcodes : list string -> list string -> list Opcode)
  (referenceText : string) (st st' : State) (pronScore : number) :
  calculateOverallPronunciationScore getOpcodes referenceText st
  = Some (st', pronScore) ->
  wholelyricsArryRes referenceText = [] ->
  compScore (scoreNumber st')
  = if length (recognizedWordsRes (heap st') (recognizedWords st')) =? 0
    then NaN else Num 100.
Proof.
  intros Hc Href.
  apply calculate_inv in Hc as (_ & _ & _ & Hcomp & _ & _ & _ & _ & Hrw & _).
  cbn zeta in Hcomp. rewrite Hcomp, Href, Hrw. apply computeCompScore_zero.
Qed.

Lemma completeness_without_reference_witness :
  compScore (scoreNumber (fst ScenarioX.finalE)) = NaN.
Proof.
  rewrite (completeness_without_reference
             (Scenario.opcodes Scenario.opcodesE) "!" (run Scenario.eventsE)
             (fst ScenarioX.finalE) (snd ScenarioX.finalE)
             ltac:(vm_compute; reflexivity) eq_refl).
  reflexivity.
Defined.

Lemma computePronScore_NaN (terminal : bool) (s : ScoreNumber) :
  (if terminal then exists k, getScore s k = NaN
   else accuracyScore s = NaN \/ fluencyScore s = NaN \/ prosodyScore s = NaN) ->
  computePronScore terminal s = NaN.
Proof.
  unfold computePronScore. destruct terminal.
  - intros [k Hk].
    destruct (sorted_scoreKeys s) as (k0 & k1 & k2 & k3 & E & Hperm & _).
    cbn zeta in E. rewrite E. unfold scoreAt. cbn [lookup list_lookup].
    apply weighted_sum_NaN.
    assert (Hin : In k [k0; k1; k2; k3]).
    { apply (Permutation_in k (Permutation_sym Hperm)).
      destruct k; cbn; auto. }
    destruct Hin as [<-|[<-|[<-|[<-|[]]]]]; auto.
  - intros H.
    destruct (accuracyScore s), (fluencyScore s), (prosodyScore s);
      destruct H as [H|[H|H]]; try discriminate H; reflexivity.
Qed.

(** X19.  [NaN] goes through to the overall score: with status [Success]
    or [Failed], as soon as one of the four scores is [NaN]; otherwise, as
    soon as the accuracy, the fluency or the prosody score is ([NaN] as
    completeness alone does not reach the overall score then). *)
Theorem overall_score_NaN
  (getOpcodes : list string -> list string -> list Opcode)
  (referenceText : string) (st st' : State) (pronScore : number) :
  calculateOverallPronunciationScore getOpcodes referenceText st
  = Some (st', pronScore) ->
  (if statusIsTerminal (jo st)
   then exists k, getScore (scoreNumber st') k = NaN
   else accuracyScore (scoreNumber st') = NaN
        \/ fluencyScore (scoreNumber st') = NaN
        \/ prosodyScore (scoreNumber st') = NaN) ->
  pronScore = NaN.
Proof.
  intros Hc H.
  apply calculate_inv in Hc as (_ & _ & _ & _ & _ & _ & Hp & _).
  cbn zeta in Hp. rewrite Hp. now apply computePronScore_NaN.
Qed.

Lemma overall_score_NaN_witness : snd ScenarioX.finalE = NaN.
Proof.
  apply (overall_score_NaN
           (Scenario.opcodes Scenario.opcodesE) "!" (run Scenario.eventsE)
           (fst ScenarioX.finalE) (snd ScenarioX.finalE)
           ltac:(vm_compute; reflexivity)).
  exists kCompScore. reflexivity.
Defined.

Lemma accumulated_nil_wordless events :
  accumulated events = [] -> Forall (fun e => Words (json e) = []) events.
Proof.
  unfold accumulated. induction events as [|e events IH]; [constructor|].
  cbn [List.filter]. destruct (Words (json e)) eqn:E; [|discriminate].
  intros H. constructor; [exact E | now apply IH].
Qed.

Lemma fold_recognized_wordless events : forall st,
  Forall (fun e => Words (json e) = []) events ->
  let st' := fold_left recognized events st in
  heap st' = heap st /\ allWords st' = allWords st
  /\ recognizedWords st' = recognizedWords st
  /\ startOffset st' = startOffset st
  /\ prosodyScores st' = prosodyScores st
  /\ scoreNumber st' = scoreNumber st.
Proof.
  induction events as [|e events IH]; intros st H; [cbn; auto 10|].
  inversion H as [|? ? He Hes]; subst. cbn [fold_left].
  destruct (IH (recognized st e) Hes) as (H1 & H2 & H3 & H4 & H5 & H6).
  cbn zeta. rewrite H1, H2, H3, H4, H5, H6, (recognized_wordless st e He).
  cbn. auto 10.
Qed.

(** X20.  A session in which no event had words (no event at all, or only
    silence) never throws, whatever the reference and the matcher: it
    resolves with no word, fluency 0, and [NaN] as prosody and overall
    score; the handler answers it with the 500 failure. *)
Theorem wordless_session
  (getOpcodes : list string -> list string -> list Opcode)
  (referenceText : string) (events : list RecognitionEvent)
  (rawAudioDuration : number) :
  accumulated events = [] ->
  exists a,
    continueRecognize getOpcodes referenceText events
    = Resolved (ContinuousResult a)
    /\ Words_ a = []
    /\ FluencyScore_ (scores a) = Num 0
    /\ ProsodyScore_ (scores a) = NaN
    /\ PronScore (scores a) = NaN
    /\ (isShortAudio rawAudioDuration = false ->
        respond rawAudioDuration
          (continueRecognize getOpcodes referenceText events)
        = Some {| status := 500; code := Some 500; data := None |}).
Proof.
  intros Hacc.
  destruct (fold_recognized_wordless events initialState
              (accumulated_nil_wordless events Hacc))
    as (Hh & Haw & Hrw & Hso & Hps & Hsn).
  fold (run events) in Hh, Haw, Hrw, Hso, Hps, Hsn. cbn in Hh, Haw, Hrw, Hso, Hps, Hsn.
  destruct (calculateOverallPronunciationScore getOpcodes referenceText (run events))
    as [[st' p]|] eqn:Hc.
  - pose proof Hc as Hinv.
    apply calculate_inv in Hinv as (lw & _ & _ & _ & Ef & Ep & Epron & Haw' & _).
    cbn zeta in Epron.
    rewrite Hso in Ef. cbn in Ef. rewrite Hsn in Ef. cbn in Ef.
    rewrite Hps in Ep. cbn in Ep.
    assert (Hpron : p = NaN).
    { rewrite Epron. apply computePronScore_NaN.
      destruct (statusIsTerminal (jo (run events))); [|auto].
      exists kProsodyScore. exact Ep. }
    unfold continueRecognize, sessionStopped. rewrite Hc.
    eexists. split; [reflexivity|]. cbn [Words_ scores FluencyScore_ ProsodyScore_ PronScore].
    rewrite Haw', Haw. repeat split; try assumption.
    intros Hlong. unfold respond. rewrite Hlong. reflexivity.
  - exfalso. unfold calculateOverallPronunciationScore in Hc.
    destruct (classify _ _ _ _ _) as [[h lw]|] eqn:Hcl; [discriminate|].
    apply classify_throws_iff in Hcl as [Hne _];
      [|rewrite Haw; constructor].
    now apply Hne.
Qed.

Lemma wordless_session_witness :
  exists a,
    continueRecognize (Scenario.opcodes [mkOpcode replace 0 1 0 1]) "hello"
      [ScenarioX.silence] = Resolved (ContinuousResult a)
    /\ PronScore (scores a) = NaN.
Proof.
  destruct (wordless_session (Scenario.opcodes [mkOpcode replace 0 1 0 1])
              "hello" [ScenarioX.silence] (Num 31) eq_refl)
    as (a & Ha & _ & _ & _ & Hp & _).
  exists a. split; assumption.
Defined.



(* ===================================================================== *)
(** * Properties of the double-precision scores *)
(* ===================================================================== *)

(** ** Rounding to a double *)

Lemma pow2_pos e : (0 < Double.pow2 e)%Q.
Proof. apply Qpower_0_lt. reflexivity. Qed.

Lemma pow2_add a b : (Double.pow2 (a + b) == Double.pow2 a * Double.pow2 b)%Q.
Proof. apply Qpower_plus. intros H. discriminate H. Qed.

Lemma pow2_inject n : (0 <= n)%Z -> (Double.pow2 n == inject_Z (2 ^ n))%Q.
Proof. intros H. unfold Double.pow2. now rewrite Zpower_Qpower. Qed.

Lemma pow2_le a b : (a <= b)%Z -> (Double.pow2 a <= Double.pow2 b)%Q.
Proof.
  intros H. replace b with (a + (b - a))%Z by lia.
  rewrite pow2_add, (pow2_inject (b - a)) by lia.
  pose proof (pow2_pos a) as Ha.
  assert (Hp : (1 <= inject_Z (2 ^ (b - a)))%Q).
  { change 1%Q with (inject_Z 1). rewrite <- Zle_Qle.
    pose proof (Z.pow_pos_nonneg 2 (b - a)). lia. }
  rewrite <- (Qmult_1_r (Double.pow2 a)) at 1.
  apply Qmult_le_l; assumption.
Qed.

(** [binade] is below the logarithm. *)
Lemma binade_le q : (0 < q)%Q -> (Double.pow2 (Double.binade q) <= q)%Q.
Proof.
  intros Hq. unfold Double.binade.
  set (ln := Z.log2 (Qnum q)). set (ld := Z.log2 (Z.pos (Qden q))).
  destruct (Qle_bool (Double.pow2 (ln - ld)) q) eqn:E.
  - now apply Qle_bool_iff.
  - clear E. destruct q as [n d]. cbn [Qnum Qden] in *.
    assert (Hn : (0 < n)%Z).
    { unfold Qlt in Hq. cbn in Hq. lia. }
    pose proof (Z.log2_spec n Hn) as [Hln _]. fold ln in Hln.
    pose proof (Z.log2_spec (Z.pos d) ltac:(lia)) as [_ Hld]. fold ld in Hld.
    pose proof (Z.log2_nonneg n) as Hln0. fold ln in Hln0.
    pose proof (Z.log2_nonneg (Z.pos d)) as Hld0. fold ld in Hld0.
    replace (ln - ld - 1)%Z with (ln + - (ld + 1))%Z by lia.
    rewrite pow2_add. unfold Double.pow2 at 2. rewrite Qpower_opp.
    fold (Double.pow2 (ld + 1)).
    rewrite (pow2_inject ln), (pow2_inject (ld + 1)) by lia.
    rewrite (Qmake_Qdiv n d).
    apply Qle_shift_div_l; [reflexivity|].
    unfold Qdiv.
    pose proof (Z.pow_pos_nonneg 2 (ld + 1) ltac:(lia) ltac:(lia)) as Hp.
    assert (H1 : (inject_Z (2 ^ ln) * inject_Z (Z.pos d)
                  <= inject_Z n * inject_Z (2 ^ Z.succ ld))%Q).
    { rewrite <- !inject_Z_mult, <- Zle_Qle. nia. }
    replace (ld + 1)%Z with (Z.succ ld) in * by lia.
    set (P := inject_Z (2 ^ Z.succ ld)) in *.
    assert (HP : (0 < P)%Q).
    { unfold P. change 0%Q with (inject_Z 0). rewrite <- Zlt_Qlt. lia. }
    apply Qle_shift_div_r in H1; [|exact HP].
    unfold Qdiv in H1.
    match goal with
    | |- (?l <= _)%Q =>
        assert (E : (l == inject_Z (2 ^ ln) * inject_Z (Z.pos d) * / P)%Q)
          by ring;
        rewrite E
    end.
    exact H1.
Qed.

(** [binade] is above the logarithm less one. *)
Lemma binade_lt q : (0 < q)%Q -> (q < Double.pow2 (Double.binade q + 1))%Q.
Proof.
  intros Hq. unfold Double.binade.
  set (ln := Z.log2 (Qnum q)). set (ld := Z.log2 (Z.pos (Qden q))).
  destruct (Qle_bool (Double.pow2 (ln - ld)) q) eqn:E.
  - clear E. destruct q as [n d]. cbn [Qnum Qden] in *.
    assert (Hn : (0 < n)%Z).
    { unfold Qlt in Hq. cbn in Hq. lia. }
    pose proof (Z.log2_spec n Hn) as [_ Hln]. fold ln in Hln.
    pose proof (Z.log2_spec (Z.pos d) ltac:(lia)) as [Hld _]. fold ld in Hld.
    pose proof (Z.log2_nonneg n) as Hln0. fold ln in Hln0.
    pose proof (Z.log2_nonneg (Z.pos d)) as Hld0. fold ld in Hld0.
    replace (ln - ld + 1)%Z with (ln + 1 + - ld)%Z by lia.
    rewrite pow2_add. unfold Double.pow2 at 2. rewrite Qpower_opp.
    fold (Double.pow2 ld).
    rewrite (pow2_inject (ln + 1)), (pow2_inject ld) by lia.
    rewrite (Qmake_Qdiv n d).
    apply Qlt_shift_div_r; [reflexivity|].
    pose proof (Z.pow_pos_nonneg 2 ld ltac:(lia) ltac:(lia)) as Hp.
    replace (ln + 1)%Z with (Z.succ ln) by lia.
    set (P := inject_Z (2 ^ ld)).
    assert (HP : (0 < P)%Q).
    { unfold P. change 0%Q with (inject_Z 0). rewrite <- Zlt_Qlt. lia. }
    assert (H1 : (inject_Z n * P < inject_Z (2 ^ Z.succ ln) * inject_Z (Z.pos d))%Q).
    { unfold P. rewrite <- !inject_Z_mult, <- Zlt_Qlt. nia. }
    apply Qlt_shift_div_l in H1; [|exact HP].
    unfold Qdiv in H1.
    match goal with
    | |- (_ < ?r)%Q =>
        assert (E : (r == inject_Z (2 ^ Z.succ ln) * inject_Z (Z.pos d) * / P)%Q)
          by ring;
        rewrite E
    end.
    exact H1.
  - replace (ln - ld - 1 + 1)%Z with (ln - ld)%Z by lia.
    apply Qnot_le_lt. intros H. apply Qle_bool_iff in H. congruence.
Qed.

(** [roundHalfEven] is a nearest integer, and is not below the floor. *)
Lemma roundHalfEven_nearest t :
  (t - (1 # 2) <= inject_Z (Double.roundHalfEven t) <= t + (1 # 2))%Q
  /\ (Qfloor t <= Double.roundHalfEven t)%Z.
Proof.
  unfold Double.roundHalfEven.
  pose proof (Qfloor_le t) as Hlo. pose proof (Qlt_floor t) as Hhi.
  rewrite inject_Z_plus in Hhi. change (inject_Z 1) with 1%Q in Hhi.
  destruct (t - inject_Z (Qfloor t) ?= 1 # 2)%Q eqn:E.
  - apply Qeq_alt in E. destruct (Z.even (Qfloor t)).
    + split; [lra | lia].
    + rewrite inject_Z_plus. change (inject_Z 1) with 1%Q. split; [lra | lia].
  - apply Qlt_alt in E. split; [lra | lia].
  - apply Qgt_alt in E. rewrite inject_Z_plus. change (inject_Z 1) with 1%Q.
    split; [lra | lia].
Qed.

Lemma eta_double : (eta * 2 == Double.pow2 (-1074))%Q.
Proof. reflexivity. Qed.

Lemma eta_small : (0 < eta)%Q /\ (eta <= 1 # 1267650600228229401496703205376)%Q.
Proof. split; [apply pow2_pos | vm_compute; discriminate]. Qed.

(** The last bit weighs at most 2^-52 of the number, unless the number is
    subnormal. *)
Lemma ulp_half q :
  (0 < q)%Q -> (0 < Double.ulp q)%Q /\ (Double.ulp q * (1 # 2) <= q * unitRoundoff + eta)%Q.
Proof.
  intros Hq. split; [apply pow2_pos|].
  unfold Double.ulp. pose proof (binade_le q Hq) as Hb.
  pose proof eta_small as [He _].
  destruct (Z.max_spec (Double.binade q - 52) (-1074)) as [[_ ->]|[_ ->]].
  - rewrite <- eta_double.
    assert (H : (0 <= q * unitRoundoff)%Q).
    { apply Qmult_le_0_compat; [lra | discriminate]. }
    set (e := eta) in *. clearbody e. lra.
  - replace (Double.binade q - 52)%Z with (Double.binade q + -52)%Z by lia.
    rewrite pow2_add.
    change (Double.pow2 (-52)) with (/ (4503599627370496 # 1))%Q.
    set (b := Double.pow2 (Double.binade q)) in *.
    unfold unitRoundoff.
    assert (E : (b * / (4503599627370496 # 1) * (1 # 2)
                 == b * (1 # 9007199254740992))%Q) by (field; discriminate).
    rewrite E.
    assert (H : (b * (1 # 9007199254740992) <= q * (1 # 9007199254740992))%Q).
    { apply Qmult_le_compat_r; [exact Hb | discriminate]. }
    set (e := eta) in *. clearbody e. lra.
Qed.

(** A normal number is not below its last bit. *)
Lemma ulp_le q :
  (Double.pow2 (-1074) <= q)%Q -> (Double.ulp q <= q)%Q.
Proof.
  intros Hq. assert (H0 : (0 < q)%Q).
  { pose proof (pow2_pos (-1074)). lra. }
  unfold Double.ulp.
  destruct (Z.max_spec (Double.binade q - 52) (-1074)) as [[_ ->]|[_ ->]].
  - exact Hq.
  - eapply Qle_trans; [|apply (binade_le q H0)]. apply pow2_le. lia.
Qed.

(** The rounding of a positive number: what it is made of. *)
Lemma roundPos_cases q :
  (0 < q)%Q ->
  let m := Double.roundHalfEven (q / Double.ulp q) in
  (0 <= m)%Z
  /\ ((Double.ulp q <= q)%Q -> (1 <= m)%Z)
  /\ (q - Double.ulp q * (1 # 2) <= inject_Z m * Double.ulp q
      <= q + Double.ulp q * (1 # 2))%Q
  /\ (Double.roundPos q = PosInfinity
      \/ exists r, Double.roundPos q = Num r
                   /\ (r == inject_Z m * Double.ulp q)%Q).
Proof.
  intros Hq m.
  pose proof (pow2_pos (Z.max (Double.binade q - 52) (-1074))) as Hu.
  fold (Double.ulp q) in Hu.
  destruct (roundHalfEven_nearest (q / Double.ulp q)) as [[Hlo Hhi] Hfl].
  fold m in Hlo, Hhi, Hfl.
  assert (Ht : (q / Double.ulp q * Double.ulp q == q)%Q) by (field; lra).
  split; [|split; [|split]].
  - etransitivity; [|exact Hfl].
    assert (H : (inject_Z 0 <= q / Double.ulp q)%Q).
    { change (inject_Z 0) with 0%Q. apply Qle_shift_div_l; [exact Hu | lra]. }
    apply Qfloor_resp_le in H. now rewrite Qfloor_Z in H.
  - intros Hle. etransitivity; [|exact Hfl].
    assert (H : (inject_Z 1 <= q / Double.ulp q)%Q).
    { change (inject_Z 1) with 1%Q. apply Qle_shift_div_l; [exact Hu | lra]. }
    apply Qfloor_resp_le in H. now rewrite Qfloor_Z in H.
  - apply (Qmult_le_compat_r _ _ (Double.ulp q)) in Hlo; [|lra].
    apply (Qmult_le_compat_r _ _ (Double.ulp q)) in Hhi; [|lra].
    set (u := Double.ulp q) in *. set (t := (q / u)%Q) in *.
    set (mu := (inject_Z m * u)%Q) in *.
    assert (E1 : ((t - (1 # 2)) * u == q - u * (1 # 2))%Q).
    { rewrite <- Ht. ring. }
    assert (E2 : ((t + (1 # 2)) * u == q + u * (1 # 2))%Q).
    { rewrite <- Ht. ring. }
    rewrite E1 in Hlo. rewrite E2 in Hhi. split; assumption.
  - unfold Double.roundPos. fold m.
    destruct (Qle_bool _ _); [now left|].
    right. eexists. split; [reflexivity | apply Qred_correct].
Qed.

(** One rounding, on a number that is not negative and far from overflow:
    the result is finite, not negative, and off by at most the relative
    error 2^-53 plus the absolute error 2^-1075. *)
Lemma round_error q :
  (0 <= q <= 1073741824)%Q ->
  exists r, Double.round q = Num r
            /\ (0 <= r)%Q
            /\ (q - (q * unitRoundoff + eta) <= r <= q + (q * unitRoundoff + eta))%Q.
Proof.
  intros [H0 Hmax]. unfold Double.round.
  pose proof eta_small as [He Hes].
  destruct (q ?= 0)%Q eqn:E.
  - apply Qeq_alt in E. exists 0%Q. split; [reflexivity|].
    split; [lra|]. rewrite E. lra.
  - apply Qlt_alt in E. lra.
  - apply Qgt_alt in E.
    destruct (roundPos_cases q E) as (Hm & _ & [Hlo Hhi] & Hr).
    destruct (ulp_half q E) as [Hu Hh].
    assert (Hqu : (q * unitRoundoff <= q)%Q).
    { rewrite <- (Qmult_1_r q) at 2. apply Qmult_le_l; [exact E | discriminate]. }
    destruct Hr as [Hinf|(r & Hr & Er)].
    + exfalso. unfold Double.roundPos in Hinf.
      destruct (Qle_bool (Double.pow2 1024) _) eqn:B; [|discriminate].
      apply Qle_bool_iff in B.
      assert (Hbig : (4294967296 < Double.pow2 1024)%Q)
        by (vm_compute; reflexivity).
      set (mu := (inject_Z _ * _)%Q) in *. lra.
    + exists r. split; [exact Hr|]. rewrite Er. split.
      * apply Qmult_le_0_compat; [|lra].
        change 0%Q with (inject_Z 0). now rewrite <- Zle_Qle.
      * set (mu := (inject_Z _ * _)%Q) in *. lra.
Qed.

Lemma Qfloor_unique (x : Q) (k : Z) :
  (inject_Z k <= x < inject_Z k + 1)%Q -> Qfloor x = k.
Proof.
  intros [Hlo Hhi].
  apply Qfloor_resp_le in Hlo. rewrite Qfloor_Z in Hlo.
  assert (H : (Qfloor x < k + 1)%Z); [|lia].
  rewrite Zlt_Qlt, inject_Z_plus. change (inject_Z 1) with 1%Q.
  pose proof (Qfloor_le x). lra.
Qed.

Lemma roundHalfAway_nonneg_floor (q : Q) :
  (0 <= q)%Q -> Number.roundHalfAway q = Qfloor (q + (1 # 2)).
Proof.
  intros H. unfold Number.roundHalfAway, Number.sgn.
  destruct (q ?= 0)%Q eqn:E; try reflexivity.
  apply Qlt_alt in E. lra.
Qed.

(** ** The rounding against the binary64 numbers of the kernel *)

(** On the computations of the scores [Double.round] gives what the
    floating-point unit gives: the quotient and the product of the
    completeness score for every count up to 64, the weighted sums of the
    overall score on 4096 quadruples of scores, the literals, and the two
    ends of the range of the exponent. *)
Example ratios_agree :
  forallb (fun p => sameNumber
                      (Binary64.value (Binary64.ratioTimes100 (fst p) (snd p)))
                      ((ofNat (fst p) / ofNat (snd p)) * Num 100)%dbl)
          ratios = true.
Proof. vm_compute. reflexivity. Qed.

Example weighted_sums_agree :
  forallb (fun q =>
             match q with
             | (a, b, c, d) =>
                 sameNumber
                   (Binary64.value
                      (Binary64.weighted4 (Binary64.halves a) (Binary64.halves b)
                         (Binary64.halves c) (Binary64.halves d)))
                   (half a * Double.literal (4 # 10)
                    + half b * Double.literal (2 # 10)
                    + half c * Double.literal (2 # 10)
                    + half d * Double.literal (2 # 10))%dbl
                 && sameNumber
                      (Binary64.value
                         (Binary64.weighted3 (Binary64.halves a)
                            (Binary64.halves b) (Binary64.halves c)))
                      (half a * Double.literal (6 # 10)
                       + half b * Double.literal (2 # 10)
                       + half c * Double.literal (2 # 10))%dbl
             end) quadruples = true.
Proof. vm_compute. reflexivity. Qed.

Example exponent_range_agrees :
  sameNumber (Binary64.value Binary64.smallest)
             (Double.round (Double.pow2 (-1074))) = true
  /\ sameNumber (Binary64.value Binary64.halfSmallest)
                (Double.round (Double.pow2 (-1075))) = true
  /\ sameNumber (Binary64.value Binary64.aboveSmallest)
                (Double.round (3 * Double.pow2 (-1075))) = true
  /\ sameNumber (Binary64.value Binary64.overflow)
                (Double.round ((Double.pow2 53 - 1) * Double.pow2 971
                               + Double.pow2 970)) = true.
Proof. vm_compute. repeat split; reflexivity. Qed.

(** ** Completeness in doubles *)

(** The quotient and the product are each rounded once; with fewer than
    2^20 words and tokens the two errors together are below the distance
    of [100 * n / len] to the next rounding boundary, unless it sits on
    one. *)
Lemma computeCompScore64_spec (nNone nReference : nat) :
  nReference <> 0 ->
  (Z.of_nat nNone < 1048576)%Z -> (Z.of_nat nReference < 1048576)%Z ->
  let ratio :=
    (100 * inject_Z (Z.of_nat nNone) / inject_Z (Z.of_nat nReference))%Q in
  let k := Number.roundHalfAway ratio in
  exists z,
    computeCompScore64 nNone nReference = Num (inject_Z (Z.min 100 z))
    /\ (z = k \/ (z = (k - 1)%Z /\ (ratio + (1 # 2) == inject_Z k)%Q)).
Proof.
  intros Hlen Hn Hl ratio k.
  set (n := Z.of_nat nNone) in *. set (len := Z.of_nat nReference) in *.
  assert (Hn0 : (0 <= n < 1048576)%Z) by lia.
  assert (Hl0 : (1 <= len < 1048576)%Z) by lia.
  assert (HlQ : (0 < inject_Z len)%Q).
  { change 0%Q with (inject_Z 0). rewrite <- Zlt_Qlt. lia. }
  set (g := (/ (2 * inject_Z len))%Q).
  set (q := (inject_Z n / inject_Z len)%Q).
  assert (Hg : (q == inject_Z (2 * n) * g)%Q).
  { unfold q, g. rewrite inject_Z_mult. change (inject_Z 2) with 2%Q.
    field. lra. }
  assert (Hglen : (g * inject_Z (2 * len) == 1)%Q).
  { unfold g. rewrite inject_Z_mult. change (inject_Z 2) with 2%Q.
    field. lra. }
  assert (Hg0 : (0 < g)%Q).
  { unfold g. apply Qinv_lt_0_compat. lra. }
  assert (Hgmin : (1 # 2097152 <= g)%Q).
  { assert (H : (inject_Z (2 * len) <= 2097152)%Q).
    { change 2097152%Q with (inject_Z 2097152). rewrite <- Zle_Qle. lia. }
    assert (H' : (g * inject_Z (2 * len) <= g * 2097152)%Q)
      by (apply Qmult_le_l; assumption).
    lra. }
  assert (Hgmax : (g <= 1 # 2)%Q).
  { assert (H : (2 <= inject_Z (2 * len))%Q).
    { change 2%Q with (inject_Z 2). rewrite <- Zle_Qle. lia. }
    assert (H' : (g * 2 <= g * inject_Z (2 * len))%Q)
      by (apply Qmult_le_l; assumption).
    lra. }
  assert (Hq0 : (0 <= q)%Q).
  { rewrite Hg. apply Qmult_le_0_compat; [|lra].
    change 0%Q with (inject_Z 0). rewrite <- Zle_Qle. lia. }
  assert (Hqmax : (q <= 2097152 * g)%Q).
  { rewrite Hg. apply Qmult_le_compat_r; [|lra].
    change 2097152%Q with (inject_Z 2097152). rewrite <- Zle_Qle. lia. }
  assert (Hratio : (ratio == 100 * q)%Q).
  { unfold ratio, q. field. lra. }
  pose proof eta_small as [He Hes].
  (* the quotient *)
  destruct (round_error q ltac:(lra)) as (a & Ea & Ha0 & Halo & Hahi).
  (* the product *)
  assert (Hqu : (0 <= q * unitRoundoff <= q * (1 # 9007199254740992))%Q).
  { unfold unitRoundoff. split; [|lra].
    apply Qmult_le_0_compat; [lra | discriminate]. }
  set (qu := (q * unitRoundoff)%Q) in *.
  set (e := eta) in *.
  assert (Ha100 : (0 <= a * 100 <= 1073741824)%Q) by lra.
  destruct (round_error (a * 100) Ha100) as (b & Eb & Hb0 & Hblo & Hbhi).
  fold e in Hblo, Hbhi.
  assert (Hau : (a * 100 * unitRoundoff == 100 * (a * (1 # 9007199254740992)))%Q)
    by (unfold unitRoundoff; ring).
  rewrite Hau in Hblo, Hbhi.
  assert (Hqg : (q * (1 # 9007199254740992)
                 <= g * (2097152 # 9007199254740992))%Q) by lra.
  clearbody e qu.
  assert (Hnear : (ratio - g * (1 # 2) <= b <= ratio + g * (1 # 2))%Q).
  { rewrite Hratio. lra. }
  exists (Number.roundHalfAway b). split.
  - unfold computeCompScore64, ofNat. fold n len.
    unfold Double.div, Double.mul. cbn [Number.div].
    assert (Hs : Number.sgn (inject_Z len) = Gt).
    { unfold Number.sgn. now apply Qgt_alt. }
    rewrite Hs. cbn [Double.rounded]. fold q. rewrite Ea.
    cbn [Number.mul Double.rounded]. rewrite Eb.
    cbn [Number.toFixed0 Number.gt].
    change 100%Q with (inject_Z 100). rewrite Qcompare_inject_Z.
    destruct (Z.compare_spec (Number.roundHalfAway b) 100) as [E|E|E].
    + now rewrite Z.min_r by lia.
    + now rewrite Z.min_r by lia.
    + now rewrite Z.min_l by lia.
  - assert (Hr0 : (0 <= ratio)%Q) by (rewrite Hratio; lra).
    rewrite (roundHalfAway_nonneg_floor b Hb0).
    unfold k. rewrite (roundHalfAway_nonneg_floor ratio Hr0).
    set (f := Qfloor (ratio + (1 # 2))).
    pose proof (Qfloor_le (ratio + (1 # 2))) as Hflo.
    pose proof (Qlt_floor (ratio + (1 # 2))) as Hfhi.
    fold f in Hflo, Hfhi.
    rewrite inject_Z_plus in Hfhi. change (inject_Z 1) with 1%Q in Hfhi.
    (* the distance of the ratio to a boundary is a multiple of g *)
    assert (Hgrid : (ratio + (1 # 2) - inject_Z f
                     == inject_Z (200 * n + len + - (f * (2 * len))) * g)%Q).
    { rewrite Hratio, Hg.
      rewrite !inject_Z_plus, inject_Z_opp, !inject_Z_mult.
      change (inject_Z 200) with 200%Q. change (inject_Z 2) with 2%Q.
      unfold g. field. lra. }
    set (c := (200 * n + len + - (f * (2 * len)))%Z) in *.
    assert (Hc : (0 <= c < 2 * len)%Z).
    { split.
      - assert (H : (0 <= inject_Z c * g)%Q) by lra.
        destruct (Z.le_gt_cases 0 c) as [|Hneg]; [assumption|].
        assert (H' : (inject_Z c <= -1)%Q).
        { change (-1)%Q with (inject_Z (-1)). rewrite <- Zle_Qle. lia. }
        assert (H'' : (inject_Z c * g <= -1 * g)%Q)
          by (apply Qmult_le_compat_r; lra).
        lra.
      - assert (H : (inject_Z c * g < g * inject_Z (2 * len))%Q) by lra.
        destruct (Z.lt_ge_cases c (2 * len)) as [|Hge]; [assumption|].
        assert (H' : (inject_Z (2 * len) <= inject_Z c)%Q)
          by (rewrite <- Zle_Qle; lia).
        assert (H'' : (inject_Z (2 * len) * g <= inject_Z c * g)%Q)
          by (apply Qmult_le_compat_r; lra).
        lra. }
    destruct (Z.eq_dec c 0%Z) as [Hz|Hz].
    + (* on a boundary: either side *)
      rewrite Hz in Hgrid.
      assert (Htie : (ratio + (1 # 2) == inject_Z f)%Q).
      { change (inject_Z 0) with 0%Q in Hgrid. lra. }
      destruct (Qlt_le_dec (b + (1 # 2)) (inject_Z f)) as [Hlt|Hge].
      * right. split; [|exact Htie].
        apply Qfloor_unique. unfold Z.sub.
        rewrite inject_Z_plus, inject_Z_opp.
        change (inject_Z 1) with 1%Q. lra.
      * left. apply Qfloor_unique. lra.
    + left. apply Qfloor_unique.
      assert (H1 : (1 * g <= inject_Z c * g)%Q).
      { apply Qmult_le_compat_r; [|lra].
        change 1%Q with (inject_Z 1). rewrite <- Zle_Qle. lia. }
      assert (H2 : (inject_Z c * g <= inject_Z (2 * len + - (1)) * g)%Q).
      { apply Qmult_le_compat_r; [|lra]. rewrite <- Zle_Qle. lia. }
      rewrite inject_Z_plus, inject_Z_opp in H2.
      change (inject_Z 1) with 1%Q in H2.
      set (cg := (inject_Z c * g)%Q) in *.
      set (L := inject_Z (2 * len)) in *. clearbody cg L.
      assert (H3 : ((L + - (1)) * g == 1 - g)%Q) by (ring_simplify; lra).
      lra.
Qed.

(** ** The order of the scores in doubles *)

(** Every double is a multiple of 2^-1074. *)
Lemma roundPos_grid q r :
  (0 < q)%Q -> Double.roundPos q = Num r ->
  exists k : Z, (r == inject_Z k * Double.pow2 (-1074))%Q.
Proof.
  intros Hq Hr.
  destruct (roundPos_cases q Hq) as (_ & _ & _ & [Hinf|(r' & Hr' & E)]).
  - rewrite Hinf in Hr. discriminate.
  - rewrite Hr' in Hr. injection Hr as ->.
    unfold Double.ulp in E.
    set (x := Z.max (Double.binade q - 52) (-1074)) in *.
    exists (Double.roundHalfEven (q / Double.pow2 x) * 2 ^ (x + 1074))%Z.
    rewrite E, inject_Z_mult, <- (pow2_inject (x + 1074)) by lia.
    replace x with (x + 1074 + -1074)%Z at 2 by lia.
    rewrite pow2_add. ring.
Qed.

Lemma isDouble_grid q :
  isDouble (Num q) = true ->
  exists k : Z, (q == inject_Z k * Double.pow2 (-1074))%Q.
Proof.
  unfold isDouble, Double.round.
  destruct (q ?= 0)%Q eqn:C.
  - intros _. apply Qeq_alt in C. exists 0%Z. rewrite C. ring.
  - apply Qlt_alt in C.
    assert (Hq : (0 < - q)%Q) by lra.
    destruct (Double.roundPos (- q)) as [r| | |] eqn:E; cbn [Number.neg];
      try discriminate.
    intros H. apply Qeq_bool_iff in H.
    destruct (roundPos_grid _ _ Hq E) as (k & Hk).
    exists (- k)%Z. rewrite inject_Z_opp, <- H, Hk. ring.
  - apply Qgt_alt in C.
    destruct (Double.roundPos q) as [r| | |] eqn:E; try discriminate.
    intros H. apply Qeq_bool_iff in H.
    destruct (roundPos_grid _ _ C E) as (k & Hk).
    exists k. now rewrite <- H.
Qed.

(** The rounding of a positive number is not negative, and is positive from
    the smallest double on. *)
Lemma roundPos_sign q :
  (0 < q)%Q ->
  Number.gt (Number.neg (Double.roundPos q)) (Num 0) = false
  /\ ((Double.pow2 (-1074) <= q)%Q ->
      Number.gt (Double.roundPos q) (Num 0) = true).
Proof.
  intros Hq.
  destruct (roundPos_cases q Hq) as (Hm & Hm1 & _ & [Hinf|(r & Hr & E)]).
  - rewrite Hinf. split; reflexivity.
  - rewrite Hr. cbn [Number.neg Number.gt].
    destruct (ulp_half q Hq) as [Hu _].
    split.
    + assert (H : (0 <= r)%Q).
      { rewrite E. apply Qmult_le_0_compat; [|lra].
        change 0%Q with (inject_Z 0). now rewrite <- Zle_Qle. }
      destruct (- r ?= 0)%Q eqn:C; try reflexivity.
      apply Qgt_alt in C. lra.
    + intros Hmin. specialize (Hm1 (ulp_le q Hmin)).
      assert (H : (0 < r)%Q).
      { rewrite E.
        assert (H1 : (1 * Double.ulp q <= inject_Z (Double.roundHalfEven (q / Double.ulp q)) * Double.ulp q)%Q).
        { apply Qmult_le_compat_r; [|lra].
          change 1%Q with (inject_Z 1). now rewrite <- Zle_Qle. }
        lra. }
      now rewrite (proj1 (Qgt_alt _ _) H).
Qed.

(** On doubles, the sign of the rounded difference is that of the
    difference: the comparator of the sort orders by value. *)
Lemma gt_sub_zero64 a b :
  isDouble (Num a) = true -> isDouble (Num b) = true ->
  Number.gt (Num a - Num b)%dbl (Num 0) = Number.gt (Num a) (Num b).
Proof.
  intros Ha Hb.
  destruct (isDouble_grid a Ha) as (ka & Eka).
  destruct (isDouble_grid b Hb) as (kb & Ekb).
  unfold Double.sub. cbn [Number.sub Number.add Number.neg Double.rounded Number.gt].
  unfold Double.round.
  pose proof (pow2_pos (-1074)) as Hp.
  destruct (a ?= b)%Q eqn:C.
  - apply Qeq_alt in C.
    assert (H : (a + - b == 0)%Q) by lra.
    now rewrite (proj1 (Qeq_alt _ _) H).
  - apply Qlt_alt in C.
    assert (H : (a + - b < 0)%Q) by lra.
    rewrite (proj1 (Qlt_alt _ _) H).
    apply roundPos_sign. lra.
  - apply Qgt_alt in C.
    assert (H : (0 < a + - b)%Q) by lra.
    rewrite (proj1 (Qgt_alt _ _) H).
    apply roundPos_sign; [exact H|].
    assert (Hd : (a + - b == inject_Z (ka + - kb) * Double.pow2 (-1074))%Q).
    { rewrite Eka, Ekb, inject_Z_plus, inject_Z_opp. ring. }
    rewrite Hd in H |- *.
    destruct (Z.le_gt_cases 1 (ka + - kb)) as [Hk|Hk].
    + assert (H1 : (1 * Double.pow2 (-1074)
                    <= inject_Z (ka + - kb) * Double.pow2 (-1074))%Q).
      { apply Qmult_le_compat_r; [|lra].
        change 1%Q with (inject_Z 1). now rewrite <- Zle_Qle. }
      set (P := Double.pow2 (-1074)) in *. clearbody P.
      set (X := (inject_Z (ka + - kb) * P)%Q) in *. clearbody X. lra.
    + exfalso.
      assert (H1 : (inject_Z (ka + - kb) * Double.pow2 (-1074)
                    <= 0 * Double.pow2 (-1074))%Q).
      { apply Qmult_le_compat_r; [|lra].
        change 0%Q with (inject_Z 0). rewrite <- Zle_Qle. lia. }
      set (P := Double.pow2 (-1074)) in *. clearbody P.
      set (X := (inject_Z (ka + - kb) * P)%Q) in *. clearbody X. lra.
Qed.

(** A score of the finalisation that is a double between 0 and 100. *)
Lemma sorted_scoreKeys64 (s : ScoreNumber) :
  (forall k, scoreInRange (getScore s k)) ->
  (forall k, isDouble (getScore s k) = true) ->
  exists k0 k1 k2 k3,
    sortBy (fun a b => (getScore s a - getScore s b)%dbl) scoreKeys
    = [k0; k1; k2; k3]
    /\ Permutation [k0; k1; k2; k3] scoreKeys
    /\ Number.le (getScore s k0) (getScore s k1) = true
    /\ Number.le (getScore s k1) (getScore s k2) = true
    /\ Number.le (getScore s k2) (getScore s k3) = true.
Proof.
  intros Hrange Hdouble.
  set (cmp := fun a b => (getScore s a - getScore s b)%dbl).
  pose proof (sortBy_perm cmp scoreKeys) as Hp.
  pose proof (Permutation_length Hp) as Hlen.
  assert (Hcmp : forall y x,
            Number.gt (cmp y x) (Num 0) = Number.gt (getScore s y) (getScore s x)).
  { intros y x. unfold cmp.
    pose proof (Hdouble y) as Dy. pose proof (Hdouble x) as Dx.
    destruct (Hrange y) as (qy & Ey & _). destruct (Hrange x) as (qx & Ex & _).
    rewrite Ey, Ex in *. now apply gt_sub_zero64. }
  assert (Hnan : forall k, Number.isNaN (getScore s k) = false).
  { intros k. destruct (Hrange k) as (q & -> & _). reflexivity. }
  assert (Hs : Sorted (fun a b => Number.le (getScore s a) (getScore s b) = true)
                      (sortBy cmp scoreKeys)).
  { apply sortBy_sorted.
    - intros y x H. rewrite Hcmp in H. now apply gt_true_le.
    - intros y x H. rewrite Hcmp in H.
      apply gt_false_le; [apply Hnan | apply Hnan | exact H]. }
  destruct (sortBy cmp scoreKeys) as [|k0 [|k1 [|k2 [|k3 [|? ?]]]]] eqn:E;
    try discriminate Hlen.
  exists k0, k1, k2, k3. split; [reflexivity|]. split; [exact Hp|].
  inversion Hs as [|? ? Hs1 Hd0]; subst. inversion Hd0; subst.
  inversion Hs1 as [|? ? Hs2 Hd1]; subst. inversion Hd1; subst.
  inversion Hs2 as [|? ? Hs3 Hd2]; subst. inversion Hd2; subst.
  auto.
Qed.

(** ** The weighted sum in doubles *)

(** [round_error] with the two error terms as numbers. *)
Lemma round_error_bound :
  exists e : Q,
    (0 < e <= 1 # 1267650600228229401496703205376)%Q
    /\ forall q, (0 <= q <= 1073741824)%Q ->
         exists r, Double.round q = Num r
                   /\ (0 <= r)%Q
                   /\ (q - (q * (1 # 9007199254740992) + e) <= r
                       <= q + (q * (1 # 9007199254740992) + e))%Q.
Proof.
  exists eta. split; [exact eta_small|]. intros q Hq.
  exact (round_error q Hq).
Qed.

Lemma literal_values :
  Double.literal (4 # 10) = Num (3602879701896397 # 9007199254740992)
  /\ Double.literal (2 # 10) = Num (3602879701896397 # 18014398509481984)
  /\ Double.literal (6 # 10) = Num (5404319552844595 # 9007199254740992).
Proof. repeat split; vm_compute; reflexivity. Qed.

Ltac round_next R q r :=
  let E := fresh "E" in
  let H0 := fresh "H0" in
  let Hlo := fresh "Hlo" in
  let Hhi := fresh "Hhi" in
  destruct (R q) as (r & E & H0 & Hlo & Hhi);
  [ lra | rewrite E; cbn [Number.add Number.mul Double.rounded] ].

(** Four products and three sums, each rounded once, on scores between 0
    and 100: the result is within 2^-43 of the exact weighted sum. *)
Lemma weighted4_error (s0 s1 s2 s3 : Q) :
  (0 <= s0 <= 100)%Q -> (0 <= s1 <= 100)%Q ->
  (0 <= s2 <= 100)%Q -> (0 <= s3 <= 100)%Q ->
  exists y,
    (Num s0 * Double.literal (4 # 10) + Num s1 * Double.literal (2 # 10)
     + Num s2 * Double.literal (2 # 10) + Num s3 * Double.literal (2 # 10))%dbl
    = Num y
    /\ (0 <= y)%Q
    /\ ((4 # 10) * s0 + (2 # 10) * s1 + (2 # 10) * s2 + (2 # 10) * s3
        - weightingError <= y
        <= (4 # 10) * s0 + (2 # 10) * s1 + (2 # 10) * s2 + (2 # 10) * s3
           + weightingError)%Q.
Proof.
  intros B0 B1 B2 B3.
  destruct round_error_bound as (e & [He Hes] & R).
  destruct literal_values as (-> & -> & _).
  unfold Double.add, Double.mul, weightingError.
  cbn [Number.add Number.mul Double.rounded].
  round_next R (s0 * (3602879701896397 # 9007199254740992))%Q p0.
  round_next R (s1 * (3602879701896397 # 18014398509481984))%Q p1.
  round_next R (p0 + p1)%Q a1.
  round_next R (s2 * (3602879701896397 # 18014398509481984))%Q p2.
  round_next R (a1 + p2)%Q a2.
  round_next R (s3 * (3602879701896397 # 18014398509481984))%Q p3.
  round_next R (a2 + p3)%Q y.
  exists y. split; [reflexivity|]. split; [assumption|]. lra.
Qed.

Lemma weighted3_error (s0 s1 s2 : Q) :
  (0 <= s0 <= 100)%Q -> (0 <= s1 <= 100)%Q -> (0 <= s2 <= 100)%Q ->
  exists y,
    (Num s0 * Double.literal (6 # 10) + Num s1 * Double.literal (2 # 10)
     + Num s2 * Double.literal (2 # 10))%dbl
    = Num y
    /\ (0 <= y)%Q
    /\ ((6 # 10) * s0 + (2 # 10) * s1 + (2 # 10) * s2 - weightingError <= y
        <= (6 # 10) * s0 + (2 # 10) * s1 + (2 # 10) * s2 + weightingError)%Q.
Proof.
  intros B0 B1 B2.
  destruct round_error_bound as (e & [He Hes] & R).
  destruct literal_values as (_ & -> & ->).
  unfold Double.add, Double.mul, weightingError.
  cbn [Number.add Number.mul Double.rounded].
  round_next R (s0 * (5404319552844595 # 9007199254740992))%Q p0.
  round_next R (s1 * (3602879701896397 # 18014398509481984))%Q p1.
  round_next R (p0 + p1)%Q a1.
  round_next R (s2 * (3602879701896397 # 18014398509481984))%Q p2.
  round_next R (a1 + p2)%Q y.
  exists y. split; [reflexivity|]. split; [assumption|]. lra.
Qed.

(** A number within [eps] of [exact] rounds as [exact] does when [exact]
    is farther than [eps] from the two boundaries around its rounding. *)
Lemma roundHalfAway_stable (exact y eps : Q) (k : Z) :
  (0 <= y)%Q ->
  (exact - eps <= y <= exact + eps)%Q ->
  (inject_Z k - (1 # 2) + eps < exact < inject_Z k + (1 # 2) - eps)%Q ->
  Number.roundHalfAway y = k.
Proof.
  intros Hy Hnear Hfar.
  rewrite (roundHalfAway_nonneg_floor y Hy).
  apply Qfloor_unique. lra.
Qed.

(** ** Finalisation in doubles *)

Section Finalisation64.

Variable getOpcodes : list string -> list string -> list Opcode.

(** What a finalisation in doubles that does not throw has computed. *)
Lemma calculate64_inv referenceText st st' pronScore :
  calculateOverallPronunciationScore64 getOpcodes referenceText st
  = Some (st', pronScore) ->
  let reference := wholelyricsArryRes referenceText in
  let terminal := statusIsTerminal (jo st) in
  exists lastWords,
    classify reference (allWords st) terminal
      (getOpcodes reference (resTextArray (currentText st))) (heap st)
    = Some (heap st', lastWords)
    /\ accuracyScore (scoreNumber st')
       = Number.toFixed0
           (Double.sum (accuracyScoresOf (heap st') lastWords)
            / ofNat (length (accuracyScoresOf (heap st') lastWords)))%dbl
    /\ compScore (scoreNumber st')
       = computeCompScore64
           (length (recognizedWordsRes (heap st') (recognizedWords st)))
           (length reference)
    /\ pronScore = computePronScore64 terminal (scoreNumber st')
    /\ allWords st' = allWords st
    /\ recognizedWords st' = recognizedWords st.
Proof.
  unfold calculateOverallPronunciationScore64.
  destruct (classify _ _ _ _ _) as [[h lastWords]|]; [|discriminate].
  intros [= <- <-]. cbn. exists lastWords. repeat split; reflexivity.
Qed.

End Finalisation64.

Lemma deref_length_le (h : list WordObj) (addrs : list nat) :
  length (deref h addrs) <= length addrs.
Proof.
  unfold deref. induction addrs as [|a r IH]; cbn; [lia|].
  destruct (h !! a); cbn; lia.
Qed.

Lemma doubleScores_spec (s : ScoreNumber) :
  doubleScores s = true ->
  (forall k, scoreInRange (getScore s k))
  /\ (forall k, isDouble (getScore s k) = true).
Proof.
  unfold doubleScores. rewrite forallb_forall. intros H.
  assert (Hk : forall k, inUnit (getScore s k) = true
                         /\ isDouble (getScore s k) = true).
  { intros k. apply andb_true_iff, H. destruct k; cbn; tauto. }
  split; intros k; destruct (Hk k) as [Hu Hd]; [|exact Hd].
  now apply inUnit_range.
Qed.

Lemma scoreInRange_Num (x : number) :
  scoreInRange x -> x = Num (toQ x) /\ (0 <= toQ x <= 100)%Q.
Proof. intros (q & -> & H). split; [reflexivity | exact H]. Qed.

(** C1, amended.  The overall score is the rounding of a weighted sum that
    the code evaluates in doubles, from the left: with the status
    [Success] or [Failed], 0.4 times the lowest of the four scores plus 0.2
    times each of the other three, in ascending order of value; otherwise
    0.6 accuracy + 0.2 fluency + 0.2 prosody.  On scores that are doubles
    between 0 and 100 the sum in doubles is within 2^-43 of the exact
    weighted sum, so that the overall score is the rounding of the exact
    sum as soon as that sum is farther than 2^-43 from the two boundaries
    of its rounding. *)
Theorem pronScore_weighting_in_doubles
  (getOpcodes : list string -> list string -> list Opcode)
  (referenceText : string) (st st' : State) (pronScore : number) :
  calculateOverallPronunciationScore64 getOpcodes referenceText st
  = Some (st', pronScore) ->
  let s := scoreNumber st' in
  doubleScores s = true ->
  (statusIsTerminal (jo st) = true ->
   exists lowest second third highest y,
     Permutation [lowest; second; third; highest]
       [kAccuracyScore; kFluencyScore; kCompScore; kProsodyScore]
     /\ Number.le (getScore s lowest) (getScore s second) = true
     /\ Number.le (getScore s second) (getScore s third) = true
     /\ Number.le (getScore s third) (getScore s highest) = true
     /\ (getScore s lowest * Double.literal (4 # 10)
         + getScore s second * Double.literal (2 # 10)
         + getScore s third * Double.literal (2 # 10)
         + getScore s highest * Double.literal (2 # 10))%dbl = Num y
     /\ pronScore = Num (inject_Z (Number.roundHalfAway y))
     /\ let exact :=
          ((4 # 10) * toQ (getScore s lowest)
           + (2 # 10) * toQ (getScore s second)
           + (2 # 10) * toQ (getScore s third)
           + (2 # 10) * toQ (getScore s highest))%Q in
        (exact - weightingError <= y <= exact + weightingError)%Q
        /\ ((inject_Z (Number.roundHalfAway exact) - (1 # 2) + weightingError
             < exact
             < inject_Z (Number.roundHalfAway exact) + (1 # 2) - weightingError)%Q ->
            pronScore = Num (inject_Z (Number.roundHalfAway exact))))
  /\ (statusIsTerminal (jo st) = false ->
      exists y,
        (accuracyScore s * Double.literal (6 # 10)
         + fluencyScore s * Double.literal (2 # 10)
         + prosodyScore s * Double.literal (2 # 10))%dbl = Num y
        /\ pronScore = Num (inject_Z (Number.roundHalfAway y))
        /\ let exact :=
             ((6 # 10) * toQ (accuracyScore s)
              + (2 # 10) * toQ (fluencyScore s)
              + (2 # 10) * toQ (prosodyScore s))%Q in
           (exact - weightingError <= y <= exact + weightingError)%Q
           /\ ((inject_Z (Number.roundHalfAway exact) - (1 # 2) + weightingError
                < exact
                < inject_Z (Number.roundHalfAway exact) + (1 # 2) - weightingError)%Q ->
               pronScore = Num (inject_Z (Number.roundHalfAway exact)))).
Proof.
  intros Hc s Hd.
  apply calculate64_inv in Hc as (_ & _ & _ & _ & Hp & _).
  cbn zeta in Hp. fold s in Hp.
  destruct (doubleScores_spec s Hd) as [Hrange Hdouble].
  split; intros Ht; rewrite Ht in Hp; unfold computePronScore64 in Hp.
  - destruct (sorted_scoreKeys64 s Hrange Hdouble)
      as (k0 & k1 & k2 & k3 & E & Hperm & H01 & H12 & H23).
    rewrite E in Hp. unfold scoreAt in Hp. cbn [lookup list_lookup] in Hp.
    destruct (scoreInRange_Num _ (Hrange k0)) as [E0 B0].
    destruct (scoreInRange_Num _ (Hrange k1)) as [E1 B1].
    destruct (scoreInRange_Num _ (Hrange k2)) as [E2 B2].
    destruct (scoreInRange_Num _ (Hrange k3)) as [E3 B3].
    destruct (weighted4_error _ _ _ _ B0 B1 B2 B3) as (y & Ey & Hy & Hnear).
    rewrite <- E0, <- E1, <- E2, <- E3 in Ey.
    exists k0, k1, k2, k3, y.
    split; [exact Hperm|]. split; [exact H01|]. split; [exact H12|].
    split; [exact H23|]. split; [exact Ey|].
    rewrite Ey in Hp. cbn [Number.toFixed0] in Hp.
    split; [exact Hp|]. cbn zeta. split; [exact Hnear|].
    intros Hfar. rewrite Hp. do 2 f_equal.
    exact (roundHalfAway_stable _ _ _ _ Hy Hnear Hfar).
  - destruct (scoreInRange_Num _ (Hrange kAccuracyScore)) as [E0 B0].
    destruct (scoreInRange_Num _ (Hrange kFluencyScore)) as [E1 B1].
    destruct (scoreInRange_Num _ (Hrange kProsodyScore)) as [E2 B2].
    cbn [getScore] in E0, E1, E2, B0, B1, B2.
    destruct (weighted3_error _ _ _ B0 B1 B2) as (y & Ey & Hy & Hnear).
    rewrite <- E0, <- E1, <- E2 in Ey.
    exists y. split; [exact Ey|].
    rewrite Ey in Hp. cbn [Number.toFixed0] in Hp.
    split; [exact Hp|]. cbn zeta. split; [exact Hnear|].
    intros Hfar. rewrite Hp. do 2 f_equal.
    exact (roundHalfAway_stable _ _ _ _ Hy Hnear Hfar).
Qed.

(** Scenario B in doubles: accuracy 75, completeness 75, fluency 100 and
    prosody 100 with status [Success]; the exact weighted sum is 85, far
    from a boundary, and the overall score is 85. *)
Lemma pronScore_weighting_in_doubles_witness :
  doubleScores (scoreNumber (fst Scenario64.finalB)) = true
  /\ statusIsTerminal (jo (run Scenario.eventsB)) = true
  /\ snd Scenario64.finalB = Num 85
  /\ exists lowest second third highest y,
       Permutation [lowest; second; third; highest]
         [kAccuracyScore; kFluencyScore; kCompScore; kProsodyScore]
       /\ (getScore (scoreNumber (fst Scenario64.finalB)) lowest
             * Double.literal (4 # 10)
           + getScore (scoreNumber (fst Scenario64.finalB)) second
             * Double.literal (2 # 10)
           + getScore (scoreNumber (fst Scenario64.finalB)) third
             * Double.literal (2 # 10)
           + getScore (scoreNumber (fst Scenario64.finalB)) highest
             * Double.literal (2 # 10))%dbl = Num y
       /\ snd Scenario64.finalB = Num (inject_Z (Number.roundHalfAway y)).
Proof.
  split; [vm_compute; reflexivity|]. split; [reflexivity|].
  split; [reflexivity|].
  destruct (pronScore_weighting_in_doubles
              (Scenario.opcodes Scenario.opcodesB) "The quick brown fox"
              (run Scenario.eventsB)
              (fst Scenario64.finalB) (snd Scenario64.finalB)
              ltac:(vm_compute; reflexivity)
              ltac:(vm_compute; reflexivity)) as [Hterminal _].
  destruct (Hterminal eq_refl)
    as (k0 & k1 & k2 & k3 & y & Hperm & _ & _ & _ & Hy & Hp & _).
  exists k0, k1, k2, k3, y. split; [exact Hperm|]. split; [exact Hy | exact Hp].
Defined.

(** C1 fails as stated: with accuracy 57, completeness 65, fluency 66.5 and
    prosody 67 the exact weighted sum is 62.5, which rounds to 63; the sum
    in doubles is 62.49999999999999 and the overall score 62. *)
Lemma weighting_as_stated_fails :
  ~ weighting_as_stated (Scenario.opcodes Scenario64.opcodesV)
      Scenario64.referenceV Scenario64.eventsV.
Proof.
  intros H.
  specialize (H (fst Scenario64.finalV) (snd Scenario64.finalV)
                ltac:(vm_compute; reflexivity)).
  vm_compute in H. discriminate H.
Qed.

(** C4, amended.  With a reference of at least one token, the completeness
    score is the rounding of the double [(n / len) * 100], the quotient and
    the product each rounded to a double, and 100 at most; [n] is the
    number of recognised words whose tag is [None] once the classification
    has run and [len] the number of reference tokens.  With fewer than 2^20
    words and tokens that is the rounding of [100 * n / len], and 100 at
    most, unless [100 * n / len] is half an odd integer, in which case it
    is that rounding or the integer below. *)
Theorem completeness_in_doubles
  (getOpcodes : list string -> list string -> list Opcode)
  (referenceText : string) (st st' : State) (pronScore : number) :
  calculateOverallPronunciationScore64 getOpcodes referenceText st
  = Some (st', pronScore) ->
  length (wholelyricsArryRes referenceText) <> 0 ->
  (Z.of_nat (length (recognizedWords st')) < 1048576)%Z ->
  (Z.of_nat (length (wholelyricsArryRes referenceText)) < 1048576)%Z ->
  let nNone :=
    length (List.filter (fun word => (ErrorType word =? "None")%string)
                        (deref (heap st') (recognizedWords st'))) in
  let nReference := length (wholelyricsArryRes referenceText) in
  let ratio :=
    (100 * inject_Z (Z.of_nat nNone) / inject_Z (Z.of_nat nReference))%Q in
  compScore (scoreNumber st')
  = (let compScore :=
       Number.toFixed0 ((ofNat nNone / ofNat nReference) * Num 100)%dbl in
     if Number.gt compScore (Num 100) then Num 100 else compScore)
  /\ exists z,
       compScore (scoreNumber st') = Num (inject_Z (Z.min 100 z))
       /\ (z = Number.roundHalfAway ratio
           \/ (z = (Number.roundHalfAway ratio - 1)%Z
               /\ (ratio + (1 # 2)
                   == inject_Z (Number.roundHalfAway ratio))%Q)).
Proof.
  intros Hc Hlen Hwords Htokens nNone nReference ratio.
  apply calculate64_inv in Hc as (_ & _ & _ & Hcomp & _ & _ & Hrw).
  cbn zeta in Hcomp. rewrite Hcomp, <- Hrw.
  split; [reflexivity|].
  apply computeCompScore64_spec; [exact Hlen| |exact Htokens].
  unfold recognizedWordsRes.
  pose proof (filter_length_le (fun word => (ErrorType word =? "None")%string)
                (deref (heap st') (recognizedWords st'))) as H1.
  pose proof (deref_length_le (heap st') (recognizedWords st')) as H2.
  lia.
Qed.

(** Scenario B in doubles: three words tagged [None] against a reference
    of four tokens give 75, which is not half an odd integer. *)
Lemma completeness_in_doubles_witness :
  length (List.filter (fun word => (ErrorType word =? "None")%string)
            (deref (heap (fst Scenario64.finalB))
                   (recognizedWords (fst Scenario64.finalB)))) = 3
  /\ length (wholelyricsArryRes "The quick brown fox") = 4
  /\ compScore (scoreNumber (fst Scenario64.finalB)) = Num 75.
Proof.
  split; [reflexivity|]. split; [reflexivity|].
  destruct (completeness_in_doubles
              (Scenario.opcodes Scenario.opcodesB) "The quick brown fox"
              (run Scenario.eventsB)
              (fst Scenario64.finalB) (snd Scenario64.finalB)
              ltac:(vm_compute; reflexivity)
              ltac:(vm_compute; discriminate)
              ltac:(vm_compute; reflexivity)
              ltac:(vm_compute; reflexivity))
    as (_ & z & Hz & [Hk|[_ Htie]]).
  - rewrite Hz, Hk. reflexivity.
  - vm_compute in Htie. discriminate Htie.
Defined.

(** C4 fails as stated: with 23 words tagged [None] against a reference of
    40 tokens, [100 * 23 / 40] is 57.5, which rounds to 58; the double
    [(23 / 40) * 100] is 57.49999999999999 and the completeness score 57. *)
Lemma completeness_as_stated_fails :
  ~ completeness_as_stated (Scenario.opcodes Scenario64.opcodesH)
      Scenario64.referenceH Scenario64.eventsH.
Proof.
  intros H.
  specialize (H (fst Scenario64.finalH) (snd Scenario64.finalH)
                ltac:(vm_compute; reflexivity)
                ltac:(vm_compute; discriminate)).
  vm_compute in H. discriminate H.
Qed.

(** ** Insertions *)






